(** * FeedMe order engine: OrderManager, Bot and Controller

    A shallow embedding of [src/BaseClass/Order.ts], of the Bot class with
    speed classes and a per-second counter ([BaseClass/Bot.ts], the variant
    that [Controller/index.ts] and [App.tsx] import [BOT_TYPE] from) and of
    [src/Controller/index.ts].

    JavaScript objects are shared by reference: an [Order] sits in a queue
    array, in a bot's [currentOrder] and in the closure of an interval at the
    same time as one object.  Orders and bots therefore live in two heaps
    (lists indexed by address) and every array holds addresses. *)

From stdpp Require Import base list gmap.
From Stdlib Require Import ZArith Lia Sorted.

Set Default Proof Using "Type".
Set Warnings "-clear-no-such-hyp".

(** ** Data model (Order.ts, Bot.ts) *)

Inductive OrderStatus := PENDING | COMPLETE.
Inductive OrderType := NORMAL | VIP.
Inductive EventType := ORDER_ADDED | ORDER_UPDATED | ORDER_COUNTER.
Inductive BotStatus := RUN | IDLE.
(** [BotType] is ["NORMAL" | "VIP"], the same two tags as [OrderType]. *)
Definition BotType := OrderType.

#[global] Instance OrderStatus_eq_dec : EqDecision OrderStatus.
Proof. solve_decision. Defined.
#[global] Instance OrderType_eq_dec : EqDecision OrderType.
Proof. solve_decision. Defined.
#[global] Instance EventType_eq_dec : EqDecision EventType.
Proof. solve_decision. Defined.
#[global] Instance BotStatus_eq_dec : EqDecision BotStatus.
Proof. solve_decision. Defined.

(** Addresses of Order and Bot objects in their heaps. *)
Abbreviation oref := nat (only parsing).
Abbreviation bref := nat (only parsing).

(** [interface IOrder]; [counter] is a JS number that only ever holds small
    integers, so [Z]. *)
Record Order := mkOrder {
  status : OrderStatus;
  uid : nat;
  orderType : OrderType;
  counter : Z;
}.

(** [class Bot].  [counterHandle] is [None] until the first [setInterval];
    [isDestroyed] is [None] while the optional field is undefined. *)
Record Bot := mkBot {
  bstatus : BotStatus;
  buid : nat;
  btype : BotType;
  currentOrder : option oref;
  counterHandle : option nat;
  isDestroyed : option bool;
}.

(** The callbacks that the repository registers with [subscribe]: the arrow
    function of [Controller.constructor], and read-only observers (the
    callback of [App.tsx], the spy of the tests), which look at the registry
    through [getOrderList] and change nothing in the engine. *)
Inductive Subscriber :=
| ControllerCallback
| Observer (k : nat).

#[global] Instance Subscriber_eq_dec : EqDecision Subscriber.
Proof. solve_decision. Defined.

(** Ghost trace of the calls the claims speak about. *)
Inductive Call :=
| Publish (e : EventType)
    (* OrderManager.publish was entered with an event of type e *)
| Invoke (i : nat) (e : EventType) (seen : list oref)
    (* messageQueue[i] was called with e; seen is what getOrderList()
       returns at that moment *)
| Pickup (b : bref).
    (* Bot.processNextOrder was entered on bot b *)

#[global] Instance Call_eq_dec : EqDecision Call.
Proof. solve_decision. Defined.

(** The whole program state: the two module-level [getUid] counters, the two
    heaps, the fields of the one OrderManager and the one Controller that
    [App.tsx] and the tests create, the table of active intervals, and the
    ghost trace. *)
Record World := mkWorld {
  orderUid : nat;                     (* Order.ts: let uid = 0 *)
  botUid : nat;                       (* Bot.ts: let uid = 0 *)
  orders : list Order;                (* heap of Order objects *)
  bots : list Bot;                    (* heap of Bot objects *)
  queueCache : list oref;
  queueVipOrder : list oref;
  queueNormalOrder : list oref;
  queueComplete : list oref;
  messageQueue : list Subscriber;
  queue : list bref;                  (* Controller.queue *)
  nextHandle : nat;                   (* next id setInterval hands out *)
  timers : gmap nat (bref * oref);    (* active intervals: handle -> closure (this, nextOrder) *)
  trace : list Call;
}.

Definition set_orderUid v w := mkWorld v (botUid w) (orders w) (bots w) (queueCache w) (queueVipOrder w) (queueNormalOrder w) (queueComplete w) (messageQueue w) (queue w) (nextHandle w) (timers w) (trace w).
Definition set_botUid v w := mkWorld (orderUid w) v (orders w) (bots w) (queueCache w) (queueVipOrder w) (queueNormalOrder w) (queueComplete w) (messageQueue w) (queue w) (nextHandle w) (timers w) (trace w).
Definition set_orders v w := mkWorld (orderUid w) (botUid w) v (bots w) (queueCache w) (queueVipOrder w) (queueNormalOrder w) (queueComplete w) (messageQueue w) (queue w) (nextHandle w) (timers w) (trace w).
Definition set_bots v w := mkWorld (orderUid w) (botUid w) (orders w) v (queueCache w) (queueVipOrder w) (queueNormalOrder w) (queueComplete w) (messageQueue w) (queue w) (nextHandle w) (timers w) (trace w).
Definition set_queueCache v w := mkWorld (orderUid w) (botUid w) (orders w) (bots w) v (queueVipOrder w) (queueNormalOrder w) (queueComplete w) (messageQueue w) (queue w) (nextHandle w) (timers w) (trace w).
Definition set_queueVipOrder v w := mkWorld (orderUid w) (botUid w) (orders w) (bots w) (queueCache w) v (queueNormalOrder w) (queueComplete w) (messageQueue w) (queue w) (nextHandle w) (timers w) (trace w).
Definition set_queueNormalOrder v w := mkWorld (orderUid w) (botUid w) (orders w) (bots w) (queueCache w) (queueVipOrder w) v (queueComplete w) (messageQueue w) (queue w) (nextHandle w) (timers w) (trace w).
Definition set_queueComplete v w := mkWorld (orderUid w) (botUid w) (orders w) (bots w) (queueCache w) (queueVipOrder w) (queueNormalOrder w) v (messageQueue w) (queue w) (nextHandle w) (timers w) (trace w).
Definition set_messageQueue v w := mkWorld (orderUid w) (botUid w) (orders w) (bots w) (queueCache w) (queueVipOrder w) (queueNormalOrder w) (queueComplete w) v (queue w) (nextHandle w) (timers w) (trace w).
Definition set_queue v w := mkWorld (orderUid w) (botUid w) (orders w) (bots w) (queueCache w) (queueVipOrder w) (queueNormalOrder w) (queueComplete w) (messageQueue w) v (nextHandle w) (timers w) (trace w).
Definition set_nextHandle v w := mkWorld (orderUid w) (botUid w) (orders w) (bots w) (queueCache w) (queueVipOrder w) (queueNormalOrder w) (queueComplete w) (messageQueue w) (queue w) v (timers w) (trace w).
Definition set_timers v w := mkWorld (orderUid w) (botUid w) (orders w) (bots w) (queueCache w) (queueVipOrder w) (queueNormalOrder w) (queueComplete w) (messageQueue w) (queue w) (nextHandle w) v (trace w).
Definition set_trace v w := mkWorld (orderUid w) (botUid w) (orders w) (bots w) (queueCache w) (queueVipOrder w) (queueNormalOrder w) (queueComplete w) (messageQueue w) (queue w) (nextHandle w) (timers w) v.

(** Field assignments on heap objects. *)
Definition with_status (s : OrderStatus) (o : Order) : Order :=
  mkOrder s (uid o) (orderType o) (counter o).
Definition with_counter (c : Z) (o : Order) : Order :=
  mkOrder (status o) (uid o) (orderType o) c.
Definition with_bstatus (s : BotStatus) (b : Bot) : Bot :=
  mkBot s (buid b) (btype b) (currentOrder b) (counterHandle b) (isDestroyed b).
Definition with_currentOrder (c : option oref) (b : Bot) : Bot :=
  mkBot (bstatus b) (buid b) (btype b) c (counterHandle b) (isDestroyed b).
Definition with_counterHandle (h : option nat) (b : Bot) : Bot :=
  mkBot (bstatus b) (buid b) (btype b) (currentOrder b) h (isDestroyed b).
Definition with_isDestroyed (d : option bool) (b : Bot) : Bot :=
  mkBot (bstatus b) (buid b) (btype b) (currentOrder b) (counterHandle b) d.

(** [obj.field = v] on the object at address [a]. *)
Definition assign_order (a : oref) (f : Order → Order) (w : World) : World :=
  set_orders (alter f a (orders w)) w.
Definition assign_bot (a : bref) (f : Bot → Bot) (w : World) : World :=
  set_bots (alter f a (bots w)) w.

Definition log (c : Call) (w : World) : World := set_trace (trace w ++ [c]) w.

(** [Array.prototype.forEach], with the index the callback receives. *)
Fixpoint forEach {A} (f : nat → A → World → World) (i : nat) (l : list A)
    (w : World) : World :=
  match l with
  | [] => w
  | x :: l' => forEach f (S i) l' (f i x w)
  end.

(** ** OrderManager.getOrderList *)
Definition getOrderList (w : World) : list oref :=
  queueCache w ++ queueVipOrder w ++ queueNormalOrder w ++ queueComplete w.

(** [bot.status === BOT_STATUS.IDLE]. *)
Definition isIdle (w : World) (b : bref) : bool :=
  match bots w !! b with
  | Some bot => bool_decide (bstatus bot = IDLE)
  | None => false
  end.

(** ** Controller.hasIdleBot *)
Definition hasIdleBot (w : World) : bool := existsb (isIdle w) (queue w).

(** [setInterval(closure, 1000)]: registers the closure under a fresh handle. *)
Definition setInterval (cl : bref * oref) (w : World) : nat * World :=
  let h := nextHandle w in
  (h, set_nextHandle (S h) (set_timers (<[h := cl]> (timers w)) w)).

(** [clearInterval(h)] and [clearTimeout(h)]: both remove the timer with that
    handle, whatever its kind; an unknown handle is ignored. *)
Definition clearInterval (h : nat) (w : World) : World :=
  set_timers (delete h (timers w)) w.

(** ** The methods on the path publish -> subscriber -> pickup -> publish

    [publish] calls the subscribers, the Controller's subscriber calls
    [Bot.processNextOrder], which calls [OrderManager.processNextOrder], which
    calls [publish] again.  The methods on this cycle take the inner
    [publish] as a parameter; the knot is tied below. *)
Section WithPublish.
Variable publish_rec : EventType → World → World.

(** OrderManager.processNextOrder: [a.shift() || b.shift() || c.shift()];
    an Order object is truthy, so [||] stops at the first non-empty queue
    and the later queues are not shifted. *)
Definition OrderManager_processNextOrder (w : World) : option oref * World :=
  let '(order, w) :=
    match queueCache w with
    | x :: rest => (Some x, set_queueCache rest w)
    | [] =>
      match queueVipOrder w with
      | x :: rest => (Some x, set_queueVipOrder rest w)
      | [] =>
        match queueNormalOrder w with
        | x :: rest => (Some x, set_queueNormalOrder rest w)
        | [] => (None, w)
        end
      end
    end in
  match order with
  | Some x => (Some x, publish_rec ORDER_UPDATED w)
  | None => (None, w)
  end.

(** Bot.updateOrder *)
Definition Bot_updateOrder (b : bref) (order : oref) (w : World) : World :=
  let w := assign_bot b (with_bstatus RUN) w in
  assign_bot b (with_currentOrder (Some order)) w.

(** [this.type] of the bot at [b]. *)
Definition typeOf (w : World) (b : bref) : BotType :=
  match bots w !! b with Some bot => btype bot | None => NORMAL end.

(** Bot.processNextOrder, up to and including [setInterval]; the body of
    the interval is [interval_callback] below. *)
Definition Bot_processNextOrder (b : bref) (w : World) : World :=
  let w := log (Pickup b) w in
  let '(nextOrder, w) := OrderManager_processNextOrder w in
  match nextOrder with
  | None => assign_bot b (with_bstatus IDLE) w
  | Some o =>
    let w := Bot_updateOrder b o w in
    let w :=
      assign_order o
        (with_counter (if decide (typeOf w b = VIP) then 5 else 10)%Z) w in
    let w := publish_rec ORDER_COUNTER w in
    let '(h, w) := setInterval (b, o) w in
    assign_bot b (with_counterHandle (Some h)) w
  end.

(** The subscriber registered in Controller.constructor. *)
Definition controller_callback (e : EventType) (w : World) : World :=
  if bool_decide (e = ORDER_ADDED) && hasIdleBot w then
    forEach (λ _ b w, if isIdle w b then Bot_processNextOrder b w else w)
            0 (queue w) w
  else w.

(** Calling [messageQueue[i]] with an event. *)
Definition invoke (e : EventType) (i : nat) (s : Subscriber) (w : World)
    : World :=
  let w := log (Invoke i e (getOrderList w)) w in
  match s with
  | ControllerCallback => controller_callback e w
  | Observer _ => w
  end.

(** OrderManager.publish, one level. *)
Definition publish_body (e : EventType) (w : World) : World :=
  forEach (invoke e) 0 (messageQueue w) (log (Publish e) w).
End WithPublish.

(** [publish] nested at most [n] deep. *)
Fixpoint publish_depth (n : nat) (e : EventType) (w : World) : World :=
  match n with
  | 0 => w
  | S n => publish_body (publish_depth n) e w
  end.

(** ** OrderManager.publish

    Two levels are all the code ever nests: only an ORDER_ADDED makes a
    subscriber publish, and what it publishes is ORDER_UPDATED and
    ORDER_COUNTER ([publish_unfold] below shows that this definition satisfies
    the recursive equation of the source). *)
Definition publish : EventType → World → World := publish_depth 2.

Module OrderManager.
(** [new Order({type})]: the field initialisers run first ([status],
    [uid = getUid()]), then the constructor body. *)
Definition newOrder (type : OrderType) (w : World) : oref * World :=
  let u := orderUid w in
  let w := set_orderUid (S u) w in
  let a := length (orders w) in
  (a, set_orders (orders w ++ [mkOrder PENDING u type 0]) w).

Definition createNormalOrder (w : World) : oref * World :=
  let '(order, w) := newOrder NORMAL w in
  let w := set_queueNormalOrder (queueNormalOrder w ++ [order]) w in
  (order, publish ORDER_ADDED w).

Definition createVipOrder (w : World) : oref * World :=
  let '(order, w) := newOrder VIP w in
  let w := set_queueVipOrder (queueVipOrder w ++ [order]) w in
  (order, publish ORDER_ADDED w).

Definition processNextOrder : World → option oref * World :=
  OrderManager_processNextOrder publish.

Definition completeOrder (order : oref) (w : World) : World :=
  let w := assign_order order (with_status COMPLETE) w in
  let w := set_queueComplete (queueComplete w ++ [order]) w in
  publish ORDER_UPDATED w.

Definition updateCache (order : oref) (w : World) : World :=
  let w := set_queueCache (order :: queueCache w) w in
  publish ORDER_UPDATED w.

Definition subscribe (callback : Subscriber) (w : World) : World :=
  set_messageQueue (messageQueue w ++ [callback]) w.
End OrderManager.

Module Bot.
Definition updateOrder := Bot_updateOrder.

Definition completeOrder (b : bref) (w : World) : World :=
  match bots w !! b ≫= currentOrder with
  | None => w
  | Some o =>
    let w := OrderManager.completeOrder o w in
    assign_bot b (with_currentOrder None) w
  end.

Definition processNextOrder : bref → World → World :=
  Bot_processNextOrder publish.

(** The arrow function handed to [setInterval] in [processNextOrder];
    [b] is the captured [this], [nextOrder] the captured local. *)
Definition interval_callback (b : bref) (nextOrder : oref) (w : World)
    : World :=
  let w := assign_order nextOrder (λ o, with_counter (counter o - 1)%Z o) w in
  let w := publish ORDER_COUNTER w in
  if bool_decide (counter <$> orders w !! nextOrder = Some 0%Z) then
    let w :=
      match bots w !! b ≫= counterHandle with
      | Some h => clearInterval h w
      | None => w
      end in
    let w := completeOrder b w in
    processNextOrder b w
  else w.

(** [new Bot({orderManager, type})]. *)
Definition new (type : BotType) (w : World) : bref * World :=
  let u := botUid w in
  let w := set_botUid (S u) w in
  let a := length (bots w) in
  let w := set_bots (bots w ++ [mkBot IDLE u type None None None]) w in
  (a, processNextOrder a w).

Definition destroy (b : bref) (w : World) : World :=
  let w :=
    match bots w !! b ≫= counterHandle with
    | Some h => clearInterval h w
    | None => w
    end in
  match bots w !! b ≫= currentOrder with
  | None => w
  | Some o =>
    let w := OrderManager.updateCache o w in
    let w := assign_bot b (with_currentOrder None) w in
    let w := assign_bot b (with_bstatus IDLE) w in
    assign_bot b (with_isDestroyed (Some true)) w
  end.
End Bot.

Module Controller.
(** [increase(params?)]: [params?.type || BOT_TYPE.NORMAL]. *)
Definition increase (params : option BotType) (w : World) : bref * World :=
  let '(bot, w) := Bot.new (default NORMAL params) w in
  (bot, set_queue (queue w ++ [bot]) w).

(** [decrease()]: [this.queue.pop()] then [bot?.destroy()]. *)
Definition decrease (w : World) : World :=
  match last (queue w) with
  | None => w
  | Some bot => Bot.destroy bot (set_queue (removelast (queue w)) w)
  end.

Definition getBots (w : World) : list bref := queue w.
End Controller.

(** ** Runs of the engine

    [new OrderManager()] followed by [new Controller({orderManager})], as in
    [App.tsx] and in [beforeEach] of the tests, in a freshly loaded program
    (both uid counters at 0).  Interval handles start at 1, as in a browser. *)
Definition init : World :=
  OrderManager.subscribe ControllerCallback
    (mkWorld 0 0 [] [] [] [] [] [] [] [] 1 ∅ []).


(** What the outside does to the engine: the operations that [App.tsx] and
    the tests call on the registry and on the controller, and the firing of
    an active interval. *)
Inductive Op :=
| CreateNormalOrder
| CreateVipOrder
| Subscribe (k : nat)
| Increase (params : option BotType)
| Decrease
| Tick (h : nat).

(** An interval that was cleared never fires. *)
Definition tick (h : nat) (w : World) : World :=
  match timers w !! h with
  | Some (b, o) => Bot.interval_callback b o w
  | None => w
  end.

Definition step (op : Op) (w : World) : World :=
  match op with
  | CreateNormalOrder => (OrderManager.createNormalOrder w).2
  | CreateVipOrder => (OrderManager.createVipOrder w).2
  | Subscribe k => OrderManager.subscribe (Observer k) w
  | Increase params => (Controller.increase params w).2
  | Decrease => Controller.decrease w
  | Tick h => tick h w
  end.

Definition run (ops : list Op) (w : World) : World :=
  foldl (λ w op, step op w) w ops.

Definition reachable (w : World) : Prop := ∃ ops, w = run ops init.

(** ** Notions used in the statements and proofs *)

(** The entries [publish e] leaves when no subscriber reacts: one [Publish]
    and one [Invoke] per subscriber, in registration order, all seeing the
    same registry. *)
Definition invocations (e : EventType) (seen : list oref) (i n : nat)
    : list Call :=
  (λ j, Invoke j e seen) <$> seq i n.

Definition quiet_publish (e : EventType) (w : World) : World :=
  set_trace
    (trace w ++ Publish e ::
       invocations e (getOrderList w) 0 (length (messageQueue w))) w.

(** The three pending queues, in priority order. *)
Definition pending (w : World) : list oref :=
  queueCache w ++ queueVipOrder w ++ queueNormalOrder w.

Definition set_pending (c v n : list oref) (w : World) : World :=
  set_queueCache c (set_queueVipOrder v (set_queueNormalOrder n w)).

(** The [shift() || shift() || shift()] of OrderManager.processNextOrder. *)
Definition shifted (w : World) : option (oref * World) :=
  match queueCache w with
  | x :: rest => Some (x, set_queueCache rest w)
  | [] =>
    match queueVipOrder w with
    | x :: rest => Some (x, set_queueVipOrder rest w)
    | [] =>
      match queueNormalOrder w with
      | x :: rest => Some (x, set_queueNormalOrder rest w)
      | [] => None
      end
    end
  end.

(** The processing time a bot of the given type puts on the counter. *)
Definition duration (t : BotType) : Z := if decide (t = VIP) then 5 else 10.

(** The state in which Bot.processNextOrder leaves bot [b] when
    OrderManager.processNextOrder handed it [x] and left the registry [w']. *)
Definition picked_up (b : bref) (x : oref) (w' : World) : World :=
  let w1 := quiet_publish ORDER_UPDATED w' in
  let w2 := Bot_updateOrder b x w1 in
  let w3 := assign_order x (with_counter (duration (typeOf w' b))) w2 in
  let w4 := quiet_publish ORDER_COUNTER w3 in
  let h := nextHandle w' in
  assign_bot b (with_counterHandle (Some h))
    (set_nextHandle (S h) (set_timers (<[h := (b, x)]> (timers w')) w4)).

(** The events [publish] was entered with, oldest first. *)
Definition published (t : list Call) : list EventType :=
  omap (λ c, match c with Publish e => Some e | _ => None end) t.




(** The state in which the countdown leaves bot [b] and its order [x] when
    the counter has reached 0, just before the bot's next pickup attempt. *)
Definition completed (b : bref) (x : oref) (h : nat) (w : World) : World :=
  assign_bot b (with_currentOrder None)
    (quiet_publish ORDER_UPDATED
       (set_queueComplete (queueComplete w ++ [x])
          (assign_order x (with_status COMPLETE)
             (clearInterval h
                (quiet_publish ORDER_COUNTER
                   (assign_order x (λ o, with_counter (counter o - 1)%Z o) w)))))).

(** Bot [b] has [o] in its [currentOrder]. *)
Definition holds (w : World) (b : bref) (o : oref) : Prop :=
  bots w !! b ≫= currentOrder = Some o.

(** [Q] is the list of bots that may own an interval: Controller.queue
    between two operations, and one bot more while that bot is being
    constructed or destroyed. *)
Record Inv (Q : list bref) (w : World) : Prop := mkInv {
  inv_nodup : NoDup (getOrderList w);
  inv_listed_valid : ∀ o, o ∈ getOrderList w → o < length (orders w);
  inv_held_valid : ∀ b o, holds w b o → o < length (orders w);
  inv_held_unlisted : ∀ b o, holds w b o → o ∉ getOrderList w;
  inv_held_once : ∀ b1 b2 o, holds w b1 o → holds w b2 o → b1 = b2;
  inv_idle : ∀ b bot,
    bots w !! b = Some bot → bstatus bot = IDLE → currentOrder bot = None;
  inv_queue_valid : ∀ b, b ∈ Q → b < length (bots w);
  inv_queue_nodup : NoDup Q;
  inv_timers : ∀ h b o,
    timers w !! h = Some (b, o) →
    h < nextHandle w ∧ b ∈ Q ∧
    ∃ bot, bots w !! b = Some bot ∧ bstatus bot = RUN ∧
           currentOrder bot = Some o ∧ counterHandle bot = Some h;
}.

(** Bot [b] owns no active interval. *)
Definition no_timer (w : World) (b : bref) : Prop :=
  ∀ h o, timers w !! h ≠ Some (b, o).

(** [clearInterval(this.counterHandle)], guarded or not: the same in
    Bot.destroy and at the end of the countdown. *)
Definition clear_handle (b : bref) (w : World) : World :=
  match bots w !! b ≫= counterHandle with
  | Some h => clearInterval h w
  | None => w
  end.

(** The bots on which Bot.processNextOrder was entered, oldest first. *)
Definition pickups (t : list Call) : list bref :=
  omap (λ c, match c with Pickup b => Some b | _ => None end) t.

(** The operations that neither create an order nor add a bot. *)
Definition is_passive (op : Op) : bool :=
  match op with
  | Subscribe _ | Decrease | Tick _ => true
  | _ => false
  end.

(** A recovered order has reached the Controller's bots when all of them are
    idle: the state in which nothing moves. *)
Record Waiting (c : list oref) (p : list bref) (w : World) : Prop := mkWaiting {
  waiting_inv : Inv (queue w) w;
  waiting_idle : ∀ b, b ∈ queue w → isIdle w b = true;
  waiting_cache : queueCache w = c;
  waiting_pickups : pickups (trace w) = p;
}.

(** [publish(ORDER_ADDED)] when the Controller subscribed first: its
    subscriber runs on the state the publisher left, the observers after it
    see the state the Controller's bots left. *)
Definition after_controller (w : World) : World :=
  controller_callback publish ORDER_ADDED
    (log (Invoke 0 ORDER_ADDED (getOrderList w)) (log (Publish ORDER_ADDED) w)).

(** The calls of subscribers with an event of type [e]: registration index
    and the registry the subscriber could see, oldest first. *)
Definition invoked (e : EventType) (t : list Call) : list (nat * list oref) :=
  omap (λ c, match c with
             | Invoke i e' seen => if decide (e' = e) then Some (i, seen) else None
             | _ => None
             end) t.

(** The state in which [new Bot] runs its first processNextOrder. *)
Definition with_new_bot (type : BotType) (w : World) : World :=
  set_bots (bots w ++ [mkBot IDLE (botUid w) type None None None])
    (set_botUid (S (botUid w)) w).

(** [bot.uid] of the object Controller.increase returned. *)
Definition buid_of (r : bref * World) : list nat :=
  match bots r.2 !! r.1 with Some b => [buid b] | None => [] end.

(** The uids of the bots created along a run, in creation order. *)
Fixpoint created_bot_uids (ops : list Op) (w : World) : list nat :=
  match ops with
  | [] => []
  | op :: ops' =>
    match op with
    | Increase params => buid_of (Controller.increase params w)
    | _ => []
    end ++ created_bot_uids ops' (step op w)
  end.

Definition is_increase (op : Op) : bool :=
  match op with Increase _ => true | _ => false end.

(** What holds of the orders in every reachable state, beside [Inv]. *)
Record Ledger (w : World) : Prop := mkLedger {
  led_kept : ∀ a, a < length (orders w) →
    a ∈ getOrderList w ∨ ∃ b, holds w b a;
  led_status : ∀ a o, orders w !! a = Some o →
    (status o = COMPLETE ↔ a ∈ queueComplete w);
  led_vip : ∀ a o, a ∈ queueVipOrder w → orders w !! a = Some o →
    orderType o = VIP ∧ counter o = 0%Z;
  led_normal : ∀ a o, a ∈ queueNormalOrder w → orders w !! a = Some o →
    orderType o = NORMAL ∧ counter o = 0%Z;
  led_done : ∀ a o, a ∈ queueComplete w → orders w !! a = Some o →
    counter o = 0%Z;
  led_counter : ∀ a o, orders w !! a = Some o → (0 ≤ counter o ≤ 10)%Z;
  led_running : ∀ h b x o, timers w !! h = Some (b, x) →
    orders w !! x = Some o → (1 ≤ counter o)%Z;
  led_fifo_vip : StronglySorted lt (queueVipOrder w);
  led_fifo_normal : StronglySorted lt (queueNormalOrder w);
  led_uid : ∀ a o, orders w !! a = Some o → uid o = a;
  led_next_uid : orderUid w = length (orders w);
}.

(** The state in which createNormalOrder and createVipOrder publish
    ORDER_ADDED: the new order allocated and pushed. *)
Definition pushed (t : OrderType) (w : World) : World :=
  let w1 := set_orders (orders w ++ [mkOrder PENDING (orderUid w) t 0])
              (set_orderUid (S (orderUid w)) w) in
  match t with
  | NORMAL => set_queueNormalOrder (queueNormalOrder w ++ [length (orders w)]) w1
  | VIP => set_queueVipOrder (queueVipOrder w ++ [length (orders w)]) w1
  end.

(** Bot [b] exists, is not managed by the Controller and owns no interval. *)
Definition retired (b : bref) (w : World) : Prop :=
  b < length (bots w) ∧ (b ∉ queue w) ∧ no_timer w b.

(** The entries of Bot.processNextOrder on bot [b] in the trace. *)
Definition picks_of (b : bref) (w : World) : list bref :=
  filter (λ b', b' = b) (pickups (trace w)).

(** Every bot that is RUN holds an order and owns the active interval whose
    handle it stores, and no two bots store the same handle.  [X] is the one
    bot that may be between two such states: the bot whose countdown has
    just ended, or the bot being destroyed. *)
Record Running (X : option bref) (w : World) : Prop := mkRunning {
  run_active : ∀ b bot,
    bots w !! b = Some bot → X ≠ Some b → bstatus bot = RUN →
    ∃ x h, currentOrder bot = Some x ∧ counterHandle bot = Some h
           ∧ timers w !! h = Some (b, x);
  run_handle_once : ∀ b1 b2 bot1 bot2 h,
    bots w !! b1 = Some bot1 → bots w !! b2 = Some bot2 →
    counterHandle bot1 = Some h → counterHandle bot2 = Some h → b1 = b2;
  run_handle_lt : ∀ b bot h,
    bots w !! b = Some bot → counterHandle bot = Some h → h < nextHandle w;
}.

(** While a bot of Controller.queue is idle, queueVipOrder and
    queueNormalOrder are empty. *)
Definition Busy (w : World) : Prop :=
  ∀ b, b ∈ queue w → isIdle w b = true →
       queueVipOrder w = [] ∧ queueNormalOrder w = [].

(** ** Basic facts: traces, forEach, publish *)

Lemma forEach_app {A} (f : nat → A → World → World) i l1 l2 w :
  forEach f i (l1 ++ l2) w = forEach f (i + length l1) l2 (forEach f i l1 w).
Proof.
  revert i w; induction l1 as [|x l1 IH]; intros i w; simpl.
  - by rewrite Nat.add_0_r.
  - rewrite IH. f_equal. lia.
Qed.

Lemma forEach_ext {A} (f g : nat → A → World → World) i l w :
  (∀ j x w', f j x w' = g j x w') → forEach f i l w = forEach g i l w.
Proof.
  intros Hfg; revert i w; induction l as [|x l IH]; intros i w; simpl; [done|].
  by rewrite Hfg, IH.
Qed.

(** A property kept by every call of the body is kept by the loop. *)
Lemma forEach_preserves {A} (P : World → Prop) (f : nat → A → World → World)
    i l w :
  (∀ j x w', P w' → P (f j x w')) → P w → P (forEach f i l w).
Proof.
  intros Hf; revert i w; induction l as [|x l IH]; intros i w Hw; simpl; auto.
Qed.

Lemma invoke_quiet p e i s t w :
  e ≠ ORDER_ADDED →
  invoke p e i s (set_trace t w)
  = set_trace (t ++ [Invoke i e (getOrderList w)]) w.
Proof.
  intros He. unfold invoke, controller_callback.
  rewrite bool_decide_eq_false_2 by done. simpl.
  by destruct s.
Qed.

Lemma forEach_invoke_quiet p e l i t w :
  e ≠ ORDER_ADDED →
  forEach (invoke p e) i l (set_trace t w)
  = set_trace (t ++ invocations e (getOrderList w) i (length l)) w.
Proof.
  intros He. revert i t. induction l as [|s l IH]; intros i t; simpl.
  - unfold invocations; simpl. by rewrite app_nil_r.
  - rewrite invoke_quiet by done. rewrite IH.
    unfold invocations; simpl. by rewrite <- app_assoc.
Qed.

Lemma publish_body_quiet p e w :
  e ≠ ORDER_ADDED → publish_body p e w = quiet_publish e w.
Proof.
  intros He. unfold publish_body, log, quiet_publish.
  rewrite forEach_invoke_quiet by done.
  by rewrite <- app_assoc.
Qed.

(** ORDER_UPDATED and ORDER_COUNTER reach every subscriber and change
    nothing but the trace. *)
Lemma publish_quiet e w :
  e ≠ ORDER_ADDED → publish e w = quiet_publish e w.
Proof. intros He. unfold publish; simpl. by apply publish_body_quiet. Qed.

Lemma Bot_processNextOrder_ext p1 p2 b w :
  (∀ e w', e ≠ ORDER_ADDED → p1 e w' = p2 e w') →
  Bot_processNextOrder p1 b w = Bot_processNextOrder p2 b w.
Proof.
  intros Hp. unfold Bot_processNextOrder.
  assert (Hom : ∀ w', OrderManager_processNextOrder p1 w'
                      = OrderManager_processNextOrder p2 w').
  { intros w'. unfold OrderManager_processNextOrder.
    destruct (queueCache w'), (queueVipOrder w'), (queueNormalOrder w');
      by rewrite ?(Hp ORDER_UPDATED). }
  rewrite Hom. destruct (OrderManager_processNextOrder p2 _) as [[o|] w1];
    [|done].
  by rewrite (Hp ORDER_COUNTER).
Qed.

Lemma publish_body_ext p1 p2 e w :
  (∀ e' w', e' ≠ ORDER_ADDED → p1 e' w' = p2 e' w') →
  publish_body p1 e w = publish_body p2 e w.
Proof.
  intros Hp. unfold publish_body. apply forEach_ext. intros j s w'.
  unfold invoke, controller_callback. destruct s; [|done].
  case_match; [|done]. apply forEach_ext. intros ? b w''.
  case_match; [|done]. by apply Bot_processNextOrder_ext.
Qed.

(** [publish] satisfies the recursive equation of OrderManager.publish:
    the subscribers it calls publish through [publish] itself. *)
Lemma publish_unfold e w : publish e w = publish_body publish e w.
Proof.
  unfold publish at 1; simpl. apply publish_body_ext.
  intros e' w' He'. by rewrite publish_quiet, publish_body_quiet.
Qed.

(** ** What the methods do, with the quiet publishes written out *)

Lemma getOrderList_pending w : getOrderList w = pending w ++ queueComplete w.
Proof. unfold getOrderList, pending. by rewrite <- !app_assoc. Qed.

Lemma shifted_Some w x w' :
  shifted w = Some (x, w') →
  ∃ c v n, w' = set_pending c v n w ∧ pending w = x :: (c ++ v ++ n).
Proof.
  unfold shifted, pending. destruct w as [? ? ? ? c v n ? ? ? ? ? ?]; simpl.
  destruct c as [|y c]; [destruct v as [|y v]; [destruct n as [|y n]|]|];
    intros; simplify_eq.
  - by exists [], [], n.
  - by exists [], v, n.
  - by exists c, v, n.
Qed.

Lemma shifted_None w : shifted w = None ↔ pending w = [].
Proof.
  unfold shifted, pending.
  destruct (queueCache w), (queueVipOrder w), (queueNormalOrder w);
    simpl; split; intros; simplify_eq; done.
Qed.

Lemma OrderManager_processNextOrder_shifted w :
  OrderManager.processNextOrder w =
  match shifted w with
  | Some (x, w') => (Some x, quiet_publish ORDER_UPDATED w')
  | None => (None, w)
  end.
Proof.
  unfold OrderManager.processNextOrder, OrderManager_processNextOrder, shifted.
  destruct (queueCache w), (queueVipOrder w), (queueNormalOrder w);
    by rewrite ?publish_quiet.
Qed.

Lemma typeOf_alter_status w b b' s :
  typeOf (assign_bot b' (with_bstatus s) w) b = typeOf w b.
Proof.
  unfold typeOf, assign_bot; simpl.
  destruct (decide (b = b')) as [->|Hne].
  - rewrite list_lookup_alter_eq. by destruct (bots w !! b').
  - by rewrite list_lookup_alter_ne.
Qed.

Lemma typeOf_alter_currentOrder w b b' c :
  typeOf (assign_bot b' (with_currentOrder c) w) b = typeOf w b.
Proof.
  unfold typeOf, assign_bot; simpl.
  destruct (decide (b = b')) as [->|Hne].
  - rewrite list_lookup_alter_eq. by destruct (bots w !! b').
  - by rewrite list_lookup_alter_ne.
Qed.

Lemma shifted_set_trace t w :
  shifted (set_trace t w)
  = (λ xw : oref * World, (xw.1, set_trace t xw.2)) <$> shifted w.
Proof.
  unfold shifted; simpl.
  by destruct (queueCache w), (queueVipOrder w), (queueNormalOrder w).
Qed.

Lemma Bot_processNextOrder_shifted b w :
  Bot.processNextOrder b w =
  match shifted w with
  | Some (x, w') => picked_up b x (log (Pickup b) w')
  | None => assign_bot b (with_bstatus IDLE) (log (Pickup b) w)
  end.
Proof.
  unfold Bot.processNextOrder, Bot_processNextOrder.
  fold OrderManager.processNextOrder.
  rewrite OrderManager_processNextOrder_shifted.
  unfold log at 1. rewrite shifted_set_trace.
  destruct (shifted w) as [[x w']|] eqn:Hs; simpl; [|done].
  destruct (shifted_Some _ _ _ Hs) as (c & v & n & -> & _).
  rewrite publish_quiet by done.
  unfold picked_up, setInterval, Bot_updateOrder.
  by rewrite typeOf_alter_currentOrder, typeOf_alter_status.
Qed.

(** Fields that a pickup attempt never touches. *)
Lemma Bot_processNextOrder_frame b w :
  let w' := Bot.processNextOrder b w in
  queue w' = queue w ∧ messageQueue w' = messageQueue w ∧
  orderUid w' = orderUid w ∧ botUid w' = botUid w ∧
  queueComplete w' = queueComplete w ∧
  length (orders w') = length (orders w) ∧
  length (bots w') = length (bots w) ∧
  (∀ a, uid <$> orders w' !! a = uid <$> orders w !! a).
Proof.
  simpl. rewrite Bot_processNextOrder_shifted.
  destruct (shifted w) as [[x w']|] eqn:Hs.
  - destruct (shifted_Some _ _ _ Hs) as (c & v & n & -> & _).
    unfold picked_up, Bot_updateOrder; simpl.
    rewrite !length_alter. repeat split; try done.
    intros a. destruct (decide (a = x)) as [->|Hne].
    + rewrite list_lookup_alter_eq. by destruct (orders w !! x).
    + by rewrite list_lookup_alter_ne.
  - simpl. by rewrite length_alter.
Qed.

(** Whatever every pickup attempt of an idle managed bot keeps, and the
    trace does not matter to, is kept by [publish]. *)
Lemma publish_preserves (P : World → Prop) e w :
  (∀ t w', P w' → P (set_trace t w')) →
  (∀ b w', P w' → b ∈ queue w' → isIdle w' b = true →
           P (Bot.processNextOrder b w')) →
  P w → P (publish e w).
Proof.
  intros Htr Hpick Hw. rewrite publish_unfold. unfold publish_body.
  apply forEach_preserves; [|by apply Htr].
  intros j s w1 Hw1. unfold invoke.
  assert (P (log (Invoke j e (getOrderList w1)) w1)) as Hl by by apply Htr.
  destruct s; [|done]. unfold controller_callback.
  case_match; [|done].
  set (w2 := log _ w1) in *.
  enough (∀ l i w3, P w3 → queue w3 = queue w2 → l ⊆ queue w2 →
    P (forEach (λ _ b w, if isIdle w b then Bot_processNextOrder publish b w
                         else w) i l w3)) as Hloop by by apply Hloop.
  induction l as [|b l IH]; intros i w3 Hw3 Hq Hsub; simpl; [done|].
  assert (b ∈ queue w3) by (rewrite Hq; set_solver).
  apply IH; [| |set_solver].
  - destruct (isIdle w3 b) eqn:Hi; [|done]. by apply Hpick.
  - destruct (isIdle w3 b); [|done].
    fold Bot.processNextOrder. by rewrite (proj1 (Bot_processNextOrder_frame b w3)).
Qed.

(** ** C1, C3: dequeue priority and recovery *)

Lemma published_app t1 t2 : published (t1 ++ t2) = published t1 ++ published t2.
Proof. apply omap_app. Qed.

Lemma published_invocations e seen i n : published (invocations e seen i n) = [].
Proof.
  unfold invocations, published. revert i.
  induction n as [|n IH]; intros i; simpl; [done|]. apply IH.
Qed.

Lemma published_quiet_entries t e seen i n :
  published (t ++ Publish e :: invocations e seen i n) = published t ++ [e].
Proof. rewrite published_app. simpl. by rewrite published_invocations. Qed.

Lemma published_quiet e w :
  published (trace (quiet_publish e w)) = published (trace w) ++ [e].
Proof. apply published_quiet_entries. Qed.

(** C1. OrderManager.processNextOrder returns the head of queueCache when
    that queue is not empty, else the head of queueVipOrder when that one is
    not empty, else the head of queueNormalOrder, else null.  The order it
    returns is popped: it is removed from the head of the queue it came
    from, the other queues are left as they were, and nothing else of the
    registry, no order and no bot changes.  It publishes one ORDER_UPDATED
    when it returns an order and nothing when it returns null. *)
Theorem processNextOrder_priority (w : World) :
  let r := (OrderManager.processNextOrder w).1 in
  let w' := (OrderManager.processNextOrder w).2 in
  r = match head (queueCache w) with
      | Some x => Some x
      | None =>
        match head (queueVipOrder w) with
        | Some x => Some x
        | None => head (queueNormalOrder w)
        end
      end
  ∧ queueCache w' = tail (queueCache w)
  ∧ queueVipOrder w'
    = match queueCache w with
      | [] => tail (queueVipOrder w)
      | _ :: _ => queueVipOrder w
      end
  ∧ queueNormalOrder w'
    = match queueCache w, queueVipOrder w with
      | [], [] => tail (queueNormalOrder w)
      | _, _ => queueNormalOrder w
      end
  ∧ pending w = (if r is Some x then [x] else []) ++ pending w'
  ∧ queueComplete w' = queueComplete w
  ∧ orders w' = orders w ∧ bots w' = bots w ∧ timers w' = timers w
  ∧ published (trace w')
    = published (trace w) ++ (if r is Some _ then [ORDER_UPDATED] else []).
Proof.
  simpl. rewrite OrderManager_processNextOrder_shifted. unfold shifted, pending.
  destruct (queueCache w) as [|c cs] eqn:Hc;
    destruct (queueVipOrder w) as [|v vs] eqn:Hv;
    destruct (queueNormalOrder w) as [|n ns] eqn:Hn; simpl;
    rewrite ?Hc, ?Hv, ?Hn, ?published_quiet_entries, ?app_nil_r; done.
Qed.

(** C3. OrderManager.updateCache puts the order at the head of queueCache and
    leaves the other queues alone, so the processNextOrder that follows
    returns this order, whatever was queued or recovered before, and hands
    the queues back as they were before the recovery. *)
Theorem updateCache_then_processNextOrder (w : World) (x : oref) :
  let w1 := OrderManager.updateCache x w in
  let r := OrderManager.processNextOrder w1 in
  queueCache w1 = x :: queueCache w
  ∧ queueVipOrder w1 = queueVipOrder w
  ∧ queueNormalOrder w1 = queueNormalOrder w
  ∧ r.1 = Some x
  ∧ queueCache r.2 = queueCache w
  ∧ queueVipOrder r.2 = queueVipOrder w
  ∧ queueNormalOrder r.2 = queueNormalOrder w
  ∧ published (trace w1) = published (trace w) ++ [ORDER_UPDATED].
Proof.
  simpl. unfold OrderManager.updateCache.
  rewrite publish_quiet by done.
  rewrite OrderManager_processNextOrder_shifted.
  unfold shifted; simpl. by rewrite published_quiet_entries.
Qed.

(** ** C8: uids of created orders *)







(** ** C6: pickup and countdown *)

Lemma picked_up_bot b x w' bot :
  bots w' !! b = Some bot →
  bots (picked_up b x w') !! b
  = Some (mkBot RUN (buid bot) (btype bot) (Some x) (Some (nextHandle w'))
                (isDestroyed bot)).
Proof.
  intros Hb. unfold picked_up, Bot_updateOrder; simpl.
  rewrite !list_lookup_alter_eq, Hb. done.
Qed.

Lemma picked_up_other b b' x w' :
  b ≠ b' → bots (picked_up b x w') !! b' = bots w' !! b'.
Proof.
  intros Hne. unfold picked_up, Bot_updateOrder; simpl.
  by rewrite !list_lookup_alter_ne.
Qed.

Lemma picked_up_orders b x w :
  orders (picked_up b x w)
  = alter (with_counter (duration (typeOf w b))) x (orders w).
Proof. reflexivity. Qed.

Lemma picked_up_timers b x w :
  timers (picked_up b x w) = <[nextHandle w := (b, x)]> (timers w).
Proof. reflexivity. Qed.

Lemma picked_up_trace b x w :
  trace (picked_up b x w)
  = (trace w ++ Publish ORDER_UPDATED ::
       invocations ORDER_UPDATED (getOrderList w) 0 (length (messageQueue w)))
    ++ Publish ORDER_COUNTER ::
       invocations ORDER_COUNTER (getOrderList w) 0 (length (messageQueue w)).
Proof. reflexivity. Qed.

Lemma pickup_effect w b x w' bot :
  shifted w = Some (x, w') → bots w !! b = Some bot →
  x < length (orders w) →
  let w1 := Bot.processNextOrder b w in
  counter <$> orders w1 !! x = Some (if decide (btype bot = VIP) then 5 else 10)%Z
  ∧ published (trace w1) = published (trace w) ++ [ORDER_UPDATED; ORDER_COUNTER]
  ∧ timers w1 = <[nextHandle w := (b, x)]> (timers w)
  ∧ bots w1 !! b
    = Some (mkBot RUN (buid bot) (btype bot) (Some x) (Some (nextHandle w))
                  (isDestroyed bot)).
Proof.
  intros Hs Hb Hx. cbv zeta.
  rewrite Bot_processNextOrder_shifted, Hs.
  destruct (shifted_Some _ _ _ Hs) as (c & v & n & -> & _).
  assert (Hb' : bots (log (Pickup b) (set_pending c v n w)) !! b = Some bot)
    by exact Hb.
  split; [|split; [|split]].
  - rewrite picked_up_orders, list_lookup_alter_eq.
    change (orders (log (Pickup b) (set_pending c v n w))) with (orders w).
    destruct (lookup_lt_is_Some_2 (orders w) x Hx) as [o ->].
    unfold typeOf. rewrite Hb'. reflexivity.
  - rewrite picked_up_trace, !published_quiet_entries.
    change (trace (log (Pickup b) (set_pending c v n w)))
      with (trace w ++ [Pickup b]).
    rewrite published_app. cbn [published omap].
    by rewrite app_nil_r, <- app_assoc.
  - by rewrite picked_up_timers.
  - by rewrite (picked_up_bot b x _ bot Hb').
Qed.

Lemma interval_callback_running b x w o :
  orders w !! x = Some o → (counter o - 1 ≠ 0)%Z →
  Bot.interval_callback b x w
  = quiet_publish ORDER_COUNTER
      (assign_order x (λ o, with_counter (counter o - 1)%Z o) w).
Proof.
  intros Ho Hnz. unfold Bot.interval_callback.
  rewrite publish_quiet by done.
  rewrite bool_decide_eq_false_2; [done|].
  unfold quiet_publish, assign_order, set_trace, set_orders; cbn [orders].
  rewrite list_lookup_alter_eq, Ho. cbn. intros [=]. done.
Qed.

Lemma interval_callback_done b x h w bot o :
  bots w !! b = Some bot → currentOrder bot = Some x →
  counterHandle bot = Some h →
  orders w !! x = Some o → (counter o - 1 = 0)%Z →
  Bot.interval_callback b x w = Bot.processNextOrder b (completed b x h w).
Proof.
  intros Hb Hc Hh Ho Hz. unfold Bot.interval_callback.
  rewrite publish_quiet by done.
  set (w1 := quiet_publish _ _).
  assert (Hb1 : bots w1 = bots w) by reflexivity.
  rewrite bool_decide_eq_true_2.
  2:{ unfold w1, quiet_publish, assign_order, set_trace, set_orders;
        cbn [orders].
      rewrite list_lookup_alter_eq, Ho. cbn. by rewrite Hz. }
  rewrite Hb1, Hb. cbn [mbind option_bind]. rewrite Hh.
  unfold Bot.completeOrder.
  assert (Hb2 : bots (clearInterval h w1) = bots w) by reflexivity.
  rewrite Hb2, Hb. cbn [mbind option_bind]. rewrite Hc.
  unfold OrderManager.completeOrder. rewrite publish_quiet by done.
  reflexivity.
Qed.

Lemma tick_effect w h b x bot o :
  timers w !! h = Some (b, x) → bots w !! b = Some bot →
  currentOrder bot = Some x → counterHandle bot = Some h →
  orders w !! x = Some o →
  let w1 := tick h w in
  if decide (counter o - 1 = 0)%Z then
    ∃ w2, w1 = Bot.processNextOrder b w2
      ∧ timers w2 = delete h (timers w)
      ∧ orders w2 !! x = Some (mkOrder COMPLETE (uid o) (orderType o) 0)
      ∧ queueComplete w2 = queueComplete w ++ [x]
      ∧ pending w2 = pending w
      ∧ bots w2 !! b = Some (with_currentOrder None bot)
      ∧ published (trace w2)
        = published (trace w) ++ [ORDER_COUNTER; ORDER_UPDATED]
  else
    orders w1 !! x = Some (with_counter (counter o - 1) o)
    ∧ published (trace w1) = published (trace w) ++ [ORDER_COUNTER]
    ∧ timers w1 = timers w ∧ bots w1 = bots w
    ∧ getOrderList w1 = getOrderList w.
Proof.
  intros Ht Hb Hc Hh Ho. cbv zeta. unfold tick. rewrite Ht.
  destruct (decide (counter o - 1 = 0)%Z) as [Hz|Hnz].
  - exists (completed b x h w).
    split; [by eapply interval_callback_done|].
    split; [reflexivity|].
    split.
    { unfold completed. cbn [orders assign_bot set_bots quiet_publish
        set_trace set_queueComplete assign_order set_orders clearInterval
        set_timers].
      rewrite !list_lookup_alter_eq, Ho. cbn. by rewrite Hz. }
    split; [reflexivity|]. split; [reflexivity|].
    split.
    { unfold completed. cbn [bots assign_bot set_bots].
      rewrite list_lookup_alter_eq.
      cbn [bots quiet_publish set_trace set_queueComplete assign_order
           set_orders clearInterval set_timers].
      by rewrite Hb. }
    unfold completed. cbn [trace assign_bot set_bots quiet_publish set_trace].
    rewrite published_quiet_entries.
    cbn [trace set_queueComplete assign_order set_orders clearInterval
         set_timers set_trace quiet_publish].
    rewrite published_quiet_entries. by rewrite <- app_assoc.
  - rewrite (interval_callback_running b x w o Ho Hnz).
    split.
    { cbn [orders quiet_publish set_trace assign_order set_orders].
      by rewrite list_lookup_alter_eq, Ho. }
    split; [by rewrite published_quiet|]. done.
Qed.

(** C6. Pickup: when OrderManager.processNextOrder hands bot [b] the order
    [x], the bot sets the order's counter to 5 if its type is VIP and to 10
    if it is NORMAL, publishes ORDER_COUNTER (after the ORDER_UPDATED of the
    dequeue), starts an interval and is RUN holding [x].
    Tick: when the interval of a bot holding [x] fires, the counter of [x]
    goes down by 1 and ORDER_COUNTER is published; if the counter is then not
    0 nothing else changes; if it is 0 the interval is cleared, the order is
    COMPLETE and appended to queueComplete (ORDER_UPDATED published), the bot
    holds nothing, and what follows is exactly the bot's next
    processNextOrder. *)
Theorem pickup_and_countdown :
  (∀ w b x w' bot,
     shifted w = Some (x, w') → bots w !! b = Some bot →
     x < length (orders w) →
     let w1 := Bot.processNextOrder b w in
     counter <$> orders w1 !! x = Some (if decide (btype bot = VIP) then 5 else 10)%Z
     ∧ published (trace w1) = published (trace w) ++ [ORDER_UPDATED; ORDER_COUNTER]
     ∧ timers w1 = <[nextHandle w := (b, x)]> (timers w)
     ∧ bots w1 !! b
       = Some (mkBot RUN (buid bot) (btype bot) (Some x) (Some (nextHandle w))
                     (isDestroyed bot)))
  ∧ (∀ w h b x bot o,
     timers w !! h = Some (b, x) → bots w !! b = Some bot →
     currentOrder bot = Some x → counterHandle bot = Some h →
     orders w !! x = Some o →
     let w1 := tick h w in
     if decide (counter o - 1 = 0)%Z then
       ∃ w2, w1 = Bot.processNextOrder b w2
         ∧ timers w2 = delete h (timers w)
         ∧ orders w2 !! x = Some (mkOrder COMPLETE (uid o) (orderType o) 0)
         ∧ queueComplete w2 = queueComplete w ++ [x]
         ∧ pending w2 = pending w
         ∧ bots w2 !! b = Some (with_currentOrder None bot)
         ∧ published (trace w2)
           = published (trace w) ++ [ORDER_COUNTER; ORDER_UPDATED]
     else
       orders w1 !! x = Some (with_counter (counter o - 1) o)
       ∧ published (trace w1) = published (trace w) ++ [ORDER_COUNTER]
       ∧ timers w1 = timers w ∧ bots w1 = bots w
       ∧ getOrderList w1 = getOrderList w).
Proof.
  split.
  - exact pickup_effect.
  - exact tick_effect.
Qed.

Lemma pickup_and_countdown_witness :
  let w := set_bots [mkBot IDLE 0 VIP None None None] (step CreateVipOrder init) in
  let bot := mkBot RUN 0 VIP (Some 0) (Some 1) None in
  let wt := run [CreateVipOrder; Increase (Some VIP);
                 Tick 1; Tick 1; Tick 1; Tick 1] init in
  (shifted w = Some (0, set_queueVipOrder [] w)
   ∧ bots w !! 0 = Some (mkBot IDLE 0 VIP None None None)
   ∧ 0 < length (orders w))
  ∧ (counter <$> orders (Bot.processNextOrder 0 w) !! 0 = Some 5%Z
     ∧ timers (Bot.processNextOrder 0 w) = <[nextHandle w := (0, 0)]> (timers w))
  ∧ (timers wt !! 1 = Some (0, 0) ∧ bots wt !! 0 = Some bot
     ∧ orders wt !! 0 = Some (mkOrder PENDING 0 VIP 1))
  ∧ ∃ w2, tick 1 wt = Bot.processNextOrder 0 w2
      ∧ orders w2 !! 0 = Some (mkOrder COMPLETE 0 VIP 0)
      ∧ queueComplete w2 = queueComplete wt ++ [0]
      ∧ timers w2 = delete 1 (timers wt).
Proof.
  intros w bot wt.
  assert (Hp : shifted w = Some (0, set_queueVipOrder [] w)
               ∧ bots w !! 0 = Some (mkBot IDLE 0 VIP None None None)
               ∧ 0 < length (orders w)).
  { split; [|split]; [vm_compute; reflexivity|reflexivity|]. vm_compute. lia. }
  assert (Ht : timers wt !! 1 = Some (0, 0) ∧ bots wt !! 0 = Some bot
               ∧ orders wt !! 0 = Some (mkOrder PENDING 0 VIP 1)).
  { split; [|split]; vm_compute; reflexivity. }
  split; [exact Hp|]. split.
  - destruct Hp as (H1 & H2 & H3).
    destruct (proj1 pickup_and_countdown w 0 0 _ _ H1 H2 H3) as (Hc & _ & Htm & _).
    split; [exact Hc|exact Htm].
  - split; [exact Ht|]. destruct Ht as (H1 & H2 & H3).
    destruct (proj2 pickup_and_countdown wt 1 0 0 bot _ H1 H2 eq_refl eq_refl H3)
      as (w2 & E & Htm & Ho & Hq & _).
    exists w2. split; [exact E|]. split; [exact Ho|]. split; [exact Hq|exact Htm].
Defined.

(** ** The ownership invariant *)

Lemma Inv_set_trace Q t w : Inv Q w → Inv Q (set_trace t w).
Proof. by intros []. Qed.

Lemma holds_assign_ne w b b' f o :
  b' ≠ b → holds (assign_bot b f w) b' o ↔ holds w b' o.
Proof.
  intros Hne. unfold holds, assign_bot; simpl.
  by rewrite list_lookup_alter_ne.
Qed.

Lemma holds_picked_up b x w b' o :
  holds (picked_up b x w) b' o ↔
  (b' = b ∧ b < length (bots w) ∧ o = x) ∨ (b' ≠ b ∧ holds w b' o).
Proof.
  unfold holds. destruct (decide (b' = b)) as [->|Hne].
  - destruct (bots w !! b) as [bot|] eqn:Hb.
    + rewrite (picked_up_bot b x w bot Hb). simpl.
      apply lookup_lt_Some in Hb. naive_solver.
    + unfold picked_up, Bot_updateOrder; simpl.
      rewrite !list_lookup_alter_eq, Hb. simpl.
      apply lookup_ge_None in Hb. split; [done|]. intros [(_ & ? & _)|[? _]]; [lia|done].
  - rewrite picked_up_other by done. naive_solver.
Qed.

Lemma getOrderList_shifted w x c v n :
  pending w = x :: c ++ v ++ n →
  getOrderList w = x :: getOrderList (set_pending c v n w).
Proof.
  intros Hp. rewrite !getOrderList_pending, Hp.
  unfold pending; simpl. by rewrite <- !app_assoc.
Qed.

(** A pickup attempt of a bot that holds nothing and owns no interval keeps
    the invariant. *)
Lemma Bot_processNextOrder_Inv Q b w :
  Inv Q w → b ∈ Q → no_timer w b →
  (∀ o, ¬ holds w b o) →
  Inv Q (Bot.processNextOrder b w).
Proof.
  intros [Hnd Hlv Hhv Hhu Hho Hid Hqv Hqn Htm] HbQ Hnt Hnh.
  rewrite Bot_processNextOrder_shifted.
  destruct (shifted w) as [[x w']|] eqn:Hs.
  - destruct (shifted_Some _ _ _ Hs) as (c & v & n & -> & Hp).
    pose proof (getOrderList_shifted _ _ _ _ _ Hp) as Hg.
    rewrite Hg in Hnd, Hlv, Hhu. apply NoDup_cons in Hnd as [Hx Hnd].
    set (w' := log (Pickup b) (set_pending c v n w)).
    assert (Hgl : getOrderList (picked_up b x w')
                  = getOrderList (set_pending c v n w)) by done.
    assert (Hlo : length (orders (picked_up b x w')) = length (orders w)).
    { unfold picked_up; simpl. by rewrite length_alter. }
    assert (Hlb : length (bots (picked_up b x w')) = length (bots w)).
    { unfold picked_up, Bot_updateOrder; simpl. by rewrite !length_alter. }
    assert (Hh : ∀ b' o, holds (picked_up b x w') b' o →
                 (b' = b ∧ o = x) ∨ (b' ≠ b ∧ holds w b' o)).
    { intros b' o Ho. apply holds_picked_up in Ho. naive_solver. }
    split.
    + by rewrite Hgl.
    + intros o Ho. rewrite Hlo. apply Hlv. rewrite Hgl in Ho. set_solver.
    + intros b' o [[-> ->]|[_ Ho]]%Hh; rewrite Hlo; [|by eapply Hhv].
      apply Hlv. set_solver.
    + intros b' o [[-> ->]|[_ Ho]]%Hh; rewrite Hgl; [done|].
      apply Hhu in Ho. set_solver.
    + intros b1 b2 o [[? ?]|[? Ho1]]%Hh [[? ?]|[? Ho2]]%Hh; subst.
      * done.
      * apply Hhu in Ho2. set_solver.
      * apply Hhu in Ho1. set_solver.
      * by eapply Hho.
    + intros b' bot Hb' Hi. destruct (decide (b' = b)) as [->|Hne].
      * destruct (bots w !! b) as [bot0|] eqn:Hb0.
        -- rewrite (picked_up_bot b x w' bot0 Hb0) in Hb'. by simplify_eq.
        -- apply lookup_ge_None in Hb0. apply lookup_lt_Some in Hb'. lia.
      * rewrite picked_up_other in Hb' by done. by eapply Hid.
    + intros b' Hb'. rewrite Hlb. by apply Hqv.
    + done.
    + intros h b' o Ht. unfold picked_up in Ht; simpl in Ht.
      destruct (decide (h = nextHandle w)) as [->|Hne].
      * rewrite lookup_insert_eq in Ht.
        assert (b' = b ∧ o = x) as [-> ->] by (split; congruence).
        split; [simpl; lia|]. split; [done|].
        destruct (lookup_lt_is_Some_2 (bots w) b (Hqv _ HbQ)) as [bot0 Hb0].
        rewrite (picked_up_bot b x w' bot0 Hb0). eauto.
      * rewrite lookup_insert_ne in Ht by done.
        destruct (Htm _ _ _ Ht) as (Hlt & HQ & bot & Hb & Hr & Hc & Hch).
        split; [simpl; lia|]. split; [done|].
        assert (b ≠ b') by (intros ->; by eapply Hnt).
        rewrite picked_up_other by done. eauto.
  - apply shifted_None in Hs.
    assert (Hh : ∀ b' o,
      holds (assign_bot b (with_bstatus IDLE) (log (Pickup b) w)) b' o →
      holds w b' o).
    { intros b' o. unfold holds; simpl.
      destruct (decide (b' = b)) as [->|Hne].
      - rewrite list_lookup_alter_eq. by destruct (bots w !! b).
      - by rewrite list_lookup_alter_ne. }
    split; simpl.
    + done.
    + done.
    + intros b' o Ho%Hh. by eapply Hhv.
    + intros b' o Ho%Hh. by eapply Hhu.
    + intros b1 b2 o Ho1%Hh Ho2%Hh. by eapply Hho.
    + intros b' bot Hb' Hi. destruct (decide (b' = b)) as [->|Hne].
      * rewrite list_lookup_alter_eq in Hb'.
        destruct (bots w !! b) as [bot0|] eqn:Hb0; [|done].
        simpl in Hb'. simplify_eq. simpl.
        destruct (currentOrder bot0) as [o|] eqn:Hc; [|done].
        exfalso. apply (Hnh o). unfold holds. by rewrite Hb0.
      * rewrite list_lookup_alter_ne in Hb' by done. by eapply Hid.
    + intros b' Hb'. rewrite length_alter. by apply Hqv.
    + done.
    + intros h b' o Ht.
      destruct (Htm _ _ _ Ht) as (Hlt & HQ & bot & Hb & Hr & Hc & Hch).
      split; [done|]. split; [done|].
      assert (b ≠ b') by (intros ->; by eapply Hnt).
      rewrite list_lookup_alter_ne by done. eauto.
Qed.

Lemma idle_free Q w b :
  Inv Q w → isIdle w b = true → no_timer w b ∧ ∀ o, ¬ holds w b o.
Proof.
  intros HI Hi. unfold isIdle in Hi.
  destruct (bots w !! b) as [bot|] eqn:Hb; [|done].
  apply bool_decide_eq_true in Hi. split.
  - intros h o Ht. destruct (inv_timers _ _ HI _ _ _ Ht) as (_ & _ & bot' & ? & ? & _).
    simplify_eq. congruence.
  - intros o Ho. unfold holds in Ho. rewrite Hb in Ho; simpl in Ho.
    rewrite (inv_idle _ _ HI _ _ Hb Hi) in Ho. done.
Qed.

(** [publish] keeps the invariant, whatever the event. *)
Lemma publish_Inv e w :
  Inv (queue w) w → Inv (queue (publish e w)) (publish e w).
Proof.
  apply (publish_preserves (λ w', Inv (queue w') w')).
  - intros t w' H. by apply Inv_set_trace.
  - intros b w' HI Hb Hi.
    rewrite (proj1 (Bot_processNextOrder_frame b w')).
    destruct (idle_free _ _ _ HI Hi). by apply Bot_processNextOrder_Inv.
Qed.

(** A state that differs only in the registry and in fields of orders. *)
Lemma Inv_relist Q w w1 :
  Inv Q w →
  bots w1 = bots w → timers w1 = timers w → nextHandle w1 = nextHandle w →
  length (orders w) ≤ length (orders w1) →
  NoDup (getOrderList w1) →
  (∀ o, o ∈ getOrderList w1 → o < length (orders w1)) →
  (∀ b o, holds w b o → o ∉ getOrderList w1) →
  Inv Q w1.
Proof.
  intros [Hnd Hlv Hhv Hhu Hho Hid Hqv Hqn Htm] Hb Ht Hn Hl Hnd1 Hlv1 Hhu1.
  unfold holds in *. split; unfold holds; rewrite ?Hb, ?Ht, ?Hn; try done.
  intros b o Ho. apply Hhv in Ho. lia.
Qed.

(** [new Order] followed by the push on one of the pending queues. *)
Lemma Inv_new_order w w1 o :
  Inv (queue w) w →
  bots w1 = bots w → timers w1 = timers w → nextHandle w1 = nextHandle w →
  queue w1 = queue w →
  orders w1 = orders w ++ [o] →
  getOrderList w1 ≡ₚ length (orders w) :: getOrderList w →
  Inv (queue w1) w1.
Proof.
  intros HI Hb Ht Hn Hq Ho Hp. rewrite Hq.
  assert (Hfresh : length (orders w) ∉ getOrderList w).
  { intros Hin%(inv_listed_valid _ _ HI). lia. }
  apply (Inv_relist _ w); try done.
  - rewrite Ho, length_app. lia.
  - rewrite Hp. apply NoDup_cons. split; [done|]. apply HI.
  - intros a. rewrite Hp, Ho, length_app, elem_of_cons. simpl.
    intros [->|Ha%(inv_listed_valid _ _ HI)]; lia.
  - intros b a Ha. rewrite Hp, not_elem_of_cons. split.
    + apply (inv_held_valid _ _ HI) in Ha. lia.
    + by eapply inv_held_unlisted.
Qed.

(** Bot [b] hands the order it holds back to the registry. *)
Lemma Inv_release Q w w1 b x :
  Inv Q w → no_timer w b → holds w b x →
  getOrderList w1 ≡ₚ x :: getOrderList w →
  length (orders w1) = length (orders w) →
  length (bots w1) = length (bots w) →
  (∀ b', b' ≠ b → bots w1 !! b' = bots w !! b') →
  (∀ bot, bots w1 !! b = Some bot → currentOrder bot = None) →
  timers w1 = timers w → nextHandle w1 = nextHandle w →
  Inv Q w1 ∧ no_timer w1 b ∧ ∀ o, ¬ holds w1 b o.
Proof.
  intros [Hnd Hlv Hhv Hhu Hho Hid Hqv Hqn Htm] Hnt Hx Hp Hlo Hlb Hne Hb Ht Hn.
  assert (Hnone : ∀ o, ¬ holds w1 b o).
  { intros o. unfold holds. destruct (bots w1 !! b) as [bot|]; [|done].
    simpl. by rewrite (Hb _ eq_refl). }
  assert (Hh : ∀ b' o, holds w1 b' o → b' ≠ b ∧ holds w b' o).
  { intros b' o Ho. destruct (decide (b' = b)) as [->|Hn'].
    - by apply Hnone in Ho.
    - split; [done|]. unfold holds in *. by rewrite <- Hne. }
  split; [|split; [|done]].
  - split.
    + rewrite Hp. apply NoDup_cons. split; [by eapply Hhu|done].
    + intros o. rewrite Hp, Hlo, elem_of_cons.
      intros [->|Ho]; [by eapply Hhv|by apply Hlv].
    + intros b' o [_ Ho]%Hh. rewrite Hlo. by eapply Hhv.
    + intros b' o [Hb' Ho]%Hh. rewrite Hp, not_elem_of_cons. split.
      * intros ->. apply Hb'. by eapply Hho.
      * by eapply Hhu.
    + intros b1 b2 o [_ Ho1]%Hh [_ Ho2]%Hh. by eapply Hho.
    + intros b' bot Hb' Hi. destruct (decide (b' = b)) as [->|Hn'].
      * by apply Hb.
      * rewrite Hne in Hb' by done. by eapply Hid.
    + intros b' Hb'. rewrite Hlb. by apply Hqv.
    + done.
    + intros h b' o. rewrite Ht, Hn. intros Hto.
      destruct (Htm _ _ _ Hto) as (? & ? & bot & ? & ?).
      split; [done|]. split; [done|].
      assert (b' ≠ b) by (intros ->; by eapply Hnt).
      rewrite Hne by done. eauto.
  - intros h o. rewrite Ht. apply Hnt.
Qed.

Lemma clear_handle_Inv Q b w :
  Inv Q w → Inv Q (clear_handle b w) ∧ no_timer (clear_handle b w) b.
Proof.
  intros HI. unfold clear_handle.
  destruct (bots w !! b ≫= counterHandle) as [h|] eqn:Hh.
  - split.
    + destruct HI as [Hnd Hlv Hhv Hhu Hho Hid Hqv Hqn Htm].
      split; try done. intros h' b' o; simpl. intros Ht.
      apply lookup_delete_Some in Ht as [_ Ht]. by apply Htm.
    + intros h' o; simpl. intros Ht.
      apply lookup_delete_Some in Ht as [Hne Ht].
      destruct (inv_timers _ _ HI _ _ _ Ht) as (_ & _ & bot & Hb & _ & _ & Hc).
      rewrite Hb in Hh; simpl in Hh. congruence.
  - split; [done|]. intros h o Ht.
    destruct (inv_timers _ _ HI _ _ _ Ht) as (_ & _ & bot & Hb & _ & _ & Hc).
    rewrite Hb in Hh; simpl in Hh. congruence.
Qed.

Lemma getOrderList_complete_perm w x q :
  queueComplete q = queueComplete w ++ [x] →
  queueCache q = queueCache w → queueVipOrder q = queueVipOrder w →
  queueNormalOrder q = queueNormalOrder w →
  getOrderList q ≡ₚ x :: getOrderList w.
Proof.
  intros Hc Hca Hv Hn. unfold getOrderList. rewrite Hc, Hca, Hv, Hn.
  rewrite !app_assoc. by rewrite <- Permutation_cons_append.
Qed.

Lemma Bot_completeOrder_Inv Q b w :
  Inv Q w → no_timer w b →
  Inv Q (Bot.completeOrder b w) ∧ no_timer (Bot.completeOrder b w) b
  ∧ ∀ o, ¬ holds (Bot.completeOrder b w) b o.
Proof.
  intros HI Hnt. unfold Bot.completeOrder.
  destruct (bots w !! b ≫= currentOrder) as [x|] eqn:Hx.
  - unfold OrderManager.completeOrder. rewrite publish_quiet by done.
    apply (Inv_release Q w _ b x); try done; simpl.
    + by apply getOrderList_complete_perm.
    + by rewrite length_alter.
    + by rewrite length_alter.
    + intros b' Hne. by rewrite list_lookup_alter_ne.
    + intros bot. rewrite list_lookup_alter_eq.
      destruct (bots w !! b); simpl; intros; by simplify_eq.
  - split; [done|]. split; [done|]. intros o. unfold holds. by rewrite Hx.
Qed.

Lemma Bot_destroy_Inv Q b w :
  Inv Q w → Inv Q (Bot.destroy b w) ∧ no_timer (Bot.destroy b w) b.
Proof.
  intros HI. unfold Bot.destroy. fold (clear_handle b w).
  destruct (clear_handle_Inv Q b w HI) as [HI' Hnt].
  destruct (bots (clear_handle b w) !! b ≫= currentOrder) as [x|] eqn:Hx;
    [|done].
  unfold OrderManager.updateCache. rewrite publish_quiet by done.
  match goal with
  | |- Inv Q ?W ∧ _ =>
    enough (Inv Q W ∧ no_timer W b ∧ ∀ o, ¬ holds W b o) as (? & ? & _)
      by done
  end.
  apply (Inv_release Q (clear_handle b w) _ b x); simpl; try done.
  - by rewrite !length_alter.
  - intros b' Hne. by rewrite !list_lookup_alter_ne.
  - intros bot. rewrite !list_lookup_alter_eq.
    destruct (bots (clear_handle b w) !! b); simpl; intros; by simplify_eq.
Qed.

Lemma Inv_shrink Q b w : Inv (Q ++ [b]) w → no_timer w b → Inv Q w.
Proof.
  intros [Hnd Hlv Hhv Hhu Hho Hid Hqv Hqn Htm] Hnt. split; try done.
  - intros b' Hb'. apply Hqv. set_solver.
  - by apply NoDup_app in Hqn as [? _].
  - intros h b' o Ht. destruct (Htm _ _ _ Ht) as (? & HQ & ?).
    split; [done|]. split; [|done].
    apply elem_of_app in HQ as [?|Hb']; [done|].
    apply list_elem_of_singleton in Hb' as ->. by apply Hnt in Ht.
Qed.

Lemma interval_callback_Inv Q b x h w :
  Inv Q w → timers w !! h = Some (b, x) →
  Inv Q (Bot.interval_callback b x w).
Proof.
  intros HI Ht. unfold Bot.interval_callback.
  rewrite publish_quiet by done.
  set (w1 := quiet_publish _ _).
  assert (HI1 : Inv Q w1).
  { apply (Inv_relist Q w); try done; try apply HI.
    - simpl. by rewrite length_alter.
    - intros o Ho. simpl. rewrite length_alter. by apply HI. }
  case_bool_decide; [|done].
  fold (clear_handle b w1).
  destruct (clear_handle_Inv Q b w1 HI1) as [HI2 Hnt2].
  destruct (Bot_completeOrder_Inv Q b _ HI2 Hnt2) as (HI3 & Hnt3 & Hnh3).
  apply Bot_processNextOrder_Inv; try done.
  by destruct (inv_timers _ _ HI _ _ _ Ht) as (_ & ? & _).
Qed.

Lemma Controller_increase_Inv params w :
  Inv (queue w) w →
  Inv (queue (Controller.increase params w).2) (Controller.increase params w).2.
Proof.
  intros HI. unfold Controller.increase, Bot.new.
  set (a := length (bots w)).
  set (w1 := set_bots _ _).
  assert (Hfresh : a ∉ queue w).
  { intros Ha%(inv_queue_valid _ _ HI). unfold a in Ha. lia. }
  assert (Hold : ∀ b bot, bots w !! b = Some bot → bots w1 !! b = Some bot).
  { intros b bot Hb. simpl. by apply lookup_app_l_Some. }
  assert (Hlk : ∀ b bot, bots w1 !! b = Some bot →
            bots w !! b = Some bot ∨ (b = a ∧ currentOrder bot = None)).
  { intros b bot. simpl. intros [?|[? Hb]]%lookup_app_Some; [by left|right].
    fold a in Hb. destruct (b - a) as [|k] eqn:E; [|done].
    simpl in Hb. simplify_eq. split; [lia|done]. }
  assert (Hh : ∀ b o, holds w1 b o → holds w b o).
  { intros b o. unfold holds.
    destruct (bots w1 !! b) as [bot|] eqn:Hb; [|done].
    destruct (Hlk _ _ Hb) as [->|[_ Hn]]; [done|]. simpl. by rewrite Hn. }
  assert (HI1 : Inv (queue w ++ [a]) w1).
  { destruct HI as [Hnd Hlv Hhv Hhu Hho Hid Hqv Hqn Htm]. split; try done.
    - intros b o Ho%Hh. by eapply Hhv.
    - intros b o Ho%Hh. by eapply Hhu.
    - intros b1 b2 o Ho1%Hh Ho2%Hh. by eapply Hho.
    - intros b bot [Hb|[_ ?]]%Hlk Hi; [by eapply Hid|done].
    - intros b. simpl. rewrite length_app, elem_of_app. simpl.
      intros [Hb%Hqv|Hb%list_elem_of_singleton]; unfold a in *; lia.
    - apply NoDup_app. split; [done|]. split; [|apply NoDup_singleton].
      intros b Hb Hb'%list_elem_of_singleton. by subst.
    - intros h b o Ht. destruct (Htm _ _ _ Ht) as (? & ? & bot & ? & ?).
      split; [done|]. split; [set_solver|]. exists bot. split; [|done].
      by apply Hold. }
  assert (Hnt : no_timer w1 a).
  { intros h o Ht. by destruct (inv_timers _ _ HI _ _ _ Ht) as (_ & ? & _). }
  assert (Hnh : ∀ o, ¬ holds w1 a o).
  { intros o Ho%Hh. unfold holds in Ho.
    rewrite (lookup_ge_None_2 (bots w) a) in Ho; [done|]. unfold a; lia. }
  pose proof (Bot_processNextOrder_Inv _ a w1 HI1
    ltac:(set_solver) Hnt Hnh) as HI2.
  change (Inv (queue (Bot.processNextOrder a w1) ++ [a])
            (set_queue (queue (Bot.processNextOrder a w1) ++ [a])
               (Bot.processNextOrder a w1))).
  rewrite (proj1 (Bot_processNextOrder_frame a w1)).
  destruct HI2. by split.
Qed.

Lemma Controller_decrease_Inv w :
  Inv (queue w) w → Inv (queue (Controller.decrease w)) (Controller.decrease w).
Proof.
  intros HI. unfold Controller.decrease.
  destruct (last (queue w)) as [b|] eqn:Hl; [|done].
  apply last_Some in Hl as [Q HQ].
  rewrite HQ, removelast_last.
  set (w1 := set_queue Q w).
  assert (HI1 : Inv (Q ++ [b]) w1).
  { rewrite <- HQ. destruct HI. by split. }
  destruct (Bot_destroy_Inv _ b w1 HI1) as [HI2 Hnt].
  assert (queue (Bot.destroy b w1) = Q) as ->.
  { unfold Bot.destroy, OrderManager.updateCache.
    repeat case_match; rewrite ?publish_quiet by done; done. }
  by eapply Inv_shrink.
Qed.

Lemma step_Inv op w : Inv (queue w) w → Inv (queue (step op w)) (step op w).
Proof.
  intros HI. destruct op as [| |k|params| |h]; simpl.
  - unfold OrderManager.createNormalOrder; simpl. apply publish_Inv.
    eapply (Inv_new_order w); try done. simpl. unfold getOrderList; simpl.
    rewrite <- !app_assoc. simpl.
    rewrite <- !Permutation_middle. done.
  - unfold OrderManager.createVipOrder; simpl. apply publish_Inv.
    eapply (Inv_new_order w); try done. simpl. unfold getOrderList; simpl.
    rewrite <- !app_assoc. simpl.
    rewrite <- !Permutation_middle. done.
  - destruct HI. by split.
  - by apply Controller_increase_Inv.
  - by apply Controller_decrease_Inv.
  - unfold tick. destruct (timers w !! h) as [[b x]|] eqn:Ht; [|done].
    assert (queue (Bot.interval_callback b x w) = queue w) as ->.
    { unfold Bot.interval_callback, Bot.completeOrder,
        OrderManager.completeOrder.
      repeat case_match; rewrite ?publish_quiet by done; try done;
        by rewrite (proj1 (Bot_processNextOrder_frame _ _)),
             ?publish_quiet by done. }
    by eapply interval_callback_Inv.
Qed.

Lemma init_Inv : Inv (queue init) init.
Proof.
  split; simpl; try done; try apply NoDup_nil_2.
  - intros o Ho. by apply elem_of_nil in Ho.
  - intros b Hb. by apply elem_of_nil in Hb.
Qed.

(** Every state the engine can be in satisfies the invariant. *)
Lemma reachable_Inv w : reachable w → Inv (queue w) w.
Proof.
  intros [ops ->]. unfold run.
  induction ops as [|op ops IH] using rev_ind; [apply init_Inv|].
  rewrite foldl_app; simpl. by apply step_Inv.
Qed.

(** ** C9: an order in flight is in no collection *)

Lemma holds_listed_after_completeOrder w b o :
  holds w b o → o ∈ getOrderList (Bot.completeOrder b w).
Proof.
  unfold holds, Bot.completeOrder. intros ->.
  unfold OrderManager.completeOrder. rewrite publish_quiet by done.
  unfold getOrderList; simpl. rewrite !elem_of_app. do 3 right.
  right. apply list_elem_of_singleton. done.
Qed.

Lemma holds_listed_after_destroy w b o :
  holds w b o → o ∈ getOrderList (Bot.destroy b w).
Proof.
  intros Ho. unfold Bot.destroy. fold (clear_handle b w).
  assert (bots (clear_handle b w) = bots w) as Hb.
  { unfold clear_handle. by destruct (_ ≫= _). }
  unfold holds in Ho. rewrite Hb, Ho.
  unfold OrderManager.updateCache. rewrite publish_quiet by done.
  unfold getOrderList; simpl. apply elem_of_cons. by left.
Qed.

(** C9. In every reachable state an order that some bot has in
    [currentOrder] is in none of queueCache, queueVipOrder, queueNormalOrder
    and queueComplete, hence not in what getOrderList returns; it is listed
    again as soon as the bot completes it or is destroyed. *)
Theorem held_order_not_listed (w : World) (b : bref) (o : oref) :
  reachable w → holds w b o →
  (o ∉ queueCache w) ∧ (o ∉ queueVipOrder w) ∧ (o ∉ queueNormalOrder w)
  ∧ (o ∉ queueComplete w) ∧ (o ∉ getOrderList w)
  ∧ (o ∈ getOrderList (Bot.completeOrder b w))
  ∧ (o ∈ getOrderList (Bot.destroy b w)).
Proof.
  intros Hr Ho.
  pose proof (inv_held_unlisted _ _ (reachable_Inv w Hr) b o Ho) as Hn.
  assert (Hn' := Hn). unfold getOrderList in Hn'.
  rewrite !elem_of_app in Hn'.
  repeat split; try tauto.
  - by apply holds_listed_after_completeOrder.
  - by apply holds_listed_after_destroy.
Qed.

Lemma held_order_not_listed_witness :
  let w := run [CreateNormalOrder; Increase None] init in
  (reachable w ∧ holds w 0 0)
  ∧ (0 ∉ getOrderList w) ∧ (0 ∈ getOrderList (Bot.destroy 0 w)).
Proof.
  intros w.
  assert (Hr : reachable w) by (by eexists).
  assert (Ho : holds w 0 0) by (vm_compute; reflexivity).
  split; [by split|].
  destruct (held_order_not_listed w 0 0 Hr Ho) as (_ & _ & _ & _ & H1 & _ & H2).
  split; [exact H1|exact H2].
Defined.

(** ** C2: completing or recovering an order that is not in flight *)

(** OrderManager.completeOrder and OrderManager.updateCache do not look at
    where the order is: completing the order of a finished countdown a
    second time lists it twice in queueComplete, and recovering it although
    no bot holds it lists it in queueCache as well. *)
Lemma completeOrder_updateCache_unguarded :
  let w := run [CreateNormalOrder; Increase None;
                Tick 1; Tick 1; Tick 1; Tick 1; Tick 1;
                Tick 1; Tick 1; Tick 1; Tick 1; Tick 1] init in
  getOrderList w = [0] ∧ queueComplete w = [0]
  ∧ (∀ b, ¬ holds w b 0)
  ∧ queueComplete (OrderManager.completeOrder 0 w) = [0; 0]
  ∧ OrderManager.completeOrder 0 w ≠ w
  ∧ queueCache (OrderManager.updateCache 0 w) = [0]
  ∧ getOrderList (OrderManager.updateCache 0 w) = [0; 0].
Proof.
  intros w.
  assert (Hw : queueComplete w = [0]) by (vm_compute; reflexivity).
  assert (Hq : queueComplete (OrderManager.completeOrder 0 w) = [0; 0])
    by (vm_compute; reflexivity).
  split; [vm_compute; reflexivity|]. split; [exact Hw|].
  split; [intros [|[|b]]; vm_compute; intros [=]|].
  split; [exact Hq|].
  split; [intros E; rewrite E, Hw in Hq; discriminate Hq|].
  split; vm_compute; reflexivity.
Qed.

Lemma Bot_completeOrder_idle b w :
  (∀ o, ¬ holds w b o) → Bot.completeOrder b w = w.
Proof.
  intros Hn. unfold Bot.completeOrder.
  destruct (bots w !! b ≫= currentOrder) as [o|] eqn:E; [|done].
  by apply Hn in E.
Qed.

Lemma Bot_completeOrder_releases b w o :
  ¬ holds (Bot.completeOrder b w) b o.
Proof.
  unfold Bot.completeOrder.
  destruct (bots w !! b ≫= currentOrder) as [x|] eqn:E.
  - unfold holds, OrderManager.completeOrder. rewrite publish_quiet by done.
    simpl. rewrite list_lookup_alter_eq. by destruct (bots w !! b).
  - unfold holds. by rewrite E.
Qed.

(** C2 (as the code has it). The guard is in the bot, not in the registry:
    Bot.completeOrder on a bot that holds nothing changes nothing, so a
    second Bot.completeOrder is a no-op, and Bot.destroy on a bot that holds
    nothing leaves the registry as it is; and in every reachable state no
    order is listed twice by getOrderList, a held order is not listed, and
    no two bots hold the same order. *)
Theorem completion_and_recovery_guarded_by_bot :
  (∀ w b, Bot.completeOrder b (Bot.completeOrder b w) = Bot.completeOrder b w)
  ∧ (∀ w b, (∀ o, ¬ holds w b o) →
       Bot.completeOrder b w = w
       ∧ getOrderList (Bot.destroy b w) = getOrderList w)
  ∧ (∀ w, reachable w →
       NoDup (getOrderList w)
       ∧ (∀ b o, holds w b o → o ∉ getOrderList w)
       ∧ (∀ b1 b2 o, holds w b1 o → holds w b2 o → b1 = b2)).
Proof.
  split; [|split].
  - intros w b. apply Bot_completeOrder_idle. intros o.
    apply Bot_completeOrder_releases.
  - intros w b Hn. split; [by apply Bot_completeOrder_idle|].
    unfold Bot.destroy. fold (clear_handle b w).
    assert (bots (clear_handle b w) = bots w
            ∧ getOrderList (clear_handle b w) = getOrderList w) as [Hb Hg].
    { unfold clear_handle. by destruct (_ ≫= _). }
    rewrite Hb. destruct (bots w !! b ≫= currentOrder) as [o|] eqn:E; [|done].
    by apply Hn in E.
  - intros w Hr. pose proof (reachable_Inv w Hr) as HI.
    split; [apply HI|]. split; [apply HI|apply HI].
Qed.

Lemma completion_and_recovery_guarded_by_bot_witness :
  let w := run [CreateNormalOrder; Increase None;
                Tick 1; Tick 1; Tick 1; Tick 1; Tick 1;
                Tick 1; Tick 1; Tick 1; Tick 1; Tick 1] init in
  ((∀ o, ¬ holds w 0 o) ∧ reachable w)
  ∧ Bot.completeOrder 0 w = w
  ∧ getOrderList (Bot.destroy 0 w) = getOrderList w
  ∧ NoDup (getOrderList w).
Proof.
  intros w.
  assert (Hn : ∀ o, ¬ holds w 0 o) by (intros o; vm_compute; intros [=]).
  assert (Hr : reachable w) by (by eexists).
  split; [by split|].
  destruct completion_and_recovery_guarded_by_bot as (_ & H2 & H3).
  destruct (H2 w 0 Hn) as [E1 E2]. destruct (H3 w Hr) as [Hd _].
  split; [exact E1|]. split; [exact E2|exact Hd].
Defined.

(** ** C4: Bot.destroy *)

(** A bot created while the registry is empty is IDLE and holds nothing;
    destroying it, directly or through Controller.decrease, returns at
    [if (!this.currentOrder) return] and leaves [isDestroyed] undefined. *)
Theorem destroy_idle_bot_not_marked :
  let w := (Controller.increase None init).2 in
  bots w !! 0 = Some (mkBot IDLE 0 NORMAL None None None)
  ∧ isDestroyed <$> bots (Bot.destroy 0 w) !! 0 = Some None
  ∧ isDestroyed <$> bots (Controller.decrease w) !! 0 = Some None.
Proof. vm_compute. done. Qed.

(** What Bot.destroy does to a bot that holds an order: its interval is
    cleared, the order goes to the head of queueCache, and the bot is left
    IDLE, empty-handed and marked destroyed. *)
Lemma destroy_holding_bot w b bot x :
  bots w !! b = Some bot → currentOrder bot = Some x →
  let w' := Bot.destroy b w in
  queueCache w' = x :: queueCache w
  ∧ bots w' !! b
    = Some (mkBot IDLE (buid bot) (btype bot) None (counterHandle bot)
                  (Some true))
  ∧ timers w' = match counterHandle bot with
                | Some h => delete h (timers w)
                | None => timers w
                end.
Proof.
  intros Hb Hc. simpl. unfold Bot.destroy. fold (clear_handle b w).
  assert (bots (clear_handle b w) = bots w) as Hbb.
  { unfold clear_handle. by destruct (_ ≫= _). }
  rewrite Hbb, Hb. simpl. rewrite Hc.
  unfold OrderManager.updateCache. rewrite publish_quiet by done. simpl.
  rewrite !list_lookup_alter_eq, Hbb, Hb. simpl.
  unfold clear_handle. rewrite Hb. simpl.
  destruct bot as [s u t c [h|] d]; simpl in *; done.
Qed.

(** ** C10: a recovered order waits *)

Lemma pickups_app t1 t2 : pickups (t1 ++ t2) = pickups t1 ++ pickups t2.
Proof. apply omap_app. Qed.

Lemma pickups_quiet_entries t e seen i n :
  pickups (t ++ Publish e :: invocations e seen i n) = pickups t.
Proof.
  rewrite pickups_app. simpl.
  assert (pickups (invocations e seen i n) = []) as ->.
  { unfold invocations, pickups. revert i.
    induction n as [|n IH]; intros i; simpl; [done|]. apply IH. }
  by rewrite app_nil_r.
Qed.

Lemma Waiting_no_timers c p w h : Waiting c p w → timers w !! h = None.
Proof.
  intros [HI Hidle _ _].
  destruct (timers w !! h) as [[b o]|] eqn:Ht; [|done].
  destruct (inv_timers _ _ HI _ _ _ Ht) as (_ & Hq & bot & Hb & Hr & _).
  apply Hidle in Hq. unfold isIdle in Hq. rewrite Hb in Hq.
  apply bool_decide_eq_true in Hq. congruence.
Qed.

Lemma Waiting_step c p op w :
  is_passive op = true → Waiting c p w → Waiting c p (step op w).
Proof.
  intros Hop HW. pose proof (step_Inv op w (waiting_inv _ _ _ HW)) as HI'.
  destruct op as [| |k|params| |h]; try done; simpl in *.
  - destruct HW. by split.
  - revert HI'. unfold Controller.decrease.
    destruct (last (queue w)) as [b|] eqn:Hl; [|done].
    apply last_Some in Hl as [Q HQ].
    assert (Hb : isIdle w b = true).
    { apply (waiting_idle _ _ _ HW). rewrite HQ. set_solver. }
    unfold Bot.destroy. fold (clear_handle b (set_queue (removelast (queue w)) w)).
    set (w1 := clear_handle b _).
    assert (Hw1 : bots w1 = bots w ∧ queue w1 = removelast (queue w)
                  ∧ queueCache w1 = queueCache w ∧ trace w1 = trace w).
    { unfold w1, clear_handle. by destruct (_ ≫= _). }
    destruct Hw1 as (Hbots & Hq & Hc & Ht).
    assert (bots w1 !! b ≫= currentOrder = None) as ->.
    { rewrite Hbots. unfold isIdle in Hb.
      destruct (bots w !! b) as [bot|] eqn:E; [|done].
      apply bool_decide_eq_true in Hb. simpl.
      by apply (inv_idle _ _ (waiting_inv _ _ _ HW) b bot). }
    intros HI'. split; [done| | |].
    + intros b'. rewrite Hq, HQ, removelast_last. intros Hb'.
      unfold isIdle. rewrite Hbots. apply (waiting_idle _ _ _ HW).
      rewrite HQ. set_solver.
    + rewrite Hc. apply HW.
    + rewrite Ht. apply HW.
  - unfold tick in *. by rewrite (Waiting_no_timers _ _ _ h HW) in *.
Qed.

Lemma Waiting_run c p ops w :
  forallb is_passive ops = true → Waiting c p w → Waiting c p (run ops w).
Proof.
  revert w. induction ops as [|op ops IH]; intros w Hops HW; [done|].
  simpl in Hops. apply andb_true_iff in Hops as [Hop Hops].
  simpl. apply IH; [done|]. by apply Waiting_step.
Qed.

(** Destroying the last bot while it holds [x] and every other managed bot
    is idle. *)
Lemma decrease_Waiting w Q b x :
  reachable w → queue w = Q ++ [b] → holds w b x →
  (∀ b', b' ∈ Q → isIdle w b' = true) →
  Waiting (x :: queueCache w) (pickups (trace w)) (Controller.decrease w)
  ∧ published (trace (Controller.decrease w))
    = published (trace w) ++ [ORDER_UPDATED].
Proof.
  intros Hr HQ Hx Hidle. pose proof (reachable_Inv w Hr) as HI.
  pose proof (Controller_decrease_Inv w HI) as HI'. revert HI'.
  unfold Controller.decrease. rewrite HQ, last_snoc, removelast_last.
  unfold Bot.destroy. fold (clear_handle b (set_queue Q w)).
  set (w1 := clear_handle b _).
  assert (Hw1 : bots w1 = bots w ∧ queue w1 = Q
                ∧ queueCache w1 = queueCache w ∧ trace w1 = trace w).
  { unfold w1, clear_handle. by destruct (_ ≫= _). }
  destruct Hw1 as (Hbots & Hq & Hc & Ht).
  unfold holds in Hx. rewrite Hbots, Hx.
  unfold OrderManager.updateCache. rewrite publish_quiet by done.
  intros HI'. split; [split|]; simpl.
  - done.
  - rewrite Hq. intros b' Hb'. unfold isIdle; simpl.
    assert (b' ≠ b).
    { intros ->. pose proof (inv_queue_nodup _ _ HI) as Hnd.
      rewrite HQ in Hnd. apply NoDup_app in Hnd as (_ & Hnd & _).
      apply (Hnd b Hb'). set_solver. }
    rewrite !list_lookup_alter_ne, Hbots by done. by apply Hidle.
  - by rewrite Hc.
  - by rewrite pickups_quiet_entries, Ht.
  - by rewrite published_quiet_entries, Ht.
Qed.

(** The claim's list of what ends the wait leaves out Controller.increase:
    bot 0 is idle and bot 1 is in the last second of order 1 when bot 1 is
    destroyed; order 1 then sits in queueCache, and with no order created
    and no bot finishing, the constructor of the bot that [increase] adds
    picks it up. *)
Lemma recovered_order_taken_by_new_bot :
  let w := run [CreateNormalOrder; Increase None; CreateNormalOrder;
                Increase None;
                Tick 1; Tick 2; Tick 1; Tick 2; Tick 1; Tick 2; Tick 1; Tick 2;
                Tick 1; Tick 2; Tick 1; Tick 2; Tick 1; Tick 2; Tick 1; Tick 2;
                Tick 1; Tick 2; Tick 1] init in
  let w1 := step Decrease w in
  let w2 := step (Increase None) w1 in
  queue w = [0; 1] ∧ isIdle w 0 = true ∧ holds w 1 1
  ∧ queueCache w1 = [1] ∧ queue w1 = [0] ∧ isIdle w1 0 = true
  ∧ timers w1 = ∅
  ∧ queueCache w2 = [] ∧ holds w2 2 1
  ∧ orderUid w2 = orderUid w1
  ∧ queueComplete w2 = queueComplete w1
  ∧ drop (length (trace w1)) (trace w2)
    = [Pickup 2; Publish ORDER_UPDATED; Invoke 0 ORDER_UPDATED [0];
       Publish ORDER_COUNTER; Invoke 0 ORDER_COUNTER [0]].
Proof. vm_compute. repeat split; reflexivity. Qed.

(** C10 (as the code has it). When Controller.decrease destroys the last
    bot while it holds [x] and every other managed bot is idle, only
    ORDER_UPDATED is published and no bot attempts a pickup; [x] is then at
    the head of queueCache and stays there, with no pickup attempted,
    through every sequence of interval firings, further decreases and
    subscriptions, that is, until an order is created or a bot is added. *)
Theorem recovered_order_waits (w : World) (Q : list bref) (b : bref) (x : oref)
    (ops : list Op) :
  reachable w → queue w = Q ++ [b] → holds w b x →
  (∀ b', b' ∈ Q → isIdle w b' = true) →
  forallb is_passive ops = true →
  let w1 := Controller.decrease w in
  published (trace w1) = published (trace w) ++ [ORDER_UPDATED]
  ∧ pickups (trace w1) = pickups (trace w)
  ∧ queueCache w1 = x :: queueCache w
  ∧ queueCache (run ops w1) = x :: queueCache w
  ∧ pickups (trace (run ops w1)) = pickups (trace w)
  ∧ (∀ b', ¬ holds (run ops w1) b' x).
Proof.
  intros Hr HQ Hx Hidle Hops. simpl.
  destruct (decrease_Waiting w Q b x Hr HQ Hx Hidle) as [HW Hp].
  pose proof (Waiting_run _ _ ops _ Hops HW) as HW'.
  split; [done|]. split; [apply HW|]. split; [apply HW|].
  split; [apply HW'|]. split; [apply HW'|].
  intros b' Hb'.
  apply (inv_held_unlisted _ _ (waiting_inv _ _ _ HW')) in Hb'.
  apply Hb'. unfold getOrderList. rewrite (waiting_cache _ _ _ HW').
  set_solver.
Qed.

Lemma recovered_order_waits_witness :
  let w := run [CreateNormalOrder; Increase None; CreateNormalOrder;
                Increase None;
                Tick 1; Tick 2; Tick 1; Tick 2; Tick 1; Tick 2; Tick 1; Tick 2;
                Tick 1; Tick 2; Tick 1; Tick 2; Tick 1; Tick 2; Tick 1; Tick 2;
                Tick 1; Tick 2; Tick 1] init in
  let ops := [Tick 2; Tick 1; Subscribe 3; Tick 2; Decrease; Tick 1] in
  (reachable w ∧ queue w = [0] ++ [1] ∧ holds w 1 1
   ∧ (∀ b', b' ∈ [0] → isIdle w b' = true)
   ∧ forallb is_passive ops = true)
  ∧ queueCache (run ops (Controller.decrease w)) = 1 :: queueCache w.
Proof.
  intros w ops.
  assert (Hr : reachable w) by (by eexists).
  assert (HQ : queue w = [0] ++ [1]) by (vm_compute; reflexivity).
  assert (Hx : holds w 1 1) by (vm_compute; reflexivity).
  assert (Hi : ∀ b', b' ∈ [0] → isIdle w b' = true).
  { intros b' Hb'. apply list_elem_of_singleton in Hb'. subst b'.
    vm_compute; reflexivity. }
  assert (Hops : forallb is_passive ops = true) by (vm_compute; reflexivity).
  split; [repeat split; assumption|].
  destruct (recovered_order_waits w [0] 1 1 ops Hr HQ Hx Hi Hops)
    as (_ & _ & _ & H & _).
  exact H.
Defined.

(** ** C5: the Controller wakes every idle bot *)

Lemma forEach_preserves_in {A} (P : World → Prop)
    (f : nat → A → World → World) i l w :
  (∀ j x w', x ∈ l → P w' → P (f j x w')) → P w → P (forEach f i l w).
Proof.
  revert i w; induction l as [|x l IH]; intros i w Hf Hw; simpl; [done|].
  apply IH.
  - intros j y w' Hy. apply Hf. set_solver.
  - apply Hf; [set_solver|done].
Qed.

(** Observers only add their [Invoke] entry to the trace. *)
Lemma forEach_observers p e ks i t w :
  forEach (invoke p e) i (Observer <$> ks) (set_trace t w)
  = set_trace (t ++ invocations e (getOrderList w) i (length ks)) w.
Proof.
  revert i t. induction ks as [|k ks IH]; intros i t.
  - unfold invocations; simpl. by rewrite app_nil_r.
  - rewrite fmap_cons. cbn [forEach length].
    change (invoke p e i (Observer k) (set_trace t w))
      with (set_trace (t ++ [Invoke i e (getOrderList w)]) w).
    rewrite IH. unfold invocations; simpl. by rewrite <- app_assoc.
Qed.

Lemma set_trace_id w : set_trace (trace w) w = w.
Proof. by destruct w. Qed.

Lemma pickups_invocations e seen i n : pickups (invocations e seen i n) = [].
Proof.
  unfold invocations, pickups. revert i.
  induction n as [|n IH]; intros i; simpl; [done|]. apply IH.
Qed.

Lemma step_messageQueue op w :
  messageQueue (step op w)
  = messageQueue w ++ match op with Subscribe k => [Observer k] | _ => [] end.
Proof.
  assert (Hpub : ∀ e w', messageQueue (publish e w') = messageQueue w').
  { intros e w'.
    apply (publish_preserves (λ w1, messageQueue w1 = messageQueue w'));
      [done| |done].
    intros b w1 Hw1 _ _.
    by rewrite (proj1 (proj2 (Bot_processNextOrder_frame b w1))). }
  destruct op as [| |k|params| |h]; simpl; rewrite ?app_nil_r.
  - unfold OrderManager.createNormalOrder; simpl. by rewrite Hpub.
  - unfold OrderManager.createVipOrder; simpl. by rewrite Hpub.
  - done.
  - unfold Controller.increase, Bot.new; simpl.
    by rewrite (proj1 (proj2 (Bot_processNextOrder_frame _ _))).
  - unfold Controller.decrease, Bot.destroy, OrderManager.updateCache.
    repeat case_match; rewrite ?publish_quiet by done; done.
  - unfold tick. destruct (timers w !! h) as [[b x]|]; [|done].
    unfold Bot.interval_callback. rewrite publish_quiet by done.
    case_bool_decide; [|done].
    rewrite (proj1 (proj2 (Bot_processNextOrder_frame _ _))).
    unfold Bot.completeOrder, OrderManager.completeOrder.
    repeat (case_match; try done); by rewrite publish_quiet.
Qed.

(** The Controller subscribed first; everything after it is an observer. *)
Lemma reachable_messageQueue w :
  reachable w → ∃ ks, messageQueue w = ControllerCallback :: (Observer <$> ks).
Proof.
  intros [ops ->]. unfold run.
  induction ops as [|op ops IH] using rev_ind; [by exists []|].
  rewrite foldl_app; simpl. rewrite step_messageQueue.
  destruct IH as [ks ->]. destruct op; rewrite ?app_nil_r; eauto.
  exists (ks ++ [k]). by rewrite fmap_app.
Qed.

Lemma pickups_Bot_processNextOrder b w :
  pickups (trace (Bot.processNextOrder b w)) = pickups (trace w) ++ [b].
Proof.
  rewrite Bot_processNextOrder_shifted.
  destruct (shifted w) as [[x w']|] eqn:Hs.
  - destruct (shifted_Some _ _ _ Hs) as (c & v & n & -> & _).
    rewrite picked_up_trace, !pickups_quiet_entries.
    change (trace (log (Pickup b) (set_pending c v n w)))
      with (trace w ++ [Pickup b]).
    by rewrite pickups_app.
  - change (trace (assign_bot b (with_bstatus IDLE) (log (Pickup b) w)))
      with (trace w ++ [Pickup b]).
    by rewrite pickups_app.
Qed.

Lemma bots_Bot_processNextOrder_other b b' w :
  b ≠ b' → bots (Bot.processNextOrder b w) !! b' = bots w !! b'.
Proof.
  intros Hne. rewrite Bot_processNextOrder_shifted.
  destruct (shifted w) as [[x w']|] eqn:Hs.
  - destruct (shifted_Some _ _ _ Hs) as (c & v & n & -> & _).
    by rewrite picked_up_other.
  - simpl. by rewrite list_lookup_alter_ne.
Qed.

(** The loop of the Controller's subscriber: Bot.processNextOrder is entered
    once on each bot that was idle when the loop started, in queue order. *)
Lemma wake_loop_pickups l i w :
  NoDup l →
  pickups (trace (forEach (λ _ b w, if isIdle w b
                                   then Bot.processNextOrder b w else w)
                    i l w))
  = pickups (trace w) ++ filter (λ b, isIdle w b) l.
Proof.
  revert i w. induction l as [|b l IH]; intros i w Hnd; simpl.
  - by rewrite app_nil_r.
  - apply NoDup_cons in Hnd as [Hb Hnd]. rewrite IH by done.
    assert (Hsame : ∀ w1, (∀ b', b' ∈ l → bots w1 !! b' = bots w !! b') →
              filter (λ b0, isIdle w1 b0) l = filter (λ b0, isIdle w b0) l).
    { intros w1. clear. induction l as [|y l IH]; intros Hw1; [done|].
      rewrite !filter_cons.
      assert (isIdle w1 y = isIdle w y) as ->.
      { unfold isIdle. rewrite (Hw1 y); [done|]. set_solver. }
      rewrite IH; [done|].
      intros b' Hb'. apply Hw1. set_solver. }
    rewrite filter_cons. destruct (isIdle w b) eqn:Hi.
    + rewrite decide_True by done.
      rewrite pickups_Bot_processNextOrder, <- app_assoc. simpl.
      f_equal. f_equal. apply Hsame. intros b' Hb'.
      apply bots_Bot_processNextOrder_other. intros ->. done.
    + rewrite decide_False by (intros []). done.
Qed.

Lemma no_idle_filter w l :
  existsb (isIdle w) l = false → filter (λ b, isIdle w b) l = [].
Proof.
  induction l as [|b l IH]; simpl; [done|].
  intros [Hb Hl]%orb_false_iff. rewrite filter_cons, Hb.
  rewrite decide_False by (intros []). by apply IH.
Qed.

Lemma controller_callback_pickups w :
  NoDup (queue w) →
  pickups (trace (controller_callback publish ORDER_ADDED w))
  = pickups (trace w) ++ filter (λ b, isIdle w b) (queue w).
Proof.
  intros Hnd. unfold controller_callback. simpl.
  destruct (hasIdleBot w) eqn:Hi.
  - by apply wake_loop_pickups.
  - by rewrite no_idle_filter, app_nil_r.
Qed.

Lemma publish_added_eq w ks :
  messageQueue w = ControllerCallback :: (Observer <$> ks) →
  publish ORDER_ADDED w
  = set_trace (trace (after_controller w) ++
               invocations ORDER_ADDED (getOrderList (after_controller w)) 1
                 (length ks))
      (after_controller w).
Proof.
  intros Hm. rewrite publish_unfold. unfold publish_body.
  change (messageQueue (log (Publish ORDER_ADDED) w)) with (messageQueue w).
  rewrite Hm. cbn [forEach].
  change (invoke publish ORDER_ADDED 0 ControllerCallback
            (log (Publish ORDER_ADDED) w)) with (after_controller w).
  by rewrite <- (set_trace_id (after_controller w)) at 1;
    rewrite forEach_observers.
Qed.

Lemma publish_added_pickups w ks :
  messageQueue w = ControllerCallback :: (Observer <$> ks) →
  NoDup (queue w) →
  pickups (trace (publish ORDER_ADDED w))
  = pickups (trace w) ++ filter (λ b, isIdle w b) (queue w).
Proof.
  intros Hm Hnd. rewrite (publish_added_eq w ks Hm).
  cbn [trace set_trace]. rewrite pickups_app, pickups_invocations, app_nil_r.
  unfold after_controller. rewrite controller_callback_pickups by done.
  unfold log. cbn [trace set_trace]. rewrite !pickups_app.
  cbn [pickups omap]. by rewrite !app_nil_r.
Qed.

(** The Controller's loop over two idle bots when exactly one order [a] is
    pending: the first bot takes it, the second finds nothing. *)
Lemma wake_two_bots w b0 b1 a :
  b0 ≠ b1 → isIdle w b0 = true → isIdle w b1 = true →
  queue w = [b0; b1] →
  queueCache w = [] → queueVipOrder w = [] → queueNormalOrder w = [a] →
  let w' := controller_callback publish ORDER_ADDED w in
  bstatus <$> bots w' !! b0 = Some RUN ∧ holds w' b0 a
  ∧ isIdle w' b1 = true ∧ pending w' = [].
Proof.
  intros Hne H0 H1 Hq Hc Hv Hn. cbv zeta.
  assert (controller_callback publish ORDER_ADDED w
          = if isIdle (Bot.processNextOrder b0 w) b1
            then Bot.processNextOrder b1 (Bot.processNextOrder b0 w)
            else Bot.processNextOrder b0 w) as ->.
  { unfold controller_callback, hasIdleBot. rewrite Hq. simpl.
    by rewrite H0. }
  assert (Hs : shifted w = Some (a, set_queueNormalOrder [] w)).
  { unfold shifted. by rewrite Hc, Hv, Hn. }
  rewrite (Bot_processNextOrder_shifted b0 w), Hs.
  set (w2 := picked_up b0 a _).
  assert (Hb1 : bots w2 !! b1 = bots w !! b1).
  { unfold w2. by rewrite picked_up_other. }
  assert (isIdle w2 b1 = true) as ->.
  { unfold isIdle. rewrite Hb1. exact H1. }
  assert (Hs2 : shifted w2 = None).
  { apply shifted_None. unfold pending.
    change (queueCache w2) with (queueCache w).
    change (queueVipOrder w2) with (queueVipOrder w).
    change (queueNormalOrder w2) with (@nil nat). by rewrite Hc, Hv. }
  rewrite (Bot_processNextOrder_shifted b1 w2), Hs2.
  unfold isIdle in H0, H1.
  destruct (bots w !! b0) as [bot0|] eqn:E0; [|done].
  destruct (bots w !! b1) as [bot1|] eqn:E1; [|done].
  apply bool_decide_eq_true in H1.
  assert (Hb0 : bots w2 !! b0
    = Some (mkBot RUN (buid bot0) (btype bot0) (Some a) (Some (nextHandle w))
                  (isDestroyed bot0))).
  { unfold w2. by rewrite (picked_up_bot b0 a _ bot0). }
  split; [|split; [|split]].
  - cbn [bots assign_bot set_bots log set_trace].
    rewrite list_lookup_alter_ne by done. by rewrite Hb0.
  - unfold holds. cbn [bots assign_bot set_bots log set_trace].
    rewrite list_lookup_alter_ne by done. by rewrite Hb0.
  - unfold isIdle. cbn [bots assign_bot set_bots log set_trace].
    rewrite list_lookup_alter_eq, Hb1. done.
  - apply shifted_None in Hs2. exact Hs2.
Qed.

(** C5. When an order is created, the Controller's subscriber enters
    Bot.processNextOrder once on every managed bot that is idle, in queue
    order, and on no other bot.  With two managed bots, both idle, and
    nothing pending, creating one normal order leaves the first bot RUN
    holding that order and the second bot IDLE. *)
Theorem controller_wakes_every_idle_bot :
  (∀ w, reachable w →
     pickups (trace (OrderManager.createNormalOrder w).2)
     = pickups (trace w) ++ filter (λ b, isIdle w b) (queue w)
     ∧ pickups (trace (OrderManager.createVipOrder w).2)
       = pickups (trace w) ++ filter (λ b, isIdle w b) (queue w))
  ∧ (∀ w b0 b1,
       reachable w → queue w = [b0; b1] →
       isIdle w b0 = true → isIdle w b1 = true → pending w = [] →
       let r := OrderManager.createNormalOrder w in
       bstatus <$> bots r.2 !! b0 = Some RUN ∧ holds r.2 b0 r.1
       ∧ isIdle r.2 b1 = true
       ∧ pickups (trace r.2) = pickups (trace w) ++ [b0; b1]).
Proof.
  assert (Hgen : ∀ w, reachable w →
     pickups (trace (OrderManager.createNormalOrder w).2)
     = pickups (trace w) ++ filter (λ b, isIdle w b) (queue w)
     ∧ pickups (trace (OrderManager.createVipOrder w).2)
       = pickups (trace w) ++ filter (λ b, isIdle w b) (queue w)).
  { intros w Hr. destruct (reachable_messageQueue w Hr) as [ks Hm].
    pose proof (inv_queue_nodup _ _ (reachable_Inv w Hr)) as Hnd.
    unfold OrderManager.createNormalOrder, OrderManager.createVipOrder,
      OrderManager.newOrder. cbn [fst snd].
    split; by rewrite (publish_added_pickups _ ks). }
  split; [exact Hgen|].
  intros w b0 b1 Hr Hq H0 H1 Hp. cbv zeta.
  destruct (reachable_messageQueue w Hr) as [ks Hm].
  pose proof (inv_queue_nodup _ _ (reachable_Inv w Hr)) as Hnd.
  assert (Hne : b0 ≠ b1).
  { rewrite Hq in Hnd. apply NoDup_cons in Hnd as [Hnd _]. set_solver. }
  unfold pending in Hp. apply app_eq_nil in Hp as [Hc Hp].
  apply app_eq_nil in Hp as [Hv Hn].
  split; [|split; [|split]];
    [| | |rewrite (proj1 (Hgen w Hr)), Hq, !filter_cons, H0, H1;
          by rewrite !decide_True by done].
  all: unfold OrderManager.createNormalOrder, OrderManager.newOrder;
    cbn [fst snd];
    match goal with
    | |- context [publish ORDER_ADDED ?W] =>
      rewrite (publish_added_eq W ks Hm)
    end;
    match goal with
    | |- context [after_controller ?W] =>
      destruct (wake_two_bots
        (log (Invoke 0 ORDER_ADDED (getOrderList W))
             (log (Publish ORDER_ADDED) W))
        b0 b1 (length (orders w)) Hne H0 H1 Hq Hc Hv
        ltac:(cbn; by rewrite Hn)) as (G1 & G2 & G3 & _)
    end.
  - exact G1.
  - exact G2.
  - exact G3.
Qed.

Lemma controller_wakes_every_idle_bot_witness :
  let w := run [Increase None; Increase (Some VIP)] init in
  (reachable w ∧ queue w = [0; 1] ∧ isIdle w 0 = true ∧ isIdle w 1 = true
   ∧ pending w = [])
  ∧ pickups (trace (OrderManager.createNormalOrder w).2)
    = pickups (trace w) ++ [0; 1]
  ∧ isIdle (OrderManager.createNormalOrder w).2 1 = true.
Proof.
  intros w.
  assert (Hr : reachable w) by (by eexists).
  assert (Hq : queue w = [0; 1]) by (vm_compute; reflexivity).
  assert (H0 : isIdle w 0 = true) by (vm_compute; reflexivity).
  assert (H1 : isIdle w 1 = true) by (vm_compute; reflexivity).
  assert (Hp : pending w = []) by (vm_compute; reflexivity).
  split; [repeat split; assumption|].
  destruct (proj2 controller_wakes_every_idle_bot w 0 1 Hr Hq H0 H1 Hp)
    as (_ & _ & G3 & G4).
  split; [exact G4|exact G3].
Defined.

(** ** C7: what a subscriber sees when ORDER_ADDED reaches it *)

Lemma invoked_app e t1 t2 : invoked e (t1 ++ t2) = invoked e t1 ++ invoked e t2.
Proof. apply omap_app. Qed.

Lemma invoked_invocations e seen i n :
  invoked e (invocations e seen i n) = (λ j, (j, seen)) <$> seq i n.
Proof.
  unfold invocations, invoked. revert i.
  induction n as [|n IH]; intros i; simpl; [done|].
  rewrite decide_True by done. f_equal. apply IH.
Qed.

Lemma invoked_invocations_ne e e' seen i n :
  e' ≠ e → invoked e (invocations e' seen i n) = [].
Proof.
  intros Hne. unfold invocations, invoked. revert i.
  induction n as [|n IH]; intros i; simpl; [done|].
  rewrite decide_False by done. apply IH.
Qed.

Lemma invoked_cons_Publish e e' t : invoked e (Publish e' :: t) = invoked e t.
Proof. reflexivity. Qed.

Lemma invoked_snoc_Publish e e' t : invoked e (t ++ [Publish e']) = invoked e t.
Proof. rewrite invoked_app. apply app_nil_r. Qed.

Lemma invoked_snoc_Pickup e b t : invoked e (t ++ [Pickup b]) = invoked e t.
Proof. rewrite invoked_app. apply app_nil_r. Qed.

Lemma invoked_snoc_Invoke e i seen t :
  invoked e (t ++ [Invoke i e seen]) = invoked e t ++ [(i, seen)].
Proof.
  rewrite invoked_app. f_equal. unfold invoked. simpl.
  by rewrite decide_True.
Qed.

Lemma invoked_quiet_entries_ne e e' t seen i n :
  e' ≠ e → invoked e (t ++ Publish e' :: invocations e' seen i n) = invoked e t.
Proof.
  intros Hne. rewrite invoked_app, invoked_cons_Publish.
  by rewrite invoked_invocations_ne, app_nil_r.
Qed.

Lemma invoked_Bot_processNextOrder b w :
  invoked ORDER_ADDED (trace (Bot.processNextOrder b w))
  = invoked ORDER_ADDED (trace w).
Proof.
  rewrite Bot_processNextOrder_shifted.
  destruct (shifted w) as [[x w']|] eqn:Hs.
  - destruct (shifted_Some _ _ _ Hs) as (c & v & n & -> & _).
    rewrite picked_up_trace, !invoked_quiet_entries_ne by done.
    change (trace (log (Pickup b) (set_pending c v n w)))
      with (trace w ++ [Pickup b]).
    apply invoked_snoc_Pickup.
  - change (trace (assign_bot b (with_bstatus IDLE) (log (Pickup b) w)))
      with (trace w ++ [Pickup b]).
    apply invoked_snoc_Pickup.
Qed.

Lemma invoked_controller_callback e w :
  invoked ORDER_ADDED (trace (controller_callback publish e w))
  = invoked ORDER_ADDED (trace w).
Proof.
  unfold controller_callback. case_match; [|done].
  apply (forEach_preserves
    (λ w', invoked ORDER_ADDED (trace w') = invoked ORDER_ADDED (trace w)));
    [|done].
  intros j b w' Hw'. case_match; [|done].
  fold Bot.processNextOrder. by rewrite invoked_Bot_processNextOrder.
Qed.

(** One subscriber called with ORDER_ADDED: one entry, with its index and
    the registry as it is at that moment. *)
Lemma invoked_invoke k s w :
  invoked ORDER_ADDED (trace (invoke publish ORDER_ADDED k s w))
  = invoked ORDER_ADDED (trace w) ++ [(k, getOrderList w)].
Proof.
  unfold invoke. destruct s.
  - rewrite invoked_controller_callback. unfold log. cbn [trace set_trace].
    apply invoked_snoc_Invoke.
  - unfold log. cbn [trace set_trace]. apply invoked_snoc_Invoke.
Qed.

Lemma invoked_forEach_invoke l k w :
  ∃ X, invoked ORDER_ADDED (trace (forEach (invoke publish ORDER_ADDED) k l w))
       = invoked ORDER_ADDED (trace w) ++ X
     ∧ X.*1 = seq k (length l).
Proof.
  revert k w. induction l as [|s l IH]; intros k w; cbn [forEach].
  - exists []. by rewrite app_nil_r.
  - destruct (IH (S k) (invoke publish ORDER_ADDED k s w)) as (X & -> & HX).
    exists ((k, getOrderList w) :: X). rewrite invoked_invoke, <- app_assoc.
    split; [done|]. rewrite fmap_cons. cbn [length seq fst]. by rewrite HX.
Qed.

(** A subscriber that leaves the engine alone: an observer, or the
    Controller's subscriber when no managed bot is idle. *)
Lemma invoke_inert k s w :
  s ≠ ControllerCallback ∨ hasIdleBot w = false →
  invoke publish ORDER_ADDED k s w
  = log (Invoke k ORDER_ADDED (getOrderList w)) w.
Proof.
  intros Hs. unfold invoke. destruct s as [|j]; [|done].
  destruct Hs as [?|Hi]; [done|]. unfold controller_callback.
  change (hasIdleBot (log (Invoke k ORDER_ADDED (getOrderList w)) w))
    with (hasIdleBot w).
  by rewrite Hi, andb_false_r.
Qed.

Lemma seen_forEach_invoke l k w i :
  i < length l →
  hasIdleBot w = false ∨ ControllerCallback ∉ take i l →
  invoked ORDER_ADDED (trace (forEach (invoke publish ORDER_ADDED) k l w))
    !! (length (invoked ORDER_ADDED (trace w)) + i)
  = Some (k + i, getOrderList w).
Proof.
  revert k w i. induction l as [|s l IH]; intros k w i Hi Hc; [simpl in Hi; lia|].
  cbn [forEach]. destruct i as [|i].
  - destruct (invoked_forEach_invoke l (S k) (invoke publish ORDER_ADDED k s w))
      as (X & -> & _).
    rewrite invoked_invoke, <- app_assoc, Nat.add_0_r, Nat.add_0_r.
    by rewrite lookup_app_r, Nat.sub_diag by lia.
  - assert (Hin : s ≠ ControllerCallback ∨ hasIdleBot w = false).
    { destruct Hc as [?|Hc]; [by right|]. left. intros ->.
      apply Hc. simpl. apply elem_of_cons. by left. }
    rewrite (invoke_inert k s w Hin).
    pose proof (IH (S k) (log (Invoke k ORDER_ADDED (getOrderList w)) w) i
      ltac:(simpl in Hi; lia)) as IH'.
    change (hasIdleBot (log (Invoke k ORDER_ADDED (getOrderList w)) w))
      with (hasIdleBot w) in IH'.
    change (getOrderList (log (Invoke k ORDER_ADDED (getOrderList w)) w))
      with (getOrderList w) in IH'.
    change (trace (log (Invoke k ORDER_ADDED (getOrderList w)) w))
      with (trace w ++ [Invoke k ORDER_ADDED (getOrderList w)]) in IH'.
    rewrite invoked_snoc_Invoke in IH'.
    rewrite length_app in IH'. cbn [length] in IH'.
    replace (length (invoked ORDER_ADDED (trace w)) + S i)
      with (length (invoked ORDER_ADDED (trace w)) + 1 + i) by lia.
    replace (k + S i) with (S k + i) by lia.
    apply IH'. destruct Hc as [?|Hc]; [by left|right].
    intros Hin'. apply Hc. simpl. apply elem_of_cons. by right.
Qed.

(** Every subscriber is called, in registration order, before [publish]
    returns. *)
Lemma publish_invokes_in_order e w :
  (invoked e (trace (publish e w))).*1
  = (invoked e (trace w)).*1 ++ seq 0 (length (messageQueue w)).
Proof.
  destruct (decide (e = ORDER_ADDED)) as [->|He].
  - rewrite publish_unfold. unfold publish_body.
    destruct (invoked_forEach_invoke (messageQueue w) 0
                (log (Publish ORDER_ADDED) w)) as (X & E & HX).
    change (messageQueue (log (Publish ORDER_ADDED) w)) with (messageQueue w).
    rewrite E, fmap_app, HX. unfold log. cbn [trace set_trace].
    by rewrite invoked_snoc_Publish.
  - rewrite publish_quiet by done. unfold quiet_publish. cbn [trace set_trace].
    rewrite invoked_app, invoked_cons_Publish.
    rewrite invoked_invocations, fmap_app. f_equal.
    rewrite <- list_fmap_compose. apply list_fmap_id.
Qed.

(** What the subscriber at index [i] sees when ORDER_ADDED is published in
    state [w], if nothing before it moved the registry. *)
Lemma publish_added_seen w i :
  i < length (messageQueue w) →
  hasIdleBot w = false ∨ ControllerCallback ∉ take i (messageQueue w) →
  invoked ORDER_ADDED (trace (publish ORDER_ADDED w))
    !! (length (invoked ORDER_ADDED (trace w)) + i)
  = Some (i, getOrderList w).
Proof.
  intros Hi Hc. rewrite publish_unfold. unfold publish_body.
  pose proof (seen_forEach_invoke (messageQueue w) 0
                (log (Publish ORDER_ADDED) w) i Hi Hc) as H.
  change (trace (log (Publish ORDER_ADDED) w))
    with (trace w ++ [Publish ORDER_ADDED]) in H.
  rewrite invoked_snoc_Publish in H. exact H.
Qed.

(** The subscriber of [App.tsx] is registered after the Controller's.  With
    one idle bot, the bot has taken the new order out of queueNormalOrder
    by the time ORDER_ADDED reaches that subscriber: getOrderList is empty
    then. *)
Lemma observer_after_controller_misses_order :
  let w := run [Increase None; Subscribe 7] init in
  let r := OrderManager.createNormalOrder w in
  messageQueue w = [ControllerCallback; Observer 7]
  ∧ r.1 = 0
  ∧ drop (length (trace w)) (trace r.2)
    = [Publish ORDER_ADDED; Invoke 0 ORDER_ADDED [0];
       Pickup 0;
       Publish ORDER_UPDATED; Invoke 0 ORDER_UPDATED []; Invoke 1 ORDER_UPDATED [];
       Publish ORDER_COUNTER; Invoke 0 ORDER_COUNTER []; Invoke 1 ORDER_COUNTER [];
       Invoke 1 ORDER_ADDED []]
  ∧ ¬ (∀ i seen, Invoke i ORDER_ADDED seen ∈ trace r.2 → r.1 ∈ seen).
Proof.
  intros w r.
  assert (Ht : drop (length (trace w)) (trace r.2)
    = [Publish ORDER_ADDED; Invoke 0 ORDER_ADDED [0];
       Pickup 0;
       Publish ORDER_UPDATED; Invoke 0 ORDER_UPDATED []; Invoke 1 ORDER_UPDATED [];
       Publish ORDER_COUNTER; Invoke 0 ORDER_COUNTER []; Invoke 1 ORDER_COUNTER [];
       Invoke 1 ORDER_ADDED []]) by (vm_compute; reflexivity).
  split; [vm_compute; reflexivity|]. split; [vm_compute; reflexivity|].
  split; [exact Ht|].
  intros H. specialize (H 1 []).
  assert (Hin : Invoke 1 ORDER_ADDED [] ∈ trace r.2).
  { rewrite <- (take_drop (length (trace w)) (trace r.2)), Ht.
    apply elem_of_app. right. apply list_elem_of_lookup. by exists 9. }
  apply H in Hin. by apply elem_of_nil in Hin.
Qed.

(** C7 (as the code has it). [publish] calls every subscriber, in
    registration order, before it returns.  When createNormalOrder or
    createVipOrder publishes ORDER_ADDED, a subscriber sees the new order in
    getOrderList if no managed bot is idle or if the Controller's subscriber
    is not registered before it. *)
Theorem subscribers_called_in_order_and_see_new_order :
  (∀ e w, (invoked e (trace (publish e w))).*1
          = (invoked e (trace w)).*1 ++ seq 0 (length (messageQueue w)))
  ∧ (∀ w i,
       i < length (messageQueue w) →
       hasIdleBot w = false ∨ ControllerCallback ∉ take i (messageQueue w) →
       let n := length (invoked ORDER_ADDED (trace w)) in
       (∃ seen,
          invoked ORDER_ADDED (trace (OrderManager.createNormalOrder w).2)
            !! (n + i) = Some (i, seen)
          ∧ (OrderManager.createNormalOrder w).1 ∈ seen)
       ∧ (∃ seen,
          invoked ORDER_ADDED (trace (OrderManager.createVipOrder w).2)
            !! (n + i) = Some (i, seen)
          ∧ (OrderManager.createVipOrder w).1 ∈ seen)).
Proof.
  split; [exact publish_invokes_in_order|].
  intros w i Hi Hc. cbv zeta.
  unfold OrderManager.createNormalOrder, OrderManager.createVipOrder,
    OrderManager.newOrder. cbn [fst snd].
  split.
  - eexists. split.
    + match goal with
      | |- context [publish ORDER_ADDED ?W] =>
        exact (publish_added_seen W i Hi Hc)
      end.
    + unfold getOrderList. cbn.
      rewrite !elem_of_app, list_elem_of_singleton. tauto.
  - eexists. split.
    + match goal with
      | |- context [publish ORDER_ADDED ?W] =>
        exact (publish_added_seen W i Hi Hc)
      end.
    + unfold getOrderList. cbn.
      rewrite !elem_of_app, list_elem_of_singleton. tauto.
Qed.

Lemma subscribers_called_in_order_and_see_new_order_witness :
  let w := run [Subscribe 7; CreateVipOrder; Increase None] init in
  (1 < length (messageQueue w)
   ∧ (hasIdleBot w = false ∨ ControllerCallback ∉ take 1 (messageQueue w)))
  ∧ ∃ seen,
      invoked ORDER_ADDED (trace (OrderManager.createNormalOrder w).2)
        !! (length (invoked ORDER_ADDED (trace w)) + 1) = Some (1, seen)
      ∧ (OrderManager.createNormalOrder w).1 ∈ seen.
Proof.
  intros w.
  assert (Hi : 1 < length (messageQueue w)) by (vm_compute; lia).
  assert (Hc : hasIdleBot w = false
               ∨ ControllerCallback ∉ take 1 (messageQueue w)).
  { left. vm_compute. reflexivity. }
  split; [by split|].
  exact (proj1 (proj2 subscribers_called_in_order_and_see_new_order w 1 Hi Hc)).
Defined.

(** * Further properties of the engine *)

(** ** Creating an order while no managed bot is idle *)

Lemma forEach_invoke_inert l k t w :
  hasIdleBot w = false →
  forEach (invoke publish ORDER_ADDED) k l (set_trace t w)
  = set_trace (t ++ invocations ORDER_ADDED (getOrderList w) k (length l)) w.
Proof.
  intros Hi. revert k t. induction l as [|s l IH]; intros k t.
  - unfold invocations; simpl. by rewrite app_nil_r.
  - cbn [forEach length]. rewrite invoke_inert by (by right).
    change (log (Invoke k ORDER_ADDED (getOrderList (set_trace t w)))
              (set_trace t w))
      with (set_trace (t ++ [Invoke k ORDER_ADDED (getOrderList w)]) w).
    rewrite IH. unfold invocations; simpl. by rewrite <- app_assoc.
Qed.

Lemma publish_added_inert w :
  hasIdleBot w = false → publish ORDER_ADDED w = quiet_publish ORDER_ADDED w.
Proof.
  intros Hi. rewrite publish_unfold. unfold publish_body, log, quiet_publish.
  change (messageQueue (set_trace (trace w ++ [Publish ORDER_ADDED]) w))
    with (messageQueue w).
  rewrite (forEach_invoke_inert _ _ _ w Hi). by rewrite <- app_assoc.
Qed.

(** X1. When no managed bot is idle (in particular when there is no bot),
    createNormalOrder and createVipOrder only enqueue: a new Order object
    (PENDING, counter 0, the next uid, the requested type) goes to the tail
    of its queue, ORDER_ADDED is the one event published, no bot attempts a
    pickup, and bots and intervals are untouched. *)
Theorem create_only_enqueues_when_no_bot_idle (w : World) :
  hasIdleBot w = false →
  let n := OrderManager.createNormalOrder w in
  let v := OrderManager.createVipOrder w in
  (n.1 = length (orders w)
   ∧ orders n.2 = orders w ++ [mkOrder PENDING (orderUid w) NORMAL 0]
   ∧ queueNormalOrder n.2 = queueNormalOrder w ++ [n.1]
   ∧ queueVipOrder n.2 = queueVipOrder w
   ∧ queueCache n.2 = queueCache w ∧ queueComplete n.2 = queueComplete w
   ∧ bots n.2 = bots w ∧ timers n.2 = timers w
   ∧ published (trace n.2) = published (trace w) ++ [ORDER_ADDED]
   ∧ pickups (trace n.2) = pickups (trace w))
  ∧ (v.1 = length (orders w)
   ∧ orders v.2 = orders w ++ [mkOrder PENDING (orderUid w) VIP 0]
   ∧ queueVipOrder v.2 = queueVipOrder w ++ [v.1]
   ∧ queueNormalOrder v.2 = queueNormalOrder w
   ∧ queueCache v.2 = queueCache w ∧ queueComplete v.2 = queueComplete w
   ∧ bots v.2 = bots w ∧ timers v.2 = timers w
   ∧ published (trace v.2) = published (trace w) ++ [ORDER_ADDED]
   ∧ pickups (trace v.2) = pickups (trace w)).
Proof.
  intros Hi. cbv zeta.
  unfold OrderManager.createNormalOrder, OrderManager.createVipOrder,
    OrderManager.newOrder. cbn [fst snd].
  split.
  - match goal with
    | |- context [publish ORDER_ADDED ?W] =>
      rewrite (publish_added_inert W Hi)
    end.
    repeat split; try reflexivity.
    + apply published_quiet_entries.
    + apply pickups_quiet_entries.
  - match goal with
    | |- context [publish ORDER_ADDED ?W] =>
      rewrite (publish_added_inert W Hi)
    end.
    repeat split; try reflexivity.
    + apply published_quiet_entries.
    + apply pickups_quiet_entries.
Qed.

Lemma create_only_enqueues_when_no_bot_idle_witness :
  let w := run [CreateVipOrder; Increase None; CreateNormalOrder] init in
  hasIdleBot w = false
  ∧ queueNormalOrder (OrderManager.createNormalOrder w).2
    = queueNormalOrder w ++ [(OrderManager.createNormalOrder w).1]
  ∧ bots (OrderManager.createVipOrder w).2 = bots w.
Proof.
  intros w.
  assert (Hi : hasIdleBot w = false) by (vm_compute; reflexivity).
  split; [exact Hi|].
  destruct (create_only_enqueues_when_no_bot_idle w Hi)
    as [(_ & _ & Hn & _) (_ & _ & _ & _ & _ & _ & Hv & _)].
  split; [exact Hn|exact Hv].
Defined.

(** ** A running bot is not disturbed by new orders *)

Lemma publish_keeps_running e w b bot :
  bots w !! b = Some bot → bstatus bot = RUN →
  (∀ h v, timers w !! h = Some v → h < nextHandle w) →
  bots (publish e w) !! b = Some bot
  ∧ (∀ h v, timers w !! h = Some v → timers (publish e w) !! h = Some v).
Proof.
  intros Hb Hr Hlt.
  enough (bots (publish e w) !! b = Some bot
          ∧ (∀ h v, timers w !! h = Some v →
                    timers (publish e w) !! h = Some v)
          ∧ nextHandle w ≤ nextHandle (publish e w)) as (? & ? & _) by done.
  apply (publish_preserves
    (λ w', bots w' !! b = Some bot
           ∧ (∀ h v, timers w !! h = Some v → timers w' !! h = Some v)
           ∧ nextHandle w ≤ nextHandle w')); [done| |done].
  intros b' w' (Hb' & Ht' & Hn') _ Hidle.
  assert (Hne : b' ≠ b).
  { intros ->. unfold isIdle in Hidle. rewrite Hb' in Hidle.
    apply bool_decide_eq_true in Hidle. congruence. }
  rewrite Bot_processNextOrder_shifted.
  destruct (shifted w') as [[x w'']|] eqn:Hs.
  - destruct (shifted_Some _ _ _ Hs) as (c & v & n & -> & _).
    rewrite picked_up_other by done. rewrite picked_up_timers.
    split; [exact Hb'|]. split.
    + intros h v0 Hh. rewrite lookup_insert_ne; [by apply Ht'|].
      apply Hlt in Hh.
      change (nextHandle (log (Pickup b') (set_pending c v n w')))
        with (nextHandle w'). lia.
    + change (nextHandle (picked_up b' x (log (Pickup b') (set_pending c v n w'))))
        with (S (nextHandle w')). lia.
  - cbn [bots timers nextHandle assign_bot set_bots log set_trace].
    rewrite list_lookup_alter_ne by done. done.
Qed.

(** X2. The Controller starts work only on idle bots: in every reachable
    state, creating an order leaves every bot that is RUN exactly as it was
    (same order, same counter handle) and keeps every active interval. *)
Theorem create_does_not_disturb_running_bots (w : World) (b : bref) (bot : Bot) :
  reachable w → bots w !! b = Some bot → bstatus bot = RUN →
  let n := OrderManager.createNormalOrder w in
  let v := OrderManager.createVipOrder w in
  bots n.2 !! b = Some bot ∧ bots v.2 !! b = Some bot
  ∧ (∀ h c, timers w !! h = Some c →
       timers n.2 !! h = Some c ∧ timers v.2 !! h = Some c).
Proof.
  intros Hreach Hb Hr. cbv zeta.
  pose proof (reachable_Inv w Hreach) as HI.
  assert (Hlt : ∀ h c, timers w !! h = Some c → h < nextHandle w).
  { intros h [b' x] Ht. by destruct (inv_timers _ _ HI _ _ _ Ht). }
  unfold OrderManager.createNormalOrder, OrderManager.createVipOrder,
    OrderManager.newOrder. cbn [fst snd].
  match goal with
  | |- context [publish ORDER_ADDED ?W] =>
    destruct (publish_keeps_running ORDER_ADDED W b bot Hb Hr Hlt) as [Hn1 Hn2]
  end.
  split; [exact Hn1|].
  match goal with
  | |- context [publish ORDER_ADDED ?W ] =>
    lazymatch W with
    | context [VIP] =>
      destruct (publish_keeps_running ORDER_ADDED W b bot Hb Hr Hlt)
        as [Hv1 Hv2]
    end
  end.
  split; [exact Hv1|].
  intros h c Hh. split; [by apply Hn2|by apply Hv2].
Qed.

Lemma create_does_not_disturb_running_bots_witness :
  let w := run [CreateNormalOrder; Increase None; Increase (Some VIP)] init in
  let bot := mkBot RUN 0 NORMAL (Some 0) (Some 1) None in
  (reachable w ∧ bots w !! 0 = Some bot ∧ bstatus bot = RUN)
  ∧ bots (OrderManager.createVipOrder w).2 !! 0 = Some bot.
Proof.
  intros w bot.
  assert (Hr : reachable w) by (by eexists).
  assert (Hb : bots w !! 0 = Some bot) by (vm_compute; reflexivity).
  split; [by repeat split|].
  exact (proj1 (proj2
    (create_does_not_disturb_running_bots w 0 bot Hr Hb eq_refl))).
Defined.

(** ** Controller.increase and Controller.decrease *)

Lemma shifted_set_bots B w :
  shifted (set_bots B w)
  = (λ xw : oref * World, (xw.1, set_bots B xw.2)) <$> shifted w.
Proof.
  unfold shifted; simpl.
  by destruct (queueCache w), (queueVipOrder w), (queueNormalOrder w).
Qed.

Lemma shifted_set_botUid u w :
  shifted (set_botUid u w)
  = (λ xw : oref * World, (xw.1, set_botUid u xw.2)) <$> shifted w.
Proof.
  unfold shifted; simpl.
  by destruct (queueCache w), (queueVipOrder w), (queueNormalOrder w).
Qed.

Lemma shifted_set_queue q w :
  shifted (set_queue q w)
  = (λ xw : oref * World, (xw.1, set_queue q xw.2)) <$> shifted w.
Proof.
  unfold shifted; simpl.
  by destruct (queueCache w), (queueVipOrder w), (queueNormalOrder w).
Qed.

Lemma Controller_increase_eq params w :
  Controller.increase params w
  = (length (bots w),
     set_queue (queue w ++ [length (bots w)])
       (Bot.processNextOrder (length (bots w))
          (with_new_bot (default NORMAL params) w))).
Proof.
  unfold Controller.increase, Bot.new. cbn [fst snd].
  f_equal. f_equal. f_equal.
  by rewrite (proj1 (Bot_processNextOrder_frame _ _)).
Qed.

Lemma pending_Bot_processNextOrder b w :
  pending (Bot.processNextOrder b w) = tail (pending w).
Proof.
  rewrite Bot_processNextOrder_shifted.
  destruct (shifted w) as [[x w']|] eqn:Hs.
  - destruct (shifted_Some _ _ _ Hs) as (c & v & n & -> & ->). reflexivity.
  - apply shifted_None in Hs.
    change (pending (assign_bot b (with_bstatus IDLE) (log (Pickup b) w)))
      with (pending w). by rewrite Hs.
Qed.

Lemma pending_increase params w :
  pending (Controller.increase params w).2 = tail (pending w).
Proof.
  rewrite Controller_increase_eq. cbn [snd].
  change (pending (Bot.processNextOrder (length (bots w))
                     (with_new_bot (default NORMAL params) w))
          = tail (pending (with_new_bot (default NORMAL params) w))).
  apply pending_Bot_processNextOrder.
Qed.

(* What Controller.increase does, in full; the bot's constructor picks up
   at once. *)
Lemma Controller_increase_effect (w : World)
    (params : option BotType) :
  let r := Controller.increase params w in
  let t := default NORMAL params in
  r.1 = length (bots w)
  ∧ Controller.getBots r.2 = Controller.getBots w ++ [r.1]
  ∧ botUid r.2 = S (botUid w)
  ∧ (∀ b bot, bots w !! b = Some bot → bots r.2 !! b = Some bot)
  ∧ match pending w with
    | x :: rest =>
      bots r.2 !! r.1
      = Some (mkBot RUN (botUid w) t (Some x) (Some (nextHandle w)) None)
      ∧ pending r.2 = rest
      ∧ timers r.2 = <[nextHandle w := (r.1, x)]> (timers w)
    | [] =>
      bots r.2 !! r.1 = Some (mkBot IDLE (botUid w) t None None None)
      ∧ timers r.2 = timers w
      ∧ published (trace r.2) = published (trace w)
    end.
Proof.
  cbv zeta. rewrite Controller_increase_eq. cbn [fst snd].
  set (a := length (bots w)). set (t := default NORMAL params).
  set (W := with_new_bot t w).
  assert (Ha : bots W !! a = Some (mkBot IDLE (botUid w) t None None None)).
  { unfold W, with_new_bot. cbn [bots set_bots]. by apply list_lookup_middle. }
  assert (Hold : ∀ b bot, bots w !! b = Some bot →
                 bots W !! b = Some bot ∧ b ≠ a).
  { intros b bot Hb. split.
    - unfold W, with_new_bot. cbn [bots set_bots]. by apply lookup_app_l_Some.
    - apply lookup_lt_Some in Hb. unfold a. lia. }
  assert (Hsh : shifted W
    = (λ xw : oref * World,
         (xw.1, set_bots (bots W) (set_botUid (botUid W) xw.2))) <$> shifted w).
  { unfold W, with_new_bot. rewrite shifted_set_bots, shifted_set_botUid.
    by destruct (shifted w) as [[??]|]. }
  split; [reflexivity|]. split; [reflexivity|].
  split.
  { change (botUid (Bot.processNextOrder a W) = S (botUid w)).
    by rewrite (proj1 (proj2 (proj2 (proj2 (Bot_processNextOrder_frame a W))))). }
  split.
  { intros b bot Hb. destruct (Hold b bot Hb) as [HbW Hne].
    change (bots (Bot.processNextOrder a W) !! b = Some bot).
    rewrite bots_Bot_processNextOrder_other by done. exact HbW. }
  change (bots (set_queue (queue w ++ [a]) (Bot.processNextOrder a W)))
    with (bots (Bot.processNextOrder a W)).
  change (pending (set_queue (queue w ++ [a]) (Bot.processNextOrder a W)))
    with (pending (Bot.processNextOrder a W)).
  change (timers (set_queue (queue w ++ [a]) (Bot.processNextOrder a W)))
    with (timers (Bot.processNextOrder a W)).
  change (trace (set_queue (queue w ++ [a]) (Bot.processNextOrder a W)))
    with (trace (Bot.processNextOrder a W)).
  rewrite Bot_processNextOrder_shifted, Hsh.
  destruct (shifted w) as [[x w']|] eqn:Hs.
  - destruct (shifted_Some _ _ _ Hs) as (c & v & n & -> & Hp).
    rewrite Hp. cbn [fmap option_fmap option_map fst snd].
    set (W' := log (Pickup a) _).
    split; [|split].
    + by rewrite (picked_up_bot a x W' _ Ha).
    + reflexivity.
    + rewrite picked_up_timers. reflexivity.
  - apply shifted_None in Hs. rewrite Hs.
    cbn [fmap option_fmap option_map].
    split; [|split].
    + cbn [bots assign_bot set_bots log set_trace].
      rewrite list_lookup_alter_eq, Ha. reflexivity.
    + reflexivity.
    + change (trace (assign_bot a (with_bstatus IDLE) (log (Pickup a) W)))
        with (trace w ++ [Pickup a]).
      rewrite published_app. apply app_nil_r.
Qed.


Lemma Bot_destroy_frame b w :
  let w' := Bot.destroy b w in
  queue w' = queue w ∧ orders w' = orders w
  ∧ queueVipOrder w' = queueVipOrder w
  ∧ queueNormalOrder w' = queueNormalOrder w
  ∧ queueComplete w' = queueComplete w
  ∧ pickups (trace w') = pickups (trace w)
  ∧ (∀ b', b' ≠ b → bots w' !! b' = bots w !! b').
Proof.
  cbv zeta. unfold Bot.destroy. fold (clear_handle b w).
  assert (Hw1 : queue (clear_handle b w) = queue w
    ∧ orders (clear_handle b w) = orders w
    ∧ queueVipOrder (clear_handle b w) = queueVipOrder w
    ∧ queueNormalOrder (clear_handle b w) = queueNormalOrder w
    ∧ queueComplete (clear_handle b w) = queueComplete w
    ∧ trace (clear_handle b w) = trace w
    ∧ bots (clear_handle b w) = bots w).
  { unfold clear_handle. by destruct (_ ≫= _). }
  destruct Hw1 as (H1 & H2 & H3 & H4 & H5 & H6 & H7).
  destruct (bots (clear_handle b w) !! b ≫= currentOrder) as [x|].
  - unfold OrderManager.updateCache. rewrite publish_quiet by done.
    cbn [queue orders queueVipOrder queueNormalOrder queueComplete trace bots
         assign_bot set_bots quiet_publish set_trace set_queueCache].
    rewrite pickups_quiet_entries, H6.
    repeat split; try done.
    intros b' Hne. by rewrite !list_lookup_alter_ne, H7.
  - by rewrite H1, H2, H3, H4, H5, H6, H7.
Qed.

(** X4. Controller.decrease removes the most recently added bot from the
    managed list (the list is unchanged when it is empty) and touches no
    other bot; it never makes a bot attempt a pickup, and it changes no
    field of any order and none of queueVipOrder, queueNormalOrder,
    queueComplete: at most one order moves, to queueCache. *)
Theorem decrease_pops_last_bot (w : World) :
  let w' := Controller.decrease w in
  Controller.getBots w' = removelast (Controller.getBots w)
  ∧ (∀ b, last (queue w) ≠ Some b → bots w' !! b = bots w !! b)
  ∧ pickups (trace w') = pickups (trace w)
  ∧ orders w' = orders w
  ∧ queueVipOrder w' = queueVipOrder w
  ∧ queueNormalOrder w' = queueNormalOrder w
  ∧ queueComplete w' = queueComplete w
  ∧ (queue w = [] → w' = w).
Proof.
  cbv zeta. unfold Controller.decrease, Controller.getBots.
  destruct (last (queue w)) as [b|] eqn:Hl.
  - destruct (Bot_destroy_frame b (set_queue (removelast (queue w)) w))
      as (H1 & H2 & H3 & H4 & H5 & H6 & H7).
    rewrite H1, H2, H3, H4, H5, H6. repeat split; try done.
    + intros b' Hb'. rewrite H7; [done|]. congruence.
    + intros Hq. rewrite Hq in Hl. done.
  - apply last_None in Hl. rewrite Hl. done.
Qed.

Lemma decrease_pops_last_bot_witness :
  let w := run [CreateNormalOrder; Increase None; Increase None] init in
  let e := run [] init in
  (last (queue w) ≠ Some 0 ∧ queue e = [])
  ∧ bots (Controller.decrease w) !! 0 = bots w !! 0
  ∧ Controller.decrease e = e.
Proof.
  intros w e.
  assert (Hl : last (queue w) ≠ Some 0) by (vm_compute; intros [=]).
  assert (He : queue e = []) by (vm_compute; reflexivity).
  split; [by split|]. split.
  - destruct (decrease_pops_last_bot w) as (_ & H & _). exact (H 0 Hl).
  - destruct (decrease_pops_last_bot e) as (_ & _ & _ & _ & _ & _ & _ & H).
    exact (H He).
Defined.

(** X5. Adding a bot and removing it again leaves the pending orders in the
    same priority order: the order the new bot had taken is handed back to
    the head of queueCache, which is where the next bot looks first.  The
    managed list, queueComplete and the existing bots are as before. *)
Theorem increase_then_decrease_restores_pending (w : World)
    (params : option BotType) :
  let w' := Controller.decrease (Controller.increase params w).2 in
  pending w' = pending w
  ∧ Controller.getBots w' = Controller.getBots w
  ∧ queueComplete w' = queueComplete w
  ∧ (∀ b bot, bots w !! b = Some bot → bots w' !! b = Some bot).
Proof.
  cbv zeta.
  destruct (Controller_increase_effect w params)
    as (Hr & Hq & _ & Hold & Hnew).
  set (r := Controller.increase params w) in *.
  unfold Controller.getBots in *.
  unfold Controller.decrease. rewrite Hq, last_snoc, removelast_last.
  set (W := set_queue (queue w) r.2).
  assert (HqC : queueComplete r.2 = queueComplete w).
  { unfold r. rewrite Controller_increase_eq. cbn [snd queueComplete set_queue].
    by rewrite (proj1 (proj2 (proj2 (proj2 (proj2
      (Bot_processNextOrder_frame _ _)))))). }
  destruct (Bot_destroy_frame r.1 W) as (H1 & _ & H3 & H4 & H5 & _ & H7).
  split; [|split; [done|split]].
  - unfold pending. rewrite H3, H4.
    change (queueVipOrder W) with (queueVipOrder r.2).
    change (queueNormalOrder W) with (queueNormalOrder r.2).
    assert (Hcache : queueCache (Bot.destroy r.1 W)
      = match bots r.2 !! r.1 ≫= currentOrder with
        | Some x => x :: queueCache r.2
        | None => queueCache r.2
        end).
    { unfold Bot.destroy. fold (clear_handle r.1 W).
      assert (bots (clear_handle r.1 W) = bots r.2
              ∧ queueCache (clear_handle r.1 W) = queueCache r.2) as [-> Hc].
      { unfold clear_handle. by destruct (_ ≫= _). }
      destruct (bots r.2 !! r.1 ≫= currentOrder) as [x|]; [|done].
      unfold OrderManager.updateCache. rewrite publish_quiet by done.
      cbn [queueCache assign_bot set_bots quiet_publish set_trace
           set_queueCache]. by rewrite Hc. }
    rewrite Hcache. fold (pending w).
    destruct (pending w) as [|x rest] eqn:Hp.
    + destruct Hnew as (Hb & _ & _). rewrite Hb.
      cbn [mbind option_bind currentOrder].
      change (pending r.2 = []).
      unfold r. by rewrite pending_increase, Hp.
    + destruct Hnew as (Hb & Hrest & _). rewrite Hb.
      cbn [mbind option_bind currentOrder].
      change (x :: pending r.2 = x :: rest). by rewrite Hrest.
  - by rewrite H5.
  - intros b bot Hb. rewrite H7.
    + change (bots W) with (bots r.2). by apply Hold.
    + apply lookup_lt_Some in Hb. rewrite Hr. lia.
Qed.


Lemma increase_then_decrease_restores_pending_witness :
  let w := run [CreateNormalOrder; CreateVipOrder; Increase None] init in
  let w' := Controller.decrease (Controller.increase (Some VIP) w).2 in
  bots w !! 0 = Some (mkBot RUN 0 NORMAL (Some 1) (Some 1) None)
  ∧ bots w' !! 0 = Some (mkBot RUN 0 NORMAL (Some 1) (Some 1) None)
  ∧ pending w' = pending w.
Proof.
  intros w w'.
  assert (Hb : bots w !! 0 = Some (mkBot RUN 0 NORMAL (Some 1) (Some 1) None))
    by (vm_compute; reflexivity).
  split; [exact Hb|].
  destruct (increase_then_decrease_restores_pending w (Some VIP))
    as (Hp & _ & _ & Hold).
  split; [exact (Hold 0 _ Hb)|exact Hp].
Defined.

(** ** The uids of bots *)

Lemma publish_botUid e w : botUid (publish e w) = botUid w.
Proof.
  apply (publish_preserves (λ w', botUid w' = botUid w)); [done| |done].
  intros b w' Hw' _ _.
  by rewrite (proj1 (proj2 (proj2 (proj2 (Bot_processNextOrder_frame b w'))))).
Qed.

Lemma step_botUid op w :
  botUid (step op w) = if is_increase op then S (botUid w) else botUid w.
Proof.
  destruct op as [| |k|params| |h]; cbn [step is_increase].
  - unfold OrderManager.createNormalOrder, OrderManager.newOrder.
    cbn [fst snd]. by rewrite publish_botUid.
  - unfold OrderManager.createVipOrder, OrderManager.newOrder.
    cbn [fst snd]. by rewrite publish_botUid.
  - reflexivity.
  - by destruct (Controller_increase_effect w params)
      as (_ & _ & ? & _).
  - unfold Controller.decrease, Bot.destroy, OrderManager.updateCache.
    repeat case_match; rewrite ?publish_quiet by done; reflexivity.
  - unfold tick. destruct (timers w !! h) as [[b x]|]; [|done].
    unfold Bot.interval_callback. rewrite publish_quiet by done.
    case_bool_decide; [|done].
    rewrite (proj1 (proj2 (proj2 (proj2 (Bot_processNextOrder_frame _ _))))).
    unfold Bot.completeOrder, OrderManager.completeOrder.
    repeat case_match; rewrite ?publish_quiet by done; reflexivity.
Qed.

Lemma buid_of_increase params w :
  buid_of (Controller.increase params w) = [botUid w].
Proof.
  unfold buid_of.
  destruct (Controller_increase_effect w params)
    as (_ & _ & _ & _ & Hnew).
  destruct (pending w); destruct Hnew as [-> _]; reflexivity.
Qed.

Lemma created_bot_uids_seq ops w :
  created_bot_uids ops w = seq (botUid w) (length (filter is_increase ops)).
Proof.
  revert w; induction ops as [|op ops IH]; intros w; [done|].
  cbn [created_bot_uids]. rewrite IH, step_botUid.
  destruct op; try reflexivity.
  rewrite buid_of_increase. reflexivity.
Qed.

(** X6. Along every run from the freshly loaded program the uids of the bots
    that Controller.increase returns are 0, 1, 2, ... in creation order,
    whatever their type and whatever happens in between (bots being
    destroyed does not free a uid); the bot counter is separate from the
    order counter. *)
Theorem created_bot_uids_increasing_from_0 (ops : list Op) :
  created_bot_uids ops init = seq 0 (length (filter is_increase ops))
  ∧ NoDup (created_bot_uids ops init).
Proof.
  rewrite created_bot_uids_seq. split; [reflexivity|].
  apply NoDup_seq.
Qed.

(** ** The whole countdown *)

Lemma Bot_processNextOrder_status b w a :
  status <$> orders (Bot.processNextOrder b w) !! a = status <$> orders w !! a.
Proof.
  rewrite Bot_processNextOrder_shifted.
  destruct (shifted w) as [[x w']|] eqn:Hs.
  - destruct (shifted_Some _ _ _ Hs) as (c & v & n & -> & _).
    rewrite picked_up_orders.
    change (orders (log (Pickup b) (set_pending c v n w))) with (orders w).
    destruct (decide (a = x)) as [->|Hne].
    + rewrite list_lookup_alter_eq. by destruct (orders w !! x).
    + by rewrite list_lookup_alter_ne.
  - reflexivity.
Qed.

Lemma Bot_processNextOrder_timers_old b w h :
  h ≠ nextHandle w →
  timers (Bot.processNextOrder b w) !! h = timers w !! h.
Proof.
  intros Hne. rewrite Bot_processNextOrder_shifted.
  destruct (shifted w) as [[x w']|] eqn:Hs.
  - destruct (shifted_Some _ _ _ Hs) as (c & v & n & -> & _).
    rewrite picked_up_timers.
    change (nextHandle (log (Pickup b) (set_pending c v n w)))
      with (nextHandle w).
    by rewrite lookup_insert_ne.
  - reflexivity.
Qed.

Lemma published_replicate_snoc (n : nat) (e : EventType) l :
  (l ++ replicate n e) ++ [e] = l ++ replicate (S n) e.
Proof.
  rewrite <- app_assoc. f_equal.
  induction n as [|n IH]; [done|]. simpl. by rewrite IH.
Qed.

(** While the counter has not reached 0: [n] firings of the bot's interval
    take [n] off the counter and change nothing else in the engine. *)
Lemma ticks_count_down n w h b x bot o :
  timers w !! h = Some (b, x) → bots w !! b = Some bot →
  orders w !! x = Some o → (Z.of_nat n < counter o)%Z →
  let w' := Nat.iter n (tick h) w in
  orders w' !! x = Some (with_counter (counter o - Z.of_nat n) o)
  ∧ (∀ a, a ≠ x → orders w' !! a = orders w !! a)
  ∧ length (orders w') = length (orders w)
  ∧ timers w' = timers w ∧ bots w' = bots w ∧ nextHandle w' = nextHandle w
  ∧ queueCache w' = queueCache w ∧ queueVipOrder w' = queueVipOrder w
  ∧ queueNormalOrder w' = queueNormalOrder w
  ∧ queueComplete w' = queueComplete w ∧ queue w' = queue w
  ∧ published (trace w') = published (trace w) ++ replicate n ORDER_COUNTER.
Proof.
  intros Ht Hb Ho. induction n as [|n IH]; intros Hn; cbv zeta.
  - change (Nat.iter 0 (tick h) w) with w. cbn [replicate].
    rewrite Z.sub_0_r, app_nil_r.
    split; [rewrite Ho; by destruct o|]. repeat split; done.
  - change (Nat.iter (S n) (tick h) w) with (tick h (Nat.iter n (tick h) w)).
    destruct IH as (I1 & I2 & I3 & I4 & I5 & I6 & I7 & I8 & I9
      & I10 & I11 & I12); [lia|].
    set (w' := Nat.iter n (tick h) w) in *.
    unfold tick. rewrite I4, Ht.
    rewrite (interval_callback_running b x w' _ I1)
      by (cbn [counter with_counter]; lia).
    cbn [orders timers bots nextHandle queueCache queueVipOrder
         queueNormalOrder queueComplete queue trace
         quiet_publish set_trace assign_order set_orders].
    rewrite published_quiet_entries, I12, published_replicate_snoc.
    rewrite list_lookup_alter_eq, I1, length_alter.
    repeat split; try done.
    + cbn. f_equal. unfold with_counter. cbn. f_equal. lia.
    + intros a Ha. rewrite list_lookup_alter_ne by done. by apply I2.
Qed.

(** X7. The countdown as a whole.  For a bot [b] that holds order [x] and
    owns the interval [h], with [c >= 1] on the order's counter: after
    [n < c] firings of [h] the counter is [c - n], with [n] ORDER_COUNTER
    events published and nothing else changed (the order is still held,
    still not listed); with the [c]-th firing the order is COMPLETE at the
    tail of queueComplete and the interval [h] is gone for good. *)
Theorem countdown_completes_after_counter_ticks (w : World) (h : nat)
    (b : bref) (x : oref) (bot : Bot) (o : Order) :
  timers w !! h = Some (b, x) → bots w !! b = Some bot →
  currentOrder bot = Some x → counterHandle bot = Some h →
  orders w !! x = Some o → (1 ≤ counter o)%Z → h < nextHandle w →
  (∀ n, (Z.of_nat n < counter o)%Z →
     let w' := Nat.iter n (tick h) w in
     orders w' !! x = Some (with_counter (counter o - Z.of_nat n) o)
     ∧ getOrderList w' = getOrderList w
     ∧ bots w' = bots w ∧ timers w' = timers w
     ∧ published (trace w') = published (trace w) ++ replicate n ORDER_COUNTER)
  ∧ (let w1 := Nat.iter (Z.to_nat (counter o)) (tick h) w in
     status <$> orders w1 !! x = Some COMPLETE
     ∧ queueComplete w1 = queueComplete w ++ [x]
     ∧ timers w1 !! h = None).
Proof.
  intros Ht Hb Hc Hh Ho H1 Hlt. split.
  - intros n Hn. cbv zeta.
    destruct (ticks_count_down n w h b x bot o Ht Hb Ho Hn)
      as (I1 & _ & _ & I4 & I5 & _ & I7 & I8 & I9 & I10 & _ & I12).
    unfold getOrderList. by rewrite I7, I8, I9, I10.
  - cbv zeta.
    assert (Z.to_nat (counter o) = S (Z.to_nat (counter o - 1))) as -> by lia.
    set (n := Z.to_nat (counter o - 1)).
    destruct (ticks_count_down n w h b x bot o Ht Hb Ho ltac:(lia))
      as (I1 & _ & _ & I4 & I5 & I6 & _ & _ & _ & I10 & _ & _).
    change (Nat.iter (S n) (tick h) w) with (tick h (Nat.iter n (tick h) w)).
    set (w' := Nat.iter n (tick h) w) in *.
    unfold tick. rewrite I4, Ht.
    rewrite (interval_callback_done b x h w' bot _
               ltac:(by rewrite I5) Hc Hh I1)
      by (cbn [counter with_counter]; lia).
    split; [|split].
    + rewrite Bot_processNextOrder_status. unfold completed.
      cbn [orders assign_bot set_bots quiet_publish set_trace
           set_queueComplete assign_order set_orders clearInterval set_timers].
      rewrite !list_lookup_alter_eq, I1. reflexivity.
    + rewrite (proj1 (proj2 (proj2 (proj2 (proj2
        (Bot_processNextOrder_frame _ _)))))).
      unfold completed.
      cbn [queueComplete assign_bot set_bots quiet_publish set_trace
           set_queueComplete assign_order set_orders clearInterval set_timers].
      by rewrite I10.
    + rewrite Bot_processNextOrder_timers_old.
      * unfold completed.
        cbn [timers assign_bot set_bots quiet_publish set_trace
             set_queueComplete assign_order set_orders clearInterval
             set_timers].
        apply lookup_delete_eq.
      * change (nextHandle (completed b x h w')) with (nextHandle w').
        rewrite I6. lia.
Qed.

Lemma countdown_completes_after_counter_ticks_witness :
  let w := run [CreateNormalOrder; Increase None] init in
  let bot := mkBot RUN 0 NORMAL (Some 0) (Some 1) None in
  let o := mkOrder PENDING 0 NORMAL 10 in
  (timers w !! 1 = Some (0, 0) ∧ bots w !! 0 = Some bot
   ∧ orders w !! 0 = Some o ∧ (1 ≤ counter o)%Z ∧ 1 < nextHandle w)
  ∧ status <$> orders (Nat.iter (Z.to_nat (counter o)) (tick 1) w) !! 0
    = Some COMPLETE.
Proof.
  intros w bot o.
  assert (Ht : timers w !! 1 = Some (0, 0)) by (vm_compute; reflexivity).
  assert (Hb : bots w !! 0 = Some bot) by (vm_compute; reflexivity).
  assert (Ho : orders w !! 0 = Some o) by (vm_compute; reflexivity).
  assert (H1 : (1 ≤ counter o)%Z) by (vm_compute; discriminate).
  assert (Hl : 1 < nextHandle w) by (vm_compute; lia).
  split; [repeat split; assumption|].
  exact (proj1 (proj2 (countdown_completes_after_counter_ticks
    w 1 0 0 bot o Ht Hb eq_refl eq_refl Ho H1 Hl))).
Defined.

(** ** The ledger of orders: nothing lost, status, counters, queue order *)

(** A step that moves no order and changes no field of an order; intervals
    may be cleared. *)
Lemma Ledger_frame w w1 :
  Ledger w →
  orders w1 = orders w → orderUid w1 = orderUid w →
  queueCache w1 = queueCache w → queueVipOrder w1 = queueVipOrder w →
  queueNormalOrder w1 = queueNormalOrder w →
  queueComplete w1 = queueComplete w →
  (∀ h v, timers w1 !! h = Some v → timers w !! h = Some v) →
  (∀ b o, holds w b o → holds w1 b o) →
  Ledger w1.
Proof.
  intros [L1 L2 L3 L4 L5 L6 L7 L8 L9 L10 L11] Ho Hu Hc Hv Hn Hd Ht Hh.
  split; unfold getOrderList; rewrite ?Ho, ?Hu, ?Hc, ?Hv, ?Hn, ?Hd; try done.
  - intros a Ha. destruct (L1 a Ha) as [?|[b Hb]]; [by left|right].
    exists b. by apply Hh.
  - intros h b x o Hhb. apply Ht in Hhb. by eapply L7.
Qed.

Lemma StronglySorted_tail {A} (R : A → A → Prop) x l :
  StronglySorted R (x :: l) → StronglySorted R l.
Proof. by inversion 1. Qed.

(** What an order looks like after [f] was applied to the order at [x]. *)
Lemma lookup_alter_order (f : Order → Order) x (l : list Order) a o' :
  alter f x l !! a = Some o' →
  ∃ o, l !! a = Some o ∧ o' = if decide (a = x) then f o else o.
Proof.
  rewrite list_lookup_alter. destruct (decide (x = a)) as [->|Hne]; intros H.
  - destruct (l !! a) as [o|]; [|done]. injection H as <-.
    exists o. by rewrite decide_True.
  - exists o'. by rewrite decide_False.
Qed.

(** Bot [b], holding nothing, takes the first pending order [x]: the order
    leaves the head of its queue and its counter is set to [d]. *)
Lemma Ledger_pick Q w w1 b x d :
  Inv Q w → Ledger w →
  (d = 5 ∨ d = 10)%Z →
  (∀ o, ¬ holds w b o) →
  getOrderList w = x :: getOrderList w1 →
  queueComplete w1 = queueComplete w →
  (queueVipOrder w1 = queueVipOrder w ∨ queueVipOrder w = x :: queueVipOrder w1) →
  (queueNormalOrder w1 = queueNormalOrder w
   ∨ queueNormalOrder w = x :: queueNormalOrder w1) →
  orders w1 = alter (with_counter d) x (orders w) →
  orderUid w1 = orderUid w →
  holds w1 b x → (∀ b' o, b' ≠ b → holds w b' o → holds w1 b' o) →
  (∀ h b' x', timers w1 !! h = Some (b', x') →
     (b' = b ∧ x' = x) ∨ timers w !! h = Some (b', x')) →
  Ledger w1.
Proof.
  intros HI [L1 L2 L3 L4 L5 L6 L7 L8 L9 L10 L11] Hd Hnone Hg Hc Hv Hn Ho Hu Hb
    Hoth Ht.
  pose proof (inv_nodup _ _ HI) as Hnd. rewrite Hg in Hnd.
  apply NoDup_cons in Hnd as [Hx Hnd].
  assert (Hxc : x ∉ queueComplete w).
  { intros Hin. apply Hx. unfold getOrderList. rewrite Hc.
    rewrite !elem_of_app. tauto. }
  assert (Hxv : x ∉ queueVipOrder w1).
  { intros Hin. apply Hx. unfold getOrderList. rewrite !elem_of_app. tauto. }
  assert (Hxn : x ∉ queueNormalOrder w1).
  { intros Hin. apply Hx. unfold getOrderList. rewrite !elem_of_app. tauto. }
  assert (Hvs : ∀ a, a ∈ queueVipOrder w1 → a ∈ queueVipOrder w).
  { intros a Ha. destruct Hv as [<- | ->]; [done|]. apply elem_of_cons. by right. }
  assert (Hns : ∀ a, a ∈ queueNormalOrder w1 → a ∈ queueNormalOrder w).
  { intros a Ha. destruct Hn as [<- | ->]; [done|]. apply elem_of_cons. by right. }
  assert (Hlk : ∀ a o', orders w1 !! a = Some o' →
    ∃ o, orders w !! a = Some o ∧ status o' = status o ∧ uid o' = uid o
         ∧ orderType o' = orderType o
         ∧ (a ≠ x → counter o' = counter o) ∧ (a = x → counter o' = d)).
  { intros a o'. rewrite Ho. intros (o & Hoa & ->)%lookup_alter_order.
    exists o. split; [done|]. destruct (decide (a = x)); naive_solver. }
  split; rewrite ?Hu, ?Hc; try done.
  - intros a. rewrite Ho, length_alter. intros Ha.
    destruct (decide (a = x)) as [->|Hne]; [right; eauto|].
    destruct (L1 a Ha) as [Hin|[b' Hb']].
    + left. rewrite Hg in Hin. apply elem_of_cons in Hin as [?|?]; done.
    + right. exists b'. apply Hoth; [|done]. intros ->. by apply Hnone in Hb'.
  - intros a o' (o & Hoa & Hs & _)%Hlk. rewrite Hs. by apply L2.
  - intros a o' Ha (o & Hoa & _ & _ & Hty & Hcn & _)%Hlk.
    rewrite Hty, Hcn; [by apply (L3 a); [apply Hvs|]|]. by intros ->.
  - intros a o' Ha (o & Hoa & _ & _ & Hty & Hcn & _)%Hlk.
    rewrite Hty, Hcn; [by apply (L4 a); [apply Hns|]|]. by intros ->.
  - intros a o' Ha (o & Hoa & _ & _ & _ & Hcn & _)%Hlk.
    rewrite Hcn; [by apply (L5 a)|]. by intros ->.
  - intros a o' (o & Hoa & _ & _ & _ & Hcn & Hcx)%Hlk.
    destruct (decide (a = x)) as [->|Hne].
    + rewrite Hcx by done. lia.
    + rewrite Hcn by done. by apply (L6 a).
  - intros h b' x' o' [[-> ->]|Hold]%Ht (o & Hoa & _ & _ & _ & Hcn & Hcx)%Hlk.
    + rewrite Hcx by done. lia.
    + destruct (decide (x' = x)) as [->|Hne]; [rewrite Hcx by done; lia|].
      rewrite Hcn by done. by eapply L7.
  - destruct Hv as [-> | Hv]; [done|]. rewrite Hv in L8.
    by eapply StronglySorted_tail.
  - destruct Hn as [-> | Hn]; [done|]. rewrite Hn in L9.
    by eapply StronglySorted_tail.
  - intros a o' (o & Hoa & _ & Hui & _)%Hlk. rewrite Hui. by apply L10.
  - by rewrite Ho, length_alter.
Qed.

Lemma holds_inj w b o1 o2 : holds w b o1 → holds w b o2 → o1 = o2.
Proof. unfold holds. congruence. Qed.

Lemma timer_holds Q w h b x : Inv Q w → timers w !! h = Some (b, x) → holds w b x.
Proof.
  intros HI Ht. destruct (inv_timers _ _ HI _ _ _ Ht) as (_ & _ & bot & Hb & _ & Hc & _).
  unfold holds. by rewrite Hb.
Qed.

(** Two intervals that count down the same order are the same interval. *)
Lemma timer_order_inj Q w h1 h2 b1 b2 x :
  Inv Q w → timers w !! h1 = Some (b1, x) → timers w !! h2 = Some (b2, x) →
  h1 = h2.
Proof.
  intros HI H1 H2.
  pose proof (inv_held_once _ _ HI _ _ _ (timer_holds _ _ _ _ _ HI H1)
                (timer_holds _ _ _ _ _ HI H2)) as ->.
  destruct (inv_timers _ _ HI _ _ _ H1) as (_ & _ & bot1 & Hb1 & _ & _ & Hh1).
  destruct (inv_timers _ _ HI _ _ _ H2) as (_ & _ & bot2 & Hb2 & _ & _ & Hh2).
  congruence.
Qed.

Lemma held_not_queued Q w b x :
  Inv Q w → holds w b x →
  (x ∉ queueCache w) ∧ (x ∉ queueVipOrder w) ∧ (x ∉ queueNormalOrder w)
  ∧ (x ∉ queueComplete w).
Proof.
  intros HI Hx. pose proof (inv_held_unlisted _ _ HI _ _ Hx) as Hn.
  unfold getOrderList in Hn. rewrite !elem_of_app in Hn. tauto.
Qed.

(** One firing of the interval of [b] that leaves the counter of [x] above
    0. *)
Lemma Ledger_count Q w w1 h b x :
  Inv Q w → Ledger w → timers w !! h = Some (b, x) →
  orders w1 = alter (λ o, with_counter (counter o - 1) o) x (orders w) →
  (∀ o, orders w !! x = Some o → (counter o - 1 ≠ 0)%Z) →
  orderUid w1 = orderUid w →
  queueCache w1 = queueCache w → queueVipOrder w1 = queueVipOrder w →
  queueNormalOrder w1 = queueNormalOrder w →
  queueComplete w1 = queueComplete w →
  timers w1 = timers w →
  (∀ b' o, holds w b' o → holds w1 b' o) →
  Ledger w1.
Proof.
  intros HI [L1 L2 L3 L4 L5 L6 L7 L8 L9 L10 L11] Ht Ho Hnz Hu Hc Hv Hn Hd
    Htm Hh.
  destruct (held_not_queued _ _ _ _ HI (timer_holds _ _ _ _ _ HI Ht))
    as (_ & Hxv & Hxn & Hxd).
  assert (Hlk : ∀ a o', orders w1 !! a = Some o' →
    ∃ o, orders w !! a = Some o ∧ status o' = status o ∧ uid o' = uid o
         ∧ orderType o' = orderType o
         ∧ (a ≠ x → counter o' = counter o)
         ∧ (a = x → counter o' = counter o - 1)%Z).
  { intros a o'. rewrite Ho. intros (o & Hoa & ->)%lookup_alter_order.
    exists o. split; [done|]. destruct (decide (a = x)); naive_solver. }
  split; unfold getOrderList; rewrite ?Hu, ?Hc, ?Hv, ?Hn, ?Hd, ?Htm; try done.
  - intros a. rewrite Ho, length_alter. intros Ha.
    destruct (L1 a Ha) as [?|[b' Hb']]; [by left|right]. exists b'. by apply Hh.
  - intros a o' (o & Hoa & Hs & _)%Hlk. rewrite Hs. by apply L2.
  - intros a o' Ha (o & Hoa & _ & _ & Hty & Hcn & _)%Hlk.
    rewrite Hty, Hcn; [by apply (L3 a)|]. by intros ->.
  - intros a o' Ha (o & Hoa & _ & _ & Hty & Hcn & _)%Hlk.
    rewrite Hty, Hcn; [by apply (L4 a)|]. by intros ->.
  - intros a o' Ha (o & Hoa & _ & _ & _ & Hcn & _)%Hlk.
    rewrite Hcn; [by apply (L5 a)|]. by intros ->.
  - intros a o' (o & Hoa & _ & _ & _ & Hcn & Hcx)%Hlk.
    destruct (decide (a = x)) as [->|Hne].
    + rewrite Hcx by done. pose proof (L6 _ _ Hoa).
      pose proof (L7 _ _ _ _ Ht Hoa). lia.
    + rewrite Hcn by done. by apply (L6 a).
  - intros h' b' x' o' Ht' (o & Hoa & _ & _ & _ & Hcn & Hcx)%Hlk.
    destruct (decide (x' = x)) as [->|Hne].
    + rewrite Hcx by done. pose proof (L7 _ _ _ _ Ht Hoa).
      pose proof (Hnz _ Hoa). lia.
    + rewrite Hcn by done. by eapply L7.
  - intros a o' (o & Hoa & _ & Hui & _)%Hlk. rewrite Hui. by apply L10.
  - by rewrite Ho, length_alter.
Qed.

(** The firing that brings the counter of [x] to 0: the order is completed
    and its interval cleared. *)
Lemma Ledger_complete Q w w1 h b x :
  Inv Q w → Ledger w → timers w !! h = Some (b, x) →
  orders w1 = alter (with_status COMPLETE) x
                (alter (λ o, with_counter (counter o - 1) o) x (orders w)) →
  (∀ o, orders w !! x = Some o → (counter o - 1 = 0)%Z) →
  orderUid w1 = orderUid w →
  queueCache w1 = queueCache w → queueVipOrder w1 = queueVipOrder w →
  queueNormalOrder w1 = queueNormalOrder w →
  queueComplete w1 = queueComplete w ++ [x] →
  (∀ h' v, timers w1 !! h' = Some v → h' ≠ h ∧ timers w !! h' = Some v) →
  (∀ b' o, b' ≠ b → holds w b' o → holds w1 b' o) →
  Ledger w1.
Proof.
  intros HI [L1 L2 L3 L4 L5 L6 L7 L8 L9 L10 L11] Ht Ho Hz Hu Hc Hv Hn Hd
    Htm Hh.
  pose proof (timer_holds _ _ _ _ _ HI Ht) as Hbx.
  destruct (held_not_queued _ _ _ _ HI Hbx) as (_ & Hxv & Hxn & Hxd).
  assert (Hlk : ∀ a o', orders w1 !! a = Some o' →
    ∃ o, orders w !! a = Some o ∧ uid o' = uid o
         ∧ orderType o' = orderType o
         ∧ (a ≠ x → counter o' = counter o ∧ status o' = status o)
         ∧ (a = x → counter o' = counter o - 1 ∧ status o' = COMPLETE)%Z).
  { intros a o'. rewrite Ho.
    intros (o1 & (o & Hoa & ->)%lookup_alter_order & ->)%lookup_alter_order.
    exists o. split; [done|]. destruct (decide (a = x)); naive_solver. }
  split; unfold getOrderList; rewrite ?Hu, ?Hc, ?Hv, ?Hn, ?Hd; try done.
  - intros a. rewrite Ho, !length_alter. intros Ha.
    destruct (L1 a Ha) as [Hin|[b' Hb']].
    + left. unfold getOrderList in Hin. rewrite !elem_of_app in *. tauto.
    + destruct (decide (b' = b)) as [->|Hne].
      * left. rewrite (holds_inj _ _ _ _ Hb' Hbx), !elem_of_app.
        do 4 right. by apply list_elem_of_singleton.
      * right. exists b'. by apply Hh.
  - intros a o' (o & Hoa & _ & _ & Hne & Heq)%Hlk.
    rewrite elem_of_app, list_elem_of_singleton.
    destruct (decide (a = x)) as [->|Hax].
    + split; [by right|]. intros _. by apply Heq.
    + rewrite (proj2 (Hne Hax)), (L2 _ _ Hoa). tauto.
  - intros a o' Ha (o & Hoa & _ & Hty & Hne & _)%Hlk.
    assert (a ≠ x) by (by intros ->).
    rewrite Hty, (proj1 (Hne ltac:(done))). by apply (L3 a).
  - intros a o' Ha (o & Hoa & _ & Hty & Hne & _)%Hlk.
    assert (a ≠ x) by (by intros ->).
    rewrite Hty, (proj1 (Hne ltac:(done))). by apply (L4 a).
  - intros a o' Ha (o & Hoa & _ & _ & Hne & Heq)%Hlk.
    destruct (decide (a = x)) as [->|Hax].
    + rewrite (proj1 (Heq eq_refl)). by apply Hz.
    + rewrite (proj1 (Hne Hax)). apply (L5 a); [|done].
      apply elem_of_app in Ha as [?|Ha]; [done|].
      by apply list_elem_of_singleton in Ha.
  - intros a o' (o & Hoa & _ & _ & Hne & Heq)%Hlk.
    destruct (decide (a = x)) as [->|Hax].
    + rewrite (proj1 (Heq eq_refl)), (Hz _ Hoa). lia.
    + rewrite (proj1 (Hne Hax)). by apply (L6 a).
  - intros h' b' x' o' [Hhh Ht']%Htm (o & Hoa & _ & _ & Hne & _)%Hlk.
    assert (x' ≠ x).
    { intros ->. apply Hhh. by eapply timer_order_inj. }
    rewrite (proj1 (Hne ltac:(done))). by eapply L7.
  - intros a o' (o & Hoa & Hui & _)%Hlk. rewrite Hui. by apply L10.
  - by rewrite Ho, !length_alter.
Qed.

(** Bot [b] hands [x] back to the head of queueCache. *)
Lemma Ledger_recover w w1 b x :
  Ledger w → holds w b x →
  orders w1 = orders w → orderUid w1 = orderUid w →
  queueCache w1 = x :: queueCache w → queueVipOrder w1 = queueVipOrder w →
  queueNormalOrder w1 = queueNormalOrder w →
  queueComplete w1 = queueComplete w →
  (∀ h v, timers w1 !! h = Some v → timers w !! h = Some v) →
  (∀ b' o, b' ≠ b → holds w b' o → holds w1 b' o) →
  Ledger w1.
Proof.
  intros [L1 L2 L3 L4 L5 L6 L7 L8 L9 L10 L11] Hx Ho Hu Hc Hv Hn Hd Ht Hh.
  split; unfold getOrderList; rewrite ?Ho, ?Hu, ?Hc, ?Hv, ?Hn, ?Hd; try done.
  - intros a Ha. destruct (L1 a Ha) as [Hin|[b' Hb']].
    + left. apply elem_of_cons. by right.
    + destruct (decide (b' = b)) as [->|Hne].
      * left. rewrite (holds_inj _ _ _ _ Hb' Hx). apply elem_of_cons. by left.
      * right. exists b'. by apply Hh.
  - intros h b' x' o Hhb. apply Ht in Hhb. by eapply L7.
Qed.

Lemma StronglySorted_snoc_lt (l : list nat) a :
  StronglySorted lt l → (∀ y, y ∈ l → y < a) → StronglySorted lt (l ++ [a]).
Proof.
  induction 1 as [|y l Hs IH Hy]; intros Hlt; simpl.
  - repeat constructor.
  - constructor.
    + apply IH. intros z Hz. apply Hlt. apply elem_of_cons. by right.
    + apply Forall_app. split; [done|]. constructor; [|done].
      apply Hlt. apply elem_of_cons. by left.
Qed.

(** [new Order] followed by the push on queueNormalOrder or queueVipOrder. *)
Lemma Ledger_new_order Q w w1 t :
  Inv Q w → Ledger w →
  orders w1 = orders w ++ [mkOrder PENDING (orderUid w) t 0] →
  orderUid w1 = S (orderUid w) →
  queueCache w1 = queueCache w → queueComplete w1 = queueComplete w →
  (t = NORMAL ∧ queueNormalOrder w1 = queueNormalOrder w ++ [length (orders w)]
   ∧ queueVipOrder w1 = queueVipOrder w)
  ∨ (t = VIP ∧ queueVipOrder w1 = queueVipOrder w ++ [length (orders w)]
     ∧ queueNormalOrder w1 = queueNormalOrder w) →
  timers w1 = timers w →
  (∀ b o, holds w b o → holds w1 b o) →
  Ledger w1.
Proof.
  intros HI [L1 L2 L3 L4 L5 L6 L7 L8 L9 L10 L11] Ho Hu Hc Hd Hq Ht Hh.
  set (a := length (orders w)) in *.
  assert (Hval : ∀ y, y ∈ getOrderList w → y < a)
    by apply (inv_listed_valid _ _ HI).
  assert (Hvv : ∀ y, y ∈ queueVipOrder w → y < a).
  { intros y Hy. apply Hval. unfold getOrderList. rewrite !elem_of_app. tauto. }
  assert (Hvn : ∀ y, y ∈ queueNormalOrder w → y < a).
  { intros y Hy. apply Hval. unfold getOrderList. rewrite !elem_of_app. tauto. }
  assert (Hvd : ∀ y, y ∈ queueComplete w → y < a).
  { intros y Hy. apply Hval. unfold getOrderList. rewrite !elem_of_app. tauto. }
  assert (Hlk : ∀ y o, orders w1 !! y = Some o →
    (y < a ∧ orders w !! y = Some o)
    ∨ (y = a ∧ o = mkOrder PENDING (orderUid w) t 0)).
  { intros y o. rewrite Ho. intros [Hy|[Hy Hy']]%lookup_app_Some.
    - left. split; [|done]. by apply lookup_lt_Some in Hy.
    - right. fold a in Hy, Hy'. destruct (y - a) as [|k] eqn:E; [|done].
      simpl in Hy'. split; [lia|congruence]. }
  split; rewrite ?Hu, ?Hc, ?Hd, ?Ht.
  - intros y. rewrite Ho, length_app. cbn [length]. fold a. intros Hy.
    destruct (decide (y = a)) as [->|Hne].
    + left. unfold getOrderList. rewrite !elem_of_app.
      destruct Hq as [(_ & -> & _)|(_ & -> & _)]; rewrite elem_of_app,
        list_elem_of_singleton; tauto.
    + destruct (L1 y ltac:(lia)) as [Hin|[b Hb]].
      * left. unfold getOrderList in *. rewrite Hc, Hd, !elem_of_app in *.
        destruct Hq as [(_ & -> & ->)|(_ & -> & ->)]; rewrite elem_of_app;
          tauto.
      * right. exists b. by apply Hh.
  - intros y o [[Hy Hoy]|[-> ->]]%Hlk; [by apply L2|].
    split; [done|]. intros Hin%Hvd. lia.
  - intros y o Hy [[Hya Hoy]|[-> ->]]%Hlk.
    + apply (L3 y); [|done].
      destruct Hq as [(_ & _ & <-)|(_ & Hv & _)]; [done|].
      rewrite Hv in Hy. apply elem_of_app in Hy as [?|Hy]; [done|].
      apply list_elem_of_singleton in Hy. lia.
    + destruct Hq as [(_ & _ & Hv)|(-> & _ & _)]; [|done].
      rewrite Hv in Hy. apply Hvv in Hy. lia.
  - intros y o Hy [[Hya Hoy]|[-> ->]]%Hlk.
    + apply (L4 y); [|done].
      destruct Hq as [(_ & Hn & _)|(_ & _ & <-)]; [|done].
      rewrite Hn in Hy. apply elem_of_app in Hy as [?|Hy]; [done|].
      apply list_elem_of_singleton in Hy. lia.
    + destruct Hq as [(-> & _ & _)|(_ & _ & Hn)]; [done|].
      rewrite Hn in Hy. apply Hvn in Hy. lia.
  - intros y o Hy [[Hya Hoy]|[-> ->]]%Hlk; [by apply (L5 y)|done].
  - intros y o [[Hya Hoy]|[-> ->]]%Hlk; [by apply (L6 y)|]. cbn. lia.
  - intros h b x o Hhb [[Hya Hoy]|[-> ->]]%Hlk; [by eapply L7|].
    apply (timer_holds _ _ _ _ _ HI) in Hhb.
    apply (inv_held_valid _ _ HI) in Hhb. fold a in Hhb. lia.
  - destruct Hq as [(_ & _ & ->)|(_ & -> & _)]; [done|].
    by apply StronglySorted_snoc_lt.
  - destruct Hq as [(_ & -> & _)|(_ & _ & ->)]; [|done].
    by apply StronglySorted_snoc_lt.
  - intros y o [[Hya Hoy]|[-> ->]]%Hlk; [by apply L10|]. cbn. by rewrite L11.
  - rewrite Ho, length_app, L11. cbn [length]. lia.
Qed.

Lemma shifted_Some_queues w x w' :
  shifted w = Some (x, w') →
  (queueVipOrder w' = queueVipOrder w ∨ queueVipOrder w = x :: queueVipOrder w')
  ∧ (queueNormalOrder w' = queueNormalOrder w
     ∨ queueNormalOrder w = x :: queueNormalOrder w')
  ∧ queueComplete w' = queueComplete w.
Proof.
  unfold shifted.
  destruct (queueCache w) as [|y c] eqn:Hc;
    [destruct (queueVipOrder w) as [|y v] eqn:Hv;
       [destruct (queueNormalOrder w) as [|y n] eqn:Hn|]|];
    intros [= <- <-]; cbn; rewrite ?Hc, ?Hv, ?Hn; auto.
Qed.

Lemma Bot_processNextOrder_Ledger Q b w :
  Inv Q w → Ledger w → b ∈ Q → (∀ o, ¬ holds w b o) →
  Ledger (Bot.processNextOrder b w).
Proof.
  intros HI HL HbQ Hnh. rewrite Bot_processNextOrder_shifted.
  destruct (shifted w) as [[x w']|] eqn:Hs.
  - destruct (shifted_Some_queues _ _ _ Hs) as (Hv & Hn & Hd).
    destruct (shifted_Some _ _ _ Hs) as (c & v & n & -> & Hp).
    set (W := log (Pickup b) (set_pending c v n w)).
    apply (Ledger_pick Q w (picked_up b x W) b x (duration (typeOf W b)) HI HL).
    + unfold duration. case_decide; auto.
    + exact Hnh.
    + apply (getOrderList_shifted _ _ _ _ _ Hp).
    + exact Hd.
    + exact Hv.
    + exact Hn.
    + exact (picked_up_orders b x W).
    + reflexivity.
    + apply holds_picked_up. left. split; [done|]. split; [|done].
      apply (inv_queue_valid _ _ HI _ HbQ).
    + intros b' o Hne Ho. apply holds_picked_up. right. by split.
    + intros h b' x'. rewrite picked_up_timers.
      intros [[_ [= <- <-]]|[_ Ht]]%lookup_insert_Some; [by left|by right].
  - apply (Ledger_frame w); try done.
    intros b' o. unfold holds. cbn [bots assign_bot set_bots log set_trace].
    destruct (decide (b' = b)) as [->|Hne].
    + intros Ho. by apply Hnh in Ho.
    + by rewrite list_lookup_alter_ne.
Qed.

(** [publish] keeps invariant and ledger together. *)
Lemma publish_Inv_Ledger e w :
  Inv (queue w) w → Ledger w →
  Inv (queue (publish e w)) (publish e w) ∧ Ledger (publish e w).
Proof.
  intros HI HL.
  apply (publish_preserves (λ w', Inv (queue w') w' ∧ Ledger w')); [| |done].
  - intros t w' [HI' HL']. split; [by apply Inv_set_trace|].
    by apply (Ledger_frame w').
  - intros b w' [HI' HL'] Hb Hi.
    destruct (idle_free _ _ _ HI' Hi) as [Hnt Hnh]. split.
    + rewrite (proj1 (Bot_processNextOrder_frame b w')).
      by apply Bot_processNextOrder_Inv.
    + by eapply Bot_processNextOrder_Ledger.
Qed.

Lemma createNormalOrder_eq w :
  OrderManager.createNormalOrder w
  = (length (orders w), publish ORDER_ADDED (pushed NORMAL w)).
Proof. reflexivity. Qed.

Lemma createVipOrder_eq w :
  OrderManager.createVipOrder w
  = (length (orders w), publish ORDER_ADDED (pushed VIP w)).
Proof. reflexivity. Qed.

Lemma pushed_Inv_Ledger t w :
  Inv (queue w) w → Ledger w →
  Inv (queue (pushed t w)) (pushed t w) ∧ Ledger (pushed t w).
Proof.
  intros HI HL. split.
  - apply (Inv_new_order w _ (mkOrder PENDING (orderUid w) t 0) HI);
      try (by destruct t).
    destruct t; unfold getOrderList; cbn; rewrite <- !app_assoc; cbn;
      by rewrite <- !Permutation_middle.
  - apply (Ledger_new_order (queue w) w _ t HI HL); try (by destruct t).
    destruct t; [left|right]; done.
Qed.

Lemma with_new_bot_Inv t w :
  Inv (queue w) w →
  Inv (queue w ++ [length (bots w)]) (with_new_bot t w)
  ∧ no_timer (with_new_bot t w) (length (bots w))
  ∧ (∀ o, ¬ holds (with_new_bot t w) (length (bots w)) o)
  ∧ (∀ b o, holds w b o → holds (with_new_bot t w) b o).
Proof.
  intros HI. set (a := length (bots w)). set (w1 := with_new_bot t w).
  assert (Hfresh : a ∉ queue w).
  { intros Ha%(inv_queue_valid _ _ HI). unfold a in Ha. lia. }
  assert (Hold : ∀ b bot, bots w !! b = Some bot → bots w1 !! b = Some bot).
  { intros b bot Hb. unfold w1, with_new_bot. cbn [bots set_bots].
    by apply lookup_app_l_Some. }
  assert (Hlk : ∀ b bot, bots w1 !! b = Some bot →
            bots w !! b = Some bot ∨ (b = a ∧ currentOrder bot = None)).
  { intros b bot. unfold w1, with_new_bot. cbn [bots set_bots].
    intros [?|[? Hb]]%lookup_app_Some; [by left|right].
    fold a in Hb. destruct (b - a) as [|k] eqn:E; [|done].
    simpl in Hb. simplify_eq. split; [lia|done]. }
  assert (Hh : ∀ b o, holds w1 b o → holds w b o).
  { intros b o. unfold holds.
    destruct (bots w1 !! b) as [bot|] eqn:Hb; [|done].
    destruct (Hlk _ _ Hb) as [->|[_ Hn]]; [done|]. simpl. by rewrite Hn. }
  split; [|split; [|split]].
  - destruct HI as [Hnd Hlv Hhv Hhu Hho Hid Hqv Hqn Htm]. split; try done.
    + intros b o Ho%Hh. by eapply Hhv.
    + intros b o Ho%Hh. by eapply Hhu.
    + intros b1 b2 o Ho1%Hh Ho2%Hh. by eapply Hho.
    + intros b bot [Hb|[_ ?]]%Hlk Hi; [by eapply Hid|done].
    + intros b. unfold w1, with_new_bot. cbn [bots set_bots].
      rewrite length_app, elem_of_app. cbn [length].
      intros [Hb%Hqv|Hb%list_elem_of_singleton]; unfold a in *; lia.
    + apply NoDup_app. split; [done|]. split; [|apply NoDup_singleton].
      intros b Hb Hb'%list_elem_of_singleton. by subst.
    + intros h b o Ht. destruct (Htm _ _ _ Ht) as (? & ? & bot & ? & ?).
      split; [done|]. split; [set_solver|]. exists bot. split; [|done].
      by apply Hold.
  - intros h o Ht. by destruct (inv_timers _ _ HI _ _ _ Ht) as (_ & ? & _).
  - intros o Ho%Hh. unfold holds in Ho.
    rewrite (lookup_ge_None_2 (bots w) a) in Ho; [done|]. unfold a; lia.
  - intros b o. unfold holds.
    destruct (bots w !! b) as [bot|] eqn:Hb; [|done].
    by rewrite (Hold _ _ Hb).
Qed.

Lemma Controller_increase_Ledger params w :
  Inv (queue w) w → Ledger w → Ledger (Controller.increase params w).2.
Proof.
  intros HI HL. rewrite Controller_increase_eq. cbn [snd].
  destruct (with_new_bot_Inv (default NORMAL params) w HI)
    as (HI1 & Hnt & Hnh & Hh).
  assert (HL1 : Ledger (with_new_bot (default NORMAL params) w))
    by (by apply (Ledger_frame w)).
  pose proof (Bot_processNextOrder_Ledger _ (length (bots w)) _ HI1 HL1
    ltac:(set_solver) Hnh) as HL2.
  by apply (Ledger_frame _ _ HL2).
Qed.

Lemma Bot_destroy_Ledger Q b w :
  Inv Q w → Ledger w → Ledger (Bot.destroy b w).
Proof.
  intros HI HL. unfold Bot.destroy. fold (clear_handle b w).
  assert (HL1 : Ledger (clear_handle b w)).
  { apply (Ledger_frame w _ HL); unfold clear_handle;
      destruct (_ ≫= _); try done.
    intros h v. unfold clearInterval. cbn [timers set_timers].
    by intros [_ Ht]%lookup_delete_Some. }
  assert (Hb : bots (clear_handle b w) = bots w).
  { unfold clear_handle. by destruct (_ ≫= _). }
  destruct (bots (clear_handle b w) !! b ≫= currentOrder) as [x|] eqn:Hx;
    [|done].
  unfold OrderManager.updateCache. rewrite publish_quiet by done.
  apply (Ledger_recover (clear_handle b w) _ b x HL1 Hx); try done.
  intros b' o Hne. unfold holds.
  cbn [bots assign_bot set_bots quiet_publish set_trace set_queueCache].
  by rewrite !list_lookup_alter_ne.
Qed.

Lemma Controller_decrease_Ledger w :
  Inv (queue w) w → Ledger w → Ledger (Controller.decrease w).
Proof.
  intros HI HL. unfold Controller.decrease.
  destruct (last (queue w)) as [b|] eqn:Hl; [|done].
  apply (Bot_destroy_Ledger (queue w)).
  - destruct HI. by split.
  - by apply (Ledger_frame w).
Qed.

Lemma completed_eq b x h w bot :
  bots w !! b = Some bot → currentOrder bot = Some x →
  counterHandle bot = Some h →
  Bot.completeOrder b
    (clear_handle b
       (quiet_publish ORDER_COUNTER
          (assign_order x (λ o, with_counter (counter o - 1)%Z o) w)))
  = completed b x h w.
Proof.
  intros Hb Hc Hh.
  set (w1 := quiet_publish _ _).
  assert (Hb1 : bots w1 = bots w) by reflexivity.
  unfold clear_handle. rewrite Hb1, Hb. cbn [mbind option_bind]. rewrite Hh.
  unfold Bot.completeOrder.
  assert (Hb2 : bots (clearInterval h w1) = bots w) by reflexivity.
  rewrite Hb2, Hb. cbn [mbind option_bind]. rewrite Hc.
  unfold OrderManager.completeOrder. rewrite publish_quiet by done.
  reflexivity.
Qed.

Lemma tick_Ledger h w : Inv (queue w) w → Ledger w → Ledger (tick h w).
Proof.
  intros HI HL. unfold tick.
  destruct (timers w !! h) as [[b x]|] eqn:Ht; [|done].
  destruct (inv_timers _ _ HI _ _ _ Ht) as (_ & HbQ & bot & Hb & _ & Hc & Hh).
  pose proof (timer_holds _ _ _ _ _ HI Ht) as Hbx.
  destruct (lookup_lt_is_Some_2 (orders w) x (inv_held_valid _ _ HI _ _ Hbx))
    as [o Ho].
  destruct (decide (counter o - 1 = 0)%Z) as [Hz|Hnz].
  - rewrite (interval_callback_done b x h w bot o Hb Hc Hh Ho Hz).
    set (w1 := quiet_publish ORDER_COUNTER
                 (assign_order x (λ o, with_counter (counter o - 1)%Z o) w)).
    assert (HI1 : Inv (queue w) w1).
    { apply (Inv_relist _ w); try done; try apply HI.
      - unfold w1. cbn [orders quiet_publish set_trace assign_order set_orders].
        by rewrite length_alter.
      - intros a Ha. unfold w1.
        cbn [orders quiet_publish set_trace assign_order set_orders].
        rewrite length_alter. by apply HI. }
    destruct (clear_handle_Inv _ b w1 HI1) as [HI2 Hnt2].
    destruct (Bot_completeOrder_Inv _ b _ HI2 Hnt2) as (HI3 & Hnt3 & Hnh3).
    unfold w1 in HI3, Hnh3. rewrite (completed_eq b x h w bot Hb Hc Hh) in HI3, Hnh3.
    apply (Bot_processNextOrder_Ledger (queue w)); try done.
    apply (Ledger_complete (queue w) w _ h b x HI HL Ht); try done.
    + intros o' Ho'. congruence.
    + intros h' v. unfold completed.
      cbn [timers assign_bot set_bots quiet_publish set_trace
           set_queueComplete assign_order set_orders clearInterval set_timers].
      by intros [? ?]%lookup_delete_Some.
    + intros b' o' Hne. unfold holds, completed.
      cbn [bots assign_bot set_bots quiet_publish set_trace
           set_queueComplete assign_order set_orders clearInterval set_timers].
      by rewrite list_lookup_alter_ne.
  - rewrite (interval_callback_running b x w o Ho Hnz).
    apply (Ledger_count (queue w) w _ h b x HI HL Ht); try done.
    intros o' Ho'. congruence.
Qed.

Lemma step_Ledger op w :
  Inv (queue w) w → Ledger w → Ledger (step op w).
Proof.
  intros HI HL. destruct op as [| |k|params| |h]; cbn [step].
  - rewrite createNormalOrder_eq. cbn [snd].
    destruct (pushed_Inv_Ledger NORMAL w HI HL) as [HI1 HL1].
    by apply publish_Inv_Ledger.
  - rewrite createVipOrder_eq. cbn [snd].
    destruct (pushed_Inv_Ledger VIP w HI HL) as [HI1 HL1].
    by apply publish_Inv_Ledger.
  - by apply (Ledger_frame w).
  - by apply Controller_increase_Ledger.
  - by apply Controller_decrease_Ledger.
  - by apply tick_Ledger.
Qed.

Lemma init_Ledger : Ledger init.
Proof.
  split; cbn; try done; try (intros; lia); try constructor.
Qed.

Lemma reachable_Ledger w : reachable w → Ledger w.
Proof.
  intros [ops ->]. unfold run.
  enough (Inv (queue (foldl (λ w op, step op w) init ops))
            (foldl (λ w op, step op w) init ops)
          ∧ Ledger (foldl (λ w op, step op w) init ops)) as [_ ?] by done.
  induction ops as [|op ops [IHI IHL]] using rev_ind.
  - split; [apply init_Inv|apply init_Ledger].
  - rewrite foldl_app; cbn [foldl]. split; [by apply step_Inv|].
    by apply step_Ledger.
Qed.

(** X8. No order is lost or duplicated: in every reachable state each Order
    object ever created is either listed exactly once by getOrderList and
    held by no bot, or listed nowhere and held by exactly one bot; and there
    is one Order object per uid handed out. *)
Theorem every_order_in_exactly_one_place (w : World) (a : oref) :
  reachable w → a < length (orders w) →
  NoDup (getOrderList w)
  ∧ length (orders w) = orderUid w
  ∧ ((a ∈ getOrderList w ∧ ∀ b, ¬ holds w b a)
     ∨ ((a ∉ getOrderList w)
        ∧ ∃ b, holds w b a ∧ ∀ b', holds w b' a → b' = b)).
Proof.
  intros Hr Ha.
  pose proof (reachable_Inv w Hr) as HI.
  pose proof (reachable_Ledger w Hr) as HL.
  split; [apply HI|]. split; [symmetry; apply HL|].
  destruct (led_kept _ HL a Ha) as [Hin|[b Hb]].
  - left. split; [done|]. intros b Hb.
    by apply (inv_held_unlisted _ _ HI) in Hb.
  - right. split; [by eapply inv_held_unlisted|].
    exists b. split; [done|]. intros b' Hb'. by eapply inv_held_once.
Qed.

Lemma every_order_in_exactly_one_place_witness :
  let w := run [CreateNormalOrder; CreateVipOrder; Increase None] init in
  (reachable w ∧ 1 < length (orders w))
  ∧ NoDup (getOrderList w) ∧ length (orders w) = orderUid w.
Proof.
  intros w.
  assert (Hr : reachable w) by (by eexists).
  assert (Ha : 1 < length (orders w)) by (vm_compute; lia).
  split; [by split|].
  destruct (every_order_in_exactly_one_place w 1 Hr Ha) as (H1 & H2 & _).
  split; [exact H1|exact H2].
Defined.

(** X9. The status field tells where an order is: in every reachable state
    an order is COMPLETE exactly when it is in queueComplete, and PENDING
    exactly when it is in one of the three pending queues or held by a bot
    (completeOrder is the only writer of the status, and nothing ever takes
    an order out of queueComplete). *)
Theorem status_tells_where_the_order_is (w : World) (a : oref) (o : Order) :
  reachable w → orders w !! a = Some o →
  (status o = COMPLETE ↔ a ∈ queueComplete w)
  ∧ (status o = PENDING ↔ a ∈ pending w ∨ ∃ b, holds w b a).
Proof.
  intros Hr Ho.
  pose proof (reachable_Inv w Hr) as HI.
  pose proof (reachable_Ledger w Hr) as HL.
  pose proof (led_status _ HL a o Ho) as Hs.
  split; [exact Hs|].
  pose proof (inv_nodup _ _ HI) as Hnd.
  rewrite getOrderList_pending in Hnd.
  apply NoDup_app in Hnd as (_ & Hdisj & _).
  split.
  - intros Hp.
    destruct (led_kept _ HL a (lookup_lt_Some _ _ _ Ho)) as [Hin|?];
      [|by right].
    rewrite getOrderList_pending in Hin.
    apply elem_of_app in Hin as [?|Hin]; [by left|].
    apply Hs in Hin. congruence.
  - intros [Hin|[b Hb]].
    + destruct (status o) eqn:E; [done|].
      exfalso. apply (Hdisj a Hin). by apply Hs.
    + destruct (status o) eqn:E; [done|].
      exfalso. destruct (held_not_queued _ _ _ _ HI Hb) as (_ & _ & _ & Hn).
      apply Hn. by apply Hs.
Qed.

Lemma status_tells_where_the_order_is_witness :
  let w := run [CreateNormalOrder; Increase None; Decrease] init in
  let o := mkOrder PENDING 0 NORMAL 10 in
  (reachable w ∧ orders w !! 0 = Some o)
  ∧ (status o = PENDING ↔ 0 ∈ pending w ∨ ∃ b, holds w b 0).
Proof.
  intros w o.
  assert (Hr : reachable w) by (by eexists).
  assert (Ho : orders w !! 0 = Some o) by (vm_compute; reflexivity).
  split; [by split|].
  exact (proj2 (status_tells_where_the_order_is w 0 o Hr Ho)).
Defined.

(** X10. The counter never leaves 0..10 and is never negative: in every
    reachable state each order's counter is between 0 and 10; it is 0 for
    the orders in queueVipOrder and queueNormalOrder (never started) and in
    queueComplete (counted down), and at least 1 for an order whose
    countdown interval is active. *)
Theorem counter_bounds (w : World) (a : oref) (o : Order) :
  reachable w → orders w !! a = Some o →
  (0 ≤ counter o ≤ 10)%Z
  ∧ (a ∈ queueVipOrder w ∨ a ∈ queueNormalOrder w ∨ a ∈ queueComplete w →
     counter o = 0%Z)
  ∧ (∀ h b, timers w !! h = Some (b, a) → (1 ≤ counter o)%Z).
Proof.
  intros Hr Ho. pose proof (reachable_Ledger w Hr) as HL.
  split; [by eapply led_counter|]. split.
  - intros [Hv|[Hn|Hd]].
    + by apply (led_vip _ HL a o).
    + by apply (led_normal _ HL a o).
    + by apply (led_done _ HL a o).
  - intros h b Ht. by eapply led_running.
Qed.

Lemma counter_bounds_witness :
  let w := run [CreateVipOrder; Increase (Some VIP); Tick 1; Tick 1] init in
  let o := mkOrder PENDING 0 VIP 3 in
  (reachable w ∧ orders w !! 0 = Some o ∧ timers w !! 1 = Some (0, 0))
  ∧ (0 ≤ counter o ≤ 10)%Z ∧ (1 ≤ counter o)%Z.
Proof.
  intros w o.
  assert (Hr : reachable w) by (by eexists).
  assert (Ho : orders w !! 0 = Some o) by (vm_compute; reflexivity).
  assert (Ht : timers w !! 1 = Some (0, 0)) by (vm_compute; reflexivity).
  split; [by repeat split|].
  destruct (counter_bounds w 0 o Hr Ho) as (H1 & _ & H3).
  split; [exact H1|exact (H3 1 0 Ht)].
Defined.

(** X11. queueVipOrder holds only VIP orders and queueNormalOrder only
    NORMAL orders, and each of the two is in creation order: in every
    reachable state the uid of an Order object is its position in creation
    order, and both queues are strictly increasing in it, so within each
    queue orders are handed out first in, first out. *)
Theorem queues_typed_and_in_creation_order (w : World) :
  reachable w →
  (∀ a o, orders w !! a = Some o → uid o = a)
  ∧ (∀ a o, a ∈ queueVipOrder w → orders w !! a = Some o → orderType o = VIP)
  ∧ (∀ a o, a ∈ queueNormalOrder w → orders w !! a = Some o →
       orderType o = NORMAL)
  ∧ StronglySorted lt (queueVipOrder w)
  ∧ StronglySorted lt (queueNormalOrder w).
Proof.
  intros Hr. pose proof (reachable_Ledger w Hr) as HL.
  split; [apply HL|]. split.
  { intros a o Ha Ho. by apply (led_vip _ HL a o). }
  split.
  { intros a o Ha Ho. by apply (led_normal _ HL a o). }
  split; apply HL.
Qed.

Lemma queues_typed_and_in_creation_order_witness :
  let w := run [CreateNormalOrder; CreateVipOrder; CreateNormalOrder;
                CreateVipOrder] init in
  reachable w
  ∧ StronglySorted lt (queueVipOrder w)
  ∧ StronglySorted lt (queueNormalOrder w).
Proof.
  intros w.
  assert (Hr : reachable w) by (by eexists).
  split; [exact Hr|].
  destruct (queues_typed_and_in_creation_order w Hr) as (_ & _ & _ & H1 & H2).
  split; [exact H1|exact H2].
Defined.

(** ** A bot that was removed never picks up again *)

(** Like [publish_preserves], for properties that read the trace. *)
Lemma publish_preserves_log (P : World → Prop) e w :
  (∀ c w', (∀ b, c ≠ Pickup b) → P w' → P (log c w')) →
  (∀ b w', P w' → b ∈ queue w' → isIdle w' b = true →
           P (Bot.processNextOrder b w')) →
  P w → P (publish e w).
Proof.
  intros Hlog Hpick Hw. rewrite publish_unfold. unfold publish_body.
  apply forEach_preserves; [|by apply Hlog].
  intros j s w1 Hw1. unfold invoke.
  assert (P (log (Invoke j e (getOrderList w1)) w1)) as Hl by by apply Hlog.
  destruct s; [|done]. unfold controller_callback.
  case_match; [|done].
  set (w2 := log _ w1) in *.
  enough (∀ l i w3, P w3 → queue w3 = queue w2 → l ⊆ queue w2 →
    P (forEach (λ _ b w, if isIdle w b then Bot_processNextOrder publish b w
                         else w) i l w3)) as Hloop by by apply Hloop.
  induction l as [|b l IH]; intros i w3 Hw3 Hq Hsub; simpl; [done|].
  assert (b ∈ queue w3) by (rewrite Hq; set_solver).
  apply IH; [| |set_solver].
  - destruct (isIdle w3 b) eqn:Hi; [|done]. by apply Hpick.
  - destruct (isIdle w3 b); [|done].
    fold Bot.processNextOrder. by rewrite (proj1 (Bot_processNextOrder_frame b w3)).
Qed.

Lemma picks_of_log b c w :
  (∀ b', c ≠ Pickup b') → picks_of b (log c w) = picks_of b w.
Proof.
  intros Hc. unfold picks_of, log. cbn [trace set_trace].
  rewrite pickups_app. destruct c as [| |b']; cbn; rewrite ?app_nil_r; try done.
  by destruct (Hc b').
Qed.

Lemma picks_of_quiet b e w : picks_of b (quiet_publish e w) = picks_of b w.
Proof.
  unfold picks_of, quiet_publish. cbn [trace set_trace].
  by rewrite pickups_quiet_entries.
Qed.

Lemma retired_Bot_processNextOrder b b' w :
  retired b w → b' ≠ b →
  retired b (Bot.processNextOrder b' w)
  ∧ picks_of b (Bot.processNextOrder b' w) = picks_of b w.
Proof.
  intros (Hlt & Hq & Hnt) Hne. split; [split; [|split]|].
  - by rewrite (proj1 (proj2 (proj2 (proj2 (proj2 (proj2 (proj2
      (Bot_processNextOrder_frame b' w)))))))).
  - by rewrite (proj1 (Bot_processNextOrder_frame b' w)).
  - intros h o. rewrite Bot_processNextOrder_shifted.
    destruct (shifted w) as [[x w']|] eqn:Hs.
    + destruct (shifted_Some _ _ _ Hs) as (c & v & n & -> & _).
      rewrite picked_up_timers.
      intros [[_ [= ? ?]]|[_ Ht]]%lookup_insert_Some; [done|].
      by apply Hnt in Ht.
    + apply Hnt.
  - unfold picks_of. rewrite pickups_Bot_processNextOrder, filter_app.
    rewrite filter_cons, decide_False by done. apply app_nil_r.
Qed.

Lemma retired_publish e b w :
  retired b w →
  retired b (publish e w) ∧ picks_of b (publish e w) = picks_of b w.
Proof.
  intros Hr.
  apply (publish_preserves_log
    (λ w', retired b w' ∧ picks_of b w' = picks_of b w)); [| |done].
  - intros c w' Hc [Hr' Hp']. split; [done|].
    by rewrite picks_of_log.
  - intros b' w' [Hr' Hp'] Hb' _.
    assert (b' ≠ b) by (intros ->; by apply Hr').
    destruct (retired_Bot_processNextOrder b b' w' Hr') as [? Hp]; [done|].
    split; [done|]. by rewrite Hp.
Qed.

Lemma retired_step b op w :
  Inv (queue w) w → retired b w →
  retired b (step op w) ∧ picks_of b (step op w) = picks_of b w.
Proof.
  intros HI Hr. destruct op as [| |k|params| |h]; cbn [step].
  - rewrite createNormalOrder_eq. cbn [snd].
    by apply (retired_publish ORDER_ADDED b (pushed NORMAL w)).
  - rewrite createVipOrder_eq. cbn [snd].
    by apply (retired_publish ORDER_ADDED b (pushed VIP w)).
  - done.
  - rewrite Controller_increase_eq. cbn [snd].
    destruct Hr as (Hlt & Hq & Hnt).
    assert (Hr1 : retired b (with_new_bot (default NORMAL params) w)).
    { split; [|split; [done|done]]. unfold with_new_bot.
      cbn [bots set_bots]. rewrite length_app. lia. }
    destruct (retired_Bot_processNextOrder b (length (bots w)) _ Hr1
      ltac:(lia)) as [(Hlt2 & Hq2 & Hnt2) Hp].
    split; [|exact Hp]. split; [done|]. split; [|done].
    cbn [queue set_queue]. rewrite elem_of_app, list_elem_of_singleton.
    intros [?|?]; [done|lia].
  - destruct Hr as (Hlt & Hq & Hnt). unfold Controller.decrease.
    destruct (last (queue w)) as [b'|] eqn:Hl; [|done].
    destruct (Bot_destroy_frame b' (set_queue (removelast (queue w)) w))
      as (H1 & _ & _ & _ & _ & H6 & _).
    apply last_Some in Hl as [Q HQ].
    split; [|unfold picks_of; by rewrite H6]. split; [|split].
    + unfold Bot.destroy, OrderManager.updateCache.
      repeat case_match; rewrite ?publish_quiet by done;
        cbn [bots assign_bot set_bots quiet_publish set_trace set_queueCache];
        rewrite ?length_alter; unfold clearInterval; done.
    + rewrite H1. cbn [queue set_queue]. rewrite HQ, removelast_last.
      intros Hin. apply Hq. rewrite HQ. set_solver.
    + intros h o. unfold Bot.destroy, OrderManager.updateCache.
      repeat case_match; rewrite ?publish_quiet by done;
        cbn [timers assign_bot set_bots quiet_publish set_trace set_queueCache
             clearInterval set_timers set_queue];
        try apply Hnt; intros [_ Ht]%lookup_delete_Some; by apply Hnt in Ht.
  - unfold tick. destruct (timers w !! h) as [[b' x]|] eqn:Ht; [|done].
    assert (Hne : b' ≠ b) by (intros ->; by apply Hr in Ht).
    destruct (inv_timers _ _ HI _ _ _ Ht) as (_ & HbQ & bot & Hb & _ & Hc & Hh).
    pose proof (timer_holds _ _ _ _ _ HI Ht) as Hbx.
    destruct (lookup_lt_is_Some_2 (orders w) x (inv_held_valid _ _ HI _ _ Hbx))
      as [o Ho].
    destruct Hr as (Hlt & Hq & Hnt).
    destruct (decide (counter o - 1 = 0)%Z) as [Hz|Hnz].
    + rewrite (interval_callback_done b' x h w bot o Hb Hc Hh Ho Hz).
      assert (Hr1 : retired b (completed b' x h w)).
      { split; [|split; [done|]].
        - unfold completed.
          cbn [bots assign_bot set_bots quiet_publish set_trace
               set_queueComplete assign_order set_orders clearInterval
               set_timers]. by rewrite length_alter.
        - intros h' o'. unfold completed.
          cbn [timers assign_bot set_bots quiet_publish set_trace
               set_queueComplete assign_order set_orders clearInterval
               set_timers].
          intros [_ Ht']%lookup_delete_Some. by apply Hnt in Ht'. }
      destruct (retired_Bot_processNextOrder b b' _ Hr1 Hne) as [Hr2 Hp].
      split; [done|]. rewrite Hp. unfold picks_of, completed.
      cbn [trace assign_bot set_bots quiet_publish set_trace
           set_queueComplete assign_order set_orders clearInterval
           set_timers].
      by rewrite !pickups_quiet_entries.
    + rewrite (interval_callback_running b' x w o Ho Hnz).
      split; [|by rewrite picks_of_quiet].
      split; [|split; [done|done]].
      cbn [bots quiet_publish set_trace assign_order set_orders]. done.
Qed.

(** X12. A bot that Controller.decrease has removed never attempts a pickup
    again, whatever follows: Bot.processNextOrder is entered only on managed
    bots, on a bot under construction and from a bot's own interval, and a
    removed bot is in none of these cases.  (Nothing reads [isDestroyed];
    what retires the bot is its removal from Controller.queue and the
    cleared interval.) *)
Theorem removed_bot_never_picks_up_again (w : World) (b : bref)
    (ops : list Op) :
  reachable w → last (queue w) = Some b →
  let w1 := Controller.decrease w in
  (b ∉ queue (run ops w1))
  ∧ no_timer (run ops w1) b
  ∧ picks_of b (run ops w1) = picks_of b w.
Proof.
  intros Hreach Hl. cbv zeta.
  pose proof (reachable_Inv w Hreach) as HI.
  pose proof (Controller_decrease_Inv w HI) as HI1.
  assert (Hr1 : retired b (Controller.decrease w)
                ∧ picks_of b (Controller.decrease w) = picks_of b w).
  { unfold Controller.decrease in *. rewrite Hl in *.
    apply last_Some in Hl as [Q HQ].
    set (W := set_queue (removelast (queue w)) w) in *.
    destruct (Bot_destroy_frame b W) as (H1 & _ & _ & _ & _ & H6 & _).
    destruct (Bot_destroy_Inv (queue w) b W) as [_ Hnt].
    { destruct HI. by split. }
    split; [split; [|split; [|done]]|].
    - assert (length (bots (Bot.destroy b W)) = length (bots w)) as ->.
      { unfold Bot.destroy, OrderManager.updateCache.
        repeat case_match; rewrite ?publish_quiet by done;
          cbn [bots assign_bot set_bots quiet_publish set_trace
               set_queueCache];
          rewrite ?length_alter; unfold clearInterval; done. }
      apply (inv_queue_valid _ _ HI). rewrite HQ. set_solver.
    - rewrite H1. unfold W. cbn [queue set_queue].
      rewrite HQ, removelast_last.
      pose proof (inv_queue_nodup _ _ HI) as Hnd. rewrite HQ in Hnd.
      apply NoDup_app in Hnd as (_ & Hnd & _).
      intros Hin. apply (Hnd b Hin). set_solver.
    - unfold picks_of. by rewrite H6. }
  destruct Hr1 as [Hr1 Hp1]. rewrite <- Hp1.
  set (w1 := Controller.decrease w) in *. clearbody w1.
  enough (Inv (queue (run ops w1)) (run ops w1) ∧ retired b (run ops w1)
          ∧ picks_of b (run ops w1) = picks_of b w1)
    as (_ & (_ & ? & ?) & ?) by done.
  unfold run. induction ops as [|op ops (IHI & IHr & IHp)] using rev_ind.
  - done.
  - rewrite foldl_app. cbn [foldl].
    destruct (retired_step b op _ IHI IHr) as [Hr' Hp'].
    split; [by apply step_Inv|]. split; [done|]. by rewrite Hp'.
Qed.

Lemma removed_bot_never_picks_up_again_witness :
  let w := run [Increase None; Increase None] init in
  let ops := [CreateNormalOrder; CreateNormalOrder; Tick 1; Increase None] in
  (reachable w ∧ last (queue w) = Some 1)
  ∧ picks_of 1 (run ops (Controller.decrease w)) = picks_of 1 w.
Proof.
  intros w ops.
  assert (Hr : reachable w) by (by eexists).
  assert (Hl : last (queue w) = Some 1) by (vm_compute; reflexivity).
  split; [by split|].
  exact (proj2 (proj2 (removed_bot_never_picks_up_again w 1 ops Hr Hl))).
Defined.

(** ** Running bots and their intervals *)

Lemma Running_frame X w w1 :
  Running X w → bots w1 = bots w → timers w1 = timers w →
  nextHandle w1 = nextHandle w → Running X w1.
Proof. intros [A B C] Hb Ht Hn. split; rewrite ?Hb, ?Ht, ?Hn; done. Qed.

Lemma Running_except b w : Running None w → Running (Some b) w.
Proof.
  intros [A B C]. split; [|done|done].
  intros b' bot Hb _ Hr. by apply (A b' bot).
Qed.

Lemma Running_close b w :
  Running (Some b) w →
  (∀ bot, bots w !! b = Some bot → bstatus bot = RUN →
     ∃ x h, currentOrder bot = Some x ∧ counterHandle bot = Some h
            ∧ timers w !! h = Some (b, x)) →
  Running None w.
Proof.
  intros [A B C] Hb. split; [|done|done].
  intros b' bot Hb' _ Hr. destruct (decide (b' = b)) as [->|Hne].
  - by apply Hb.
  - apply A; [done|congruence|done].
Qed.

(** A write to bot [b] that keeps its handle, while intervals of other bots
    stay. *)
Lemma Running_alter b f w w1 :
  Running (Some b) w →
  bots w1 = alter f b (bots w) →
  (∀ bot, counterHandle (f bot) = counterHandle bot) →
  (∀ h b' x, b' ≠ b → timers w !! h = Some (b', x) →
     timers w1 !! h = Some (b', x)) →
  nextHandle w ≤ nextHandle w1 →
  Running (Some b) w1.
Proof.
  intros [A B C] Hb Hf Ht Hn.
  assert (Hlk : ∀ b' bot', bots w1 !! b' = Some bot' →
    ∃ bot, bots w !! b' = Some bot ∧ counterHandle bot' = counterHandle bot
           ∧ (b' ≠ b → bot' = bot)).
  { intros b' bot'. rewrite Hb. destruct (decide (b = b')) as [<-|Hne].
    - rewrite list_lookup_alter_eq.
      destruct (bots w !! b) as [bot|]; [|done]. intros [= <-].
      exists bot. split; [done|]. split; [apply Hf|done].
    - rewrite list_lookup_alter_ne by done. intros ?. by exists bot'. }
  split.
  - intros b' bot' Hb' HX Hr. assert (Hne : b' ≠ b) by congruence.
    destruct (Hlk _ _ Hb') as (bot & Hbot & _ & Heq).
    rewrite (Heq Hne) in *.
    destruct (A b' bot Hbot HX Hr) as (x & h & ? & ? & ?).
    exists x, h. split; [done|]. split; [done|]. by apply Ht.
  - intros b1 b2 bot1 bot2 h H1 H2 Hh1 Hh2.
    destruct (Hlk _ _ H1) as (bo1 & ? & E1 & _).
    destruct (Hlk _ _ H2) as (bo2 & ? & E2 & _).
    apply (B b1 b2 bo1 bo2 h); congruence.
  - intros b' bot' h Hb' Hh. destruct (Hlk _ _ Hb') as (bo & ? & E & _).
    rewrite E in Hh. pose proof (C b' bo h ltac:(done) Hh). lia.
Qed.

Lemma picked_up_nextHandle b x w :
  nextHandle (picked_up b x w) = S (nextHandle w).
Proof. reflexivity. Qed.

Lemma Bot_processNextOrder_Running b w :
  Running (Some b) w → Running None (Bot.processNextOrder b w).
Proof.
  intros HR.
  pose proof (proj1 (proj2 (proj2 (proj2 (proj2 (proj2 (proj2
    (Bot_processNextOrder_frame b w)))))))) as Hlen. cbv zeta in Hlen.
  revert Hlen. rewrite Bot_processNextOrder_shifted.
  destruct (shifted w) as [[x w']|] eqn:Hs; intros Hlen.
  - destruct (shifted_Some _ _ _ Hs) as (c & v & n & -> & _).
    set (W := log (Pickup b) (set_pending c v n w)) in *.
    assert (HRW : Running (Some b) W) by by apply (Running_frame _ w).
    destruct HRW as [A B C].
    assert (Hlk : ∀ b' bot', bots (picked_up b x W) !! b' = Some bot' →
      (b' = b ∧ counterHandle bot' = Some (nextHandle W)
       ∧ currentOrder bot' = Some x)
      ∨ (b' ≠ b ∧ bots W !! b' = Some bot')).
    { intros b' bot' Hb'. destruct (decide (b = b')) as [<-|Hne].
      - left. apply lookup_lt_Some in Hb' as Hlt. rewrite Hlen in Hlt.
        destruct (lookup_lt_is_Some_2 (bots W) b Hlt) as [bot Hbot].
        rewrite (picked_up_bot b x W bot Hbot) in Hb'.
        injection Hb' as <-. done.
      - right. rewrite picked_up_other in Hb' by done. done. }
    split.
    + intros b' bot' Hb' _ Hr.
      destruct (Hlk _ _ Hb') as [(-> & Hh & Hc)|[Hne Hold]].
      * exists x, (nextHandle W). split; [done|]. split; [done|].
        rewrite picked_up_timers. apply lookup_insert_eq.
      * destruct (A b' bot' Hold ltac:(congruence) Hr) as (x' & h' & ? & Hh & ?).
        exists x', h'. split; [done|]. split; [done|].
        rewrite picked_up_timers, lookup_insert_ne; [done|].
        pose proof (C _ _ _ Hold Hh). lia.
    + intros b1 b2 bot1 bot2 h H1 H2 Hh1 Hh2.
      destruct (Hlk _ _ H1) as [(-> & Hn1 & _)|[Hne1 Hold1]];
        destruct (Hlk _ _ H2) as [(-> & Hn2 & _)|[Hne2 Hold2]].
      * done.
      * pose proof (C _ _ _ Hold2 Hh2). assert (h = nextHandle W) by congruence.
        lia.
      * pose proof (C _ _ _ Hold1 Hh1). assert (h = nextHandle W) by congruence.
        lia.
      * by apply (B b1 b2 bot1 bot2 h).
    + intros b' bot' h Hb' Hh. rewrite picked_up_nextHandle.
      destruct (Hlk _ _ Hb') as [(-> & Hn & _)|[Hne Hold]].
      * assert (h = nextHandle W) by congruence. lia.
      * pose proof (C _ _ _ Hold Hh). lia.
  - set (W := log (Pickup b) w) in *.
    assert (HRW : Running (Some b) W) by by apply (Running_frame _ w).
    apply (Running_close b).
    + by apply (Running_alter b (with_bstatus IDLE) W).
    + intros bot. cbn [bots assign_bot set_bots].
      rewrite list_lookup_alter_eq.
      destruct (bots W !! b); [|done]. by intros [= <-].
Qed.

Lemma publish_Running e w : Running None w → Running None (publish e w).
Proof.
  apply publish_preserves.
  - intros t w' HR. by apply (Running_frame _ w').
  - intros b w' HR _ _. by apply Bot_processNextOrder_Running, Running_except.
Qed.

Lemma completed_Running b x h w :
  Running None w → timers w !! h = Some (b, x) →
  Running (Some b) (completed b x h w).
Proof.
  intros HR Ht.
  apply (Running_alter b (with_currentOrder None) w);
    [by apply Running_except|done|done| |done].
  intros h' b' x' Hne Ht'. unfold completed.
  cbn [timers assign_bot set_bots quiet_publish set_trace
       set_queueComplete assign_order set_orders clearInterval set_timers].
  rewrite lookup_delete_ne; [done|]. intros <-. congruence.
Qed.

Lemma clear_handle_Running b w :
  Running None w → Running (Some b) (clear_handle b w).
Proof.
  intros HR. unfold clear_handle.
  destruct (bots w !! b ≫= counterHandle) as [h|] eqn:Hh;
    [|by apply Running_except].
  destruct (bots w !! b) as [bot|] eqn:Hb; [|done]. cbn in Hh.
  destruct HR as [A B C]. split.
  - intros b' bot' Hb' HX Hr.
    destruct (A b' bot' Hb' ltac:(done) Hr) as (x' & h' & ? & Hh' & ?).
    exists x', h'. split; [done|]. split; [done|].
    cbn [timers clearInterval set_timers].
    rewrite lookup_delete_ne; [done|]. intros <-.
    assert (b = b') by by apply (B b b' bot bot' h). congruence.
  - done.
  - done.
Qed.

Lemma Running_assign_bot b f w :
  Running (Some b) w →
  (∀ bot, counterHandle (f bot) = counterHandle bot) →
  Running (Some b) (assign_bot b f w).
Proof. intros HR Hf. by apply (Running_alter b f w). Qed.

Lemma Bot_destroy_Running b w :
  Running None w → Running None (Bot.destroy b w).
Proof.
  intros HR. unfold Bot.destroy. fold (clear_handle b w).
  pose proof (clear_handle_Running b w HR) as HR1.
  assert (Hbots : bots (clear_handle b w) = bots w).
  { unfold clear_handle. by destruct (bots w !! b ≫= counterHandle). }
  destruct (bots (clear_handle b w) !! b ≫= currentOrder) as [x|] eqn:Hx.
  - unfold OrderManager.updateCache. rewrite publish_quiet by done.
    apply (Running_close b).
    + do 3 (apply Running_assign_bot; [|done]).
      by apply (Running_frame _ (clear_handle b w)).
    + intros bot. cbn [bots assign_bot set_bots].
      rewrite !list_lookup_alter_eq.
      destruct (bots _ !! b); [|done]. by intros [= <-].
  - apply (Running_close b); [done|].
    intros bot Hb Hr. rewrite Hbots in Hb, Hx.
    destruct (run_active _ _ HR b bot Hb ltac:(done) Hr) as (x & _ & Hc & _).
    rewrite Hb in Hx. cbn in Hx. congruence.
Qed.

Lemma with_new_bot_Running t w :
  Running None w → Running None (with_new_bot t w).
Proof.
  intros [A B C].
  assert (Hlk : ∀ b bot, bots (with_new_bot t w) !! b = Some bot →
    bots w !! b = Some bot
    ∨ bot = mkBot IDLE (botUid w) t None None None).
  { intros b bot. unfold with_new_bot. cbn [bots set_bots].
    intros [?|[_ Hn]]%lookup_app_Some; [by left|right].
    destruct (b - length (bots w)); [|done]. by injection Hn as <-. }
  split.
  - intros b bot Hb _ Hr. destruct (Hlk _ _ Hb) as [Hold| ->]; [|done].
    by apply (A b bot).
  - intros b1 b2 bot1 bot2 h H1 H2 Hh1 Hh2.
    destruct (Hlk _ _ H1) as [Hold1| ->]; [|done].
    destruct (Hlk _ _ H2) as [Hold2| ->]; [|done].
    by apply (B b1 b2 bot1 bot2 h).
  - intros b bot h Hb Hh. destruct (Hlk _ _ Hb) as [Hold| ->]; [|done].
    by apply (C b bot h).
Qed.

Lemma pushed_Running t w : Running None w → Running None (pushed t w).
Proof. intros HR. apply (Running_frame _ w); [done|by destruct t..]. Qed.

Lemma step_Running op w :
  Inv (queue w) w → Running None w → Running None (step op w).
Proof.
  intros HI HR. destruct op as [| |k|params| |h]; cbn [step].
  - rewrite createNormalOrder_eq. cbn [snd].
    by apply publish_Running, pushed_Running.
  - rewrite createVipOrder_eq. cbn [snd].
    by apply publish_Running, pushed_Running.
  - by apply (Running_frame _ w).
  - rewrite Controller_increase_eq. cbn [snd].
    set (W := Bot.processNextOrder _ _).
    assert (Running None W).
    { by apply Bot_processNextOrder_Running, Running_except,
        with_new_bot_Running. }
    by apply (Running_frame _ W).
  - unfold Controller.decrease.
    destruct (last (queue w)) as [b|]; [|done].
    apply Bot_destroy_Running. by apply (Running_frame _ w).
  - unfold tick. destruct (timers w !! h) as [[b x]|] eqn:Ht; [|done].
    destruct (inv_timers _ _ HI _ _ _ Ht) as (_ & HbQ & bot & Hb & _ & Hc & Hh).
    pose proof (timer_holds _ _ _ _ _ HI Ht) as Hbx.
    destruct (lookup_lt_is_Some_2 (orders w) x (inv_held_valid _ _ HI _ _ Hbx))
      as [o Ho].
    destruct (decide (counter o - 1 = 0)%Z) as [Hz|Hnz].
    + rewrite (interval_callback_done b x h w bot o Hb Hc Hh Ho Hz).
      by apply Bot_processNextOrder_Running, completed_Running.
    + rewrite (interval_callback_running b x w o Ho Hnz).
      by apply (Running_frame _ w).
Qed.

Lemma init_Running : Running None init.
Proof. split; intros *; cbn; done. Qed.

Lemma reachable_Running w : reachable w → Running None w.
Proof.
  intros [ops ->]. unfold run.
  enough (Inv (queue (foldl (λ w op, step op w) init ops))
            (foldl (λ w op, step op w) init ops)
          ∧ Running None (foldl (λ w op, step op w) init ops))
    as [_ ?] by done.
  induction ops as [|op ops [IHI IHR]] using rev_ind.
  - split; [apply init_Inv|apply init_Running].
  - rewrite foldl_app; cbn [foldl]. split; [by apply step_Inv|].
    by apply step_Running.
Qed.

(** X3. Controller.increase appends one new bot to the managed list and
    returns it; the bot has the next bot uid and the requested type (NORMAL
    when none is given), and no existing bot is touched.  Its constructor
    picks up at once: if an order is pending the new bot is RUN with the
    first order in priority order (queueCache, queueVipOrder,
    queueNormalOrder), that order has left the queues, and the bot's
    interval is registered; if nothing is pending the bot is IDLE and no
    interval is registered.  In every reachable state the handle of that
    interval is fresh: no interval is active under it and no bot stores it,
    so every interval that was active stays as it was and the only new one
    is the new bot's. *)
Theorem increase_adds_bot_that_takes_next_order (w : World)
    (params : option BotType) :
  let r := Controller.increase params w in
  let t := default NORMAL params in
  r.1 = length (bots w)
  ∧ Controller.getBots r.2 = Controller.getBots w ++ [r.1]
  ∧ botUid r.2 = S (botUid w)
  ∧ (∀ b bot, bots w !! b = Some bot → bots r.2 !! b = Some bot)
  ∧ match pending w with
    | x :: rest =>
      bots r.2 !! r.1
      = Some (mkBot RUN (botUid w) t (Some x) (Some (nextHandle w)) None)
      ∧ pending r.2 = rest
      ∧ timers r.2 = <[nextHandle w := (r.1, x)]> (timers w)
    | [] =>
      bots r.2 !! r.1 = Some (mkBot IDLE (botUid w) t None None None)
      ∧ timers r.2 = timers w
      ∧ published (trace r.2) = published (trace w)
    end
  ∧ (reachable w →
       timers w !! nextHandle w = None
       ∧ (∀ b bot, bots w !! b = Some bot →
            counterHandle bot ≠ Some (nextHandle w))
       ∧ (∀ h v, timers w !! h = Some v → timers r.2 !! h = Some v)
       ∧ (∀ h b x, timers r.2 !! h = Some (b, x) → b ≠ r.1 →
            timers w !! h = Some (b, x))).
Proof.
  cbv zeta.
  destruct (Controller_increase_effect w params) as (H1 & H2 & H3 & H4 & H5).
  do 4 (split; [assumption|]). split; [exact H5|].
  intros Hreach.
  pose proof (reachable_Inv w Hreach) as HI.
  pose proof (reachable_Running w Hreach) as HR.
  assert (Hfresh : timers w !! nextHandle w = None).
  { destruct (timers w !! nextHandle w) as [[b o]|] eqn:Ht; [|done].
    destruct (inv_timers _ _ HI _ _ _ Ht) as [Hlt _]. lia. }
  split; [exact Hfresh|]. split; [|split].
  - intros b bot Hb Hh. pose proof (run_handle_lt _ _ HR b bot _ Hb Hh). lia.
  - intros h v Ht. destruct (pending w) as [|x rest].
    + destruct H5 as (_ & -> & _). exact Ht.
    + destruct H5 as (_ & _ & ->). rewrite lookup_insert_ne; [done|].
      intros <-. congruence.
  - intros h b x Ht Hne. destruct (pending w) as [|x' rest].
    + destruct H5 as (_ & Heq & _). by rewrite Heq in Ht.
    + destruct H5 as (_ & _ & Heq). rewrite Heq in Ht.
      apply lookup_insert_Some in Ht as [[_ [= ? ?]]|[_ Ht]]; [|done].
      by destruct Hne.
Qed.

Lemma increase_adds_bot_that_takes_next_order_witness :
  let w := run [CreateNormalOrder; CreateNormalOrder; Increase None] init in
  let r := Controller.increase (Some VIP) w in
  (reachable w ∧ timers w !! 1 = Some (0, 0))
  ∧ timers w !! nextHandle w = None
  ∧ timers r.2 !! 1 = Some (0, 0)
  ∧ Controller.getBots r.2 = Controller.getBots w ++ [r.1].
Proof.
  intros w r.
  assert (Hr : reachable w) by (by eexists).
  assert (Ht : timers w !! 1 = Some (0, 0)) by (vm_compute; reflexivity).
  split; [by split|].
  destruct (increase_adds_bot_that_takes_next_order w (Some VIP))
    as (_ & Hq & _ & _ & _ & Hf).
  destruct (Hf Hr) as (Hfresh & _ & Hkeep & _).
  split; [exact Hfresh|]. split; [exact (Hkeep 1 _ Ht)|exact Hq].
Defined.

(** X13. The two bot states, in every reachable state of the engine.  A bot
    that is RUN is managed by the Controller, holds a PENDING order whose
    counter is between 1 and 10, and owns the active interval whose handle
    it stores, counting down that very order.  A bot that is IDLE holds
    nothing and owns no interval. *)
Theorem running_bot_holds_order_and_interval (w : World) (b : bref)
    (bot : Bot) :
  reachable w → bots w !! b = Some bot →
  (bstatus bot = RUN →
     ∃ x h o, currentOrder bot = Some x ∧ counterHandle bot = Some h
       ∧ timers w !! h = Some (b, x) ∧ h < nextHandle w
       ∧ b ∈ Controller.getBots w
       ∧ orders w !! x = Some o ∧ status o = PENDING
       ∧ (1 ≤ counter o ≤ 10)%Z)
  ∧ (bstatus bot = IDLE → currentOrder bot = None ∧ no_timer w b).
Proof.
  intros Hreach Hb.
  pose proof (reachable_Inv w Hreach) as HI.
  pose proof (reachable_Ledger w Hreach) as HL.
  pose proof (reachable_Running w Hreach) as HR.
  split.
  - intros Hr.
    destruct (run_active _ _ HR b bot Hb ltac:(done) Hr) as (x & h & Hc & Hh & Ht).
    destruct (inv_timers _ _ HI _ _ _ Ht) as (Hlt & HbQ & _).
    assert (Hbx : holds w b x) by (unfold holds; by rewrite Hb).
    destruct (lookup_lt_is_Some_2 (orders w) x (inv_held_valid _ _ HI _ _ Hbx))
      as [o Ho].
    exists x, h, o. repeat split; try done.
    + destruct (status o) eqn:Hs; [done|].
      apply (led_status _ HL x o Ho) in Hs.
      destruct (inv_held_unlisted _ _ HI _ _ Hbx).
      unfold getOrderList. rewrite !elem_of_app. auto.
    + by apply (led_running _ HL h b x o).
    + by apply (led_counter _ HL x o).
  - intros Hi. split; [by apply (inv_idle _ _ HI b bot)|].
    intros h o Ht.
    destruct (inv_timers _ _ HI _ _ _ Ht) as (_ & _ & bot' & Hb' & Hr & _).
    congruence.
Qed.

Lemma running_bot_holds_order_and_interval_witness :
  let w := run [CreateNormalOrder; Increase None; Tick 1] init in
  let bot := mkBot RUN 0 NORMAL (Some 0) (Some 1) None in
  (reachable w ∧ bots w !! 0 = Some bot)
  ∧ ∃ x h o, currentOrder bot = Some x ∧ counterHandle bot = Some h
      ∧ timers w !! h = Some (0, x) ∧ h < nextHandle w
      ∧ 0 ∈ Controller.getBots w
      ∧ orders w !! x = Some o ∧ status o = PENDING
      ∧ (1 ≤ counter o ≤ 10)%Z.
Proof.
  intros w bot.
  assert (Hr : reachable w) by (by eexists).
  assert (Hb : bots w !! 0 = Some bot) by (vm_compute; reflexivity).
  split; [by split|].
  exact (proj1 (running_bot_holds_order_and_interval w 0 bot Hr Hb) eq_refl).
Defined.

(** X14. Controller.decrease stops the removed bot and no other: the
    intervals of all other bots stay exactly as they were and no interval
    is created, while the removed bot is left without one.  If the removed
    bot held an order, that order is now first in queueCache and the bot is
    IDLE and empty-handed; if it held none, queueCache is unchanged. *)
Theorem decrease_stops_only_the_removed_bot (w : World) (b : bref) :
  reachable w → last (queue w) = Some b →
  let w' := Controller.decrease w in
  (∀ h b' x, b' ≠ b →
     timers w' !! h = Some (b', x) ↔ timers w !! h = Some (b', x))
  ∧ no_timer w' b
  ∧ nextHandle w' = nextHandle w
  ∧ (∀ x, holds w b x →
       queueCache w' = x :: queueCache w
       ∧ bstatus <$> bots w' !! b = Some IDLE
       ∧ ∀ y, ¬ holds w' b y)
  ∧ ((∀ x, ¬ holds w b x) → queueCache w' = queueCache w).
Proof.
  intros Hreach Hl. cbv zeta.
  pose proof (reachable_Inv w Hreach) as HI.
  pose proof (reachable_Running w Hreach) as HR.
  unfold Controller.decrease. rewrite Hl.
  set (W := set_queue (removelast (queue w)) w).
  assert (HIW : Inv (queue w) W) by (destruct HI; by split).
  destruct (Bot_destroy_Inv _ b W HIW) as [_ Hnt].
  assert (Hbots : bots (clear_handle b W) = bots w).
  { unfold clear_handle. by destruct (bots W !! b ≫= counterHandle). }
  assert (Ht : timers (Bot.destroy b W) = timers (clear_handle b W)).
  { unfold Bot.destroy. fold (clear_handle b W).
    destruct (_ ≫= currentOrder); [|done].
    unfold OrderManager.updateCache. by rewrite publish_quiet by done. }
  split; [|split; [done|split; [|split]]].
  - intros h b' x Hne. rewrite Ht. unfold clear_handle.
    change (bots W) with (bots w).
    destruct (bots w !! b ≫= counterHandle) as [h0|] eqn:Hh0; [|done].
    cbn [timers clearInterval set_timers]. change (timers W) with (timers w).
    split; [by intros [_ ?]%lookup_delete_Some|].
    intros Hto. apply lookup_delete_Some. split; [|done]. intros ->.
    destruct (inv_timers _ _ HI _ _ _ Hto) as (_ & _ & bot' & Hb' & _ & _ & Hh').
    destruct (bots w !! b) as [bot|] eqn:Hb; [|done]. cbn in Hh0.
    apply Hne. by apply (run_handle_once _ _ HR b' b bot' bot h).
  - unfold Bot.destroy, OrderManager.updateCache.
    repeat case_match; rewrite ?publish_quiet by done; reflexivity.
  - intros x Hx. unfold holds in Hx.
    destruct (bots w !! b) as [bot|] eqn:Hb; [|done]. cbn in Hx.
    destruct (destroy_holding_bot W b bot x Hb Hx) as (Hq & Hbot & _).
    split; [exact Hq|]. rewrite Hbot. split; [done|].
    intros y. unfold holds. rewrite Hbot. done.
  - intros Hno. unfold Bot.destroy. fold (clear_handle b W). rewrite Hbots.
    destruct (bots w !! b ≫= currentOrder) as [x|] eqn:Hx.
    + by destruct (Hno x).
    + unfold clear_handle. by destruct (bots W !! b ≫= counterHandle).
Qed.

Lemma decrease_stops_only_the_removed_bot_witness :
  let w := run [CreateNormalOrder; CreateNormalOrder;
                Increase None; Increase None] init in
  (reachable w ∧ last (queue w) = Some 1 ∧ holds w 1 1
   ∧ timers w !! 1 = Some (0, 0))
  ∧ timers (Controller.decrease w) !! 1 = Some (0, 0)
  ∧ queueCache (Controller.decrease w) = 1 :: queueCache w.
Proof.
  intros w.
  assert (Hr : reachable w) by (by eexists).
  assert (Hl : last (queue w) = Some 1) by (vm_compute; reflexivity).
  assert (Hx : holds w 1 1) by (vm_compute; reflexivity).
  assert (Ht : timers w !! 1 = Some (0, 0)) by (vm_compute; reflexivity).
  split; [by repeat split|].
  destruct (decrease_stops_only_the_removed_bot w 1 Hr Hl)
    as (H1 & _ & _ & H4 & _).
  split; [by apply (H1 1 0 0)|]. exact (proj1 (H4 1 Hx)).
Defined.

(** ** No new order waits while a managed bot is idle *)

(** A bot that is idle after its own Bot.processNextOrder found nothing. *)
Lemma Bot_processNextOrder_idle_pending b w :
  isIdle (Bot.processNextOrder b w) b = true →
  pending (Bot.processNextOrder b w) = [].
Proof.
  intros Hi. rewrite pending_Bot_processNextOrder.
  destruct (shifted w) as [[x w']|] eqn:Hs.
  2: { apply shifted_None in Hs. by rewrite Hs. }
  exfalso. revert Hi. unfold isIdle.
  destruct (bots (Bot.processNextOrder b w) !! b) as [bot'|] eqn:E; [|done].
  apply lookup_lt_Some in E as Hlt.
  rewrite (proj1 (proj2 (proj2 (proj2 (proj2 (proj2 (proj2
    (Bot_processNextOrder_frame b w)))))))) in Hlt.
  destruct (lookup_lt_is_Some_2 (bots w) b Hlt) as [bot Hbot].
  rewrite Bot_processNextOrder_shifted, Hs in E.
  destruct (shifted_Some _ _ _ Hs) as (c & v & n & -> & _).
  rewrite (picked_up_bot b x (log (Pickup b) (set_pending c v n w)) bot Hbot)
    in E.
  by injection E as <-.
Qed.

Lemma isIdle_Bot_processNextOrder_other b b' w :
  b ≠ b' → isIdle (Bot.processNextOrder b w) b' = isIdle w b'.
Proof.
  intros Hne. unfold isIdle. by rewrite bots_Bot_processNextOrder_other.
Qed.

Lemma Bot_processNextOrder_queues_empty b w :
  queueVipOrder w = [] → queueNormalOrder w = [] →
  queueVipOrder (Bot.processNextOrder b w) = []
  ∧ queueNormalOrder (Bot.processNextOrder b w) = [].
Proof.
  intros Hv Hn. rewrite Bot_processNextOrder_shifted.
  destruct (shifted w) as [[x w']|] eqn:Hs; [|done].
  destruct (shifted_Some_queues _ _ _ Hs) as ([Hv'|Hv'] & [Hn'|Hn'] & _);
    try congruence.
  change (queueVipOrder w' = [] ∧ queueNormalOrder w' = []).
  by rewrite Hv', Hn'.
Qed.

(** The loop of the Controller's subscriber: afterwards a bot of the list is
    idle only if nothing at all is pending. *)
Lemma wake_loop l : ∀ i w, NoDup l →
  let w' := forEach (λ _ b w, if isIdle w b then Bot.processNextOrder b w
                              else w) i l w in
  (∀ b, b ∈ l → isIdle w' b = true → pending w' = [])
  ∧ (∀ b, b ∉ l → isIdle w' b = isIdle w b)
  ∧ (pending w = [] → pending w' = []).
Proof.
  induction l as [|b l IH]; intros i w Hnd; cbv zeta.
  - cbn [forEach]. split; [|done]. intros b Hb. by apply elem_of_nil in Hb.
  - apply NoDup_cons in Hnd as [Hb Hnd]. cbn [forEach].
    set (w1 := if isIdle w b then Bot.processNextOrder b w else w).
    destruct (IH (S i) w1 Hnd) as (A1 & A2 & A3).
    assert (Hp1 : pending w = [] → pending w1 = []).
    { intros Hp. unfold w1. destruct (isIdle w b); [|done].
      by rewrite pending_Bot_processNextOrder, Hp. }
    split; [|split].
    + intros b0 [->|Hin]%elem_of_cons; [|by apply A1].
      rewrite (A2 b Hb). intros Hi. apply A3. revert Hi. unfold w1.
      destruct (isIdle w b) eqn:Hw; [|congruence].
      apply Bot_processNextOrder_idle_pending.
    + intros b0 Hb0. apply not_elem_of_cons in Hb0 as [Hne Hb0].
      rewrite (A2 b0 Hb0). unfold w1. destruct (isIdle w b); [|done].
      by apply isIdle_Bot_processNextOrder_other.
    + intros Hp. by apply A3, Hp1.
Qed.

Lemma publish_added_busy w ks :
  messageQueue w = ControllerCallback :: (Observer <$> ks) →
  NoDup (queue w) →
  ∀ b, b ∈ queue w → isIdle (publish ORDER_ADDED w) b = true →
       pending (publish ORDER_ADDED w) = [].
Proof.
  intros Hm Hnd b Hb. rewrite (publish_added_eq w ks Hm).
  match goal with
  | |- isIdle (set_trace ?t ?W) b = true → pending (set_trace ?t ?W) = [] =>
    change (isIdle W b = true → pending W = [])
  end.
  unfold after_controller, controller_callback.
  rewrite bool_decide_eq_true_2 by done. cbn [andb].
  set (W0 := log _ (log _ w)).
  destruct (hasIdleBot W0) eqn:Hh.
  - change (queue W0) with (queue w).
    by apply (wake_loop (queue w) 0 W0 Hnd).
  - intros Hi. unfold hasIdleBot in Hh.
    assert (existsb (isIdle W0) (queue W0) = true); [|congruence].
    apply existsb_exists. exists b. split; [|done].
    by apply list_elem_of_In.
Qed.

Lemma publish_queue e w : queue (publish e w) = queue w.
Proof.
  apply (publish_preserves (λ w', queue w' = queue w)); [done| |done].
  intros b w' Hw' _ _.
  by rewrite (proj1 (Bot_processNextOrder_frame b w')).
Qed.

Lemma pending_nil_queues w :
  pending w = [] → queueVipOrder w = [] ∧ queueNormalOrder w = [].
Proof.
  unfold pending. intros (_ & Hvn)%app_nil. by apply app_nil in Hvn.
Qed.

Lemma step_Busy op w : reachable w → Busy w → Busy (step op w).
Proof.
  intros Hreach HB.
  pose proof (reachable_Inv w Hreach) as HI.
  destruct (reachable_messageQueue w Hreach) as [ks Hm].
  destruct op as [| |k|params| |h]; cbn [step].
  - rewrite createNormalOrder_eq. cbn [snd]. intros b Hb Hi.
    apply pending_nil_queues.
    rewrite publish_queue in Hb.
    exact (publish_added_busy (pushed NORMAL w) ks Hm
             (inv_queue_nodup _ _ HI) b Hb Hi).
  - rewrite createVipOrder_eq. cbn [snd]. intros b Hb Hi.
    apply pending_nil_queues.
    rewrite publish_queue in Hb.
    exact (publish_added_busy (pushed VIP w) ks Hm
             (inv_queue_nodup _ _ HI) b Hb Hi).
  - exact HB.
  - rewrite Controller_increase_eq. cbn [snd].
    set (a := length (bots w)). set (W := with_new_bot _ w).
    intros b Hb.
    change (isIdle (Bot.processNextOrder a W) b = true →
            queueVipOrder (Bot.processNextOrder a W) = []
            ∧ queueNormalOrder (Bot.processNextOrder a W) = []).
    destruct (decide (b = a)) as [->|Hne].
    + intros Hi. by apply pending_nil_queues, Bot_processNextOrder_idle_pending.
    + rewrite isIdle_Bot_processNextOrder_other by done.
      cbn [queue set_queue] in Hb.
      apply elem_of_app in Hb as [Hb|Hb];
        [|by apply list_elem_of_singleton in Hb].
      assert (isIdle W b = isIdle w b) as ->.
      { unfold isIdle, W, with_new_bot. cbn [bots set_bots].
        rewrite lookup_app_l; [done|]. by apply (inv_queue_valid _ _ HI). }
      intros Hi. destruct (HB b Hb Hi) as [Hv Hn].
      by apply Bot_processNextOrder_queues_empty.
  - unfold Controller.decrease.
    destruct (last (queue w)) as [b0|] eqn:Hl; [|done].
    destruct (Bot_destroy_frame b0 (set_queue (removelast (queue w)) w))
      as (H1 & _ & H3 & H4 & _ & _ & H7).
    apply last_Some in Hl as [Q HQ].
    intros b. rewrite H1, H3, H4. cbn [queue set_queue]. intros Hb.
    rewrite HQ, removelast_last in Hb.
    pose proof (inv_queue_nodup _ _ HI) as Hnd. rewrite HQ in Hnd.
    apply NoDup_app in Hnd as (_ & Hnd & _).
    assert (b ≠ b0) by (intros ->; apply (Hnd b0 Hb); set_solver).
    unfold isIdle. rewrite H7 by done. intros Hi. apply (HB b); [|done].
    rewrite HQ. set_solver.
  - unfold tick. destruct (timers w !! h) as [[b x]|] eqn:Ht; [|done].
    destruct (inv_timers _ _ HI _ _ _ Ht) as (_ & HbQ & bot & Hb & _ & Hc & Hh).
    pose proof (timer_holds _ _ _ _ _ HI Ht) as Hbx.
    destruct (lookup_lt_is_Some_2 (orders w) x (inv_held_valid _ _ HI _ _ Hbx))
      as [o Ho].
    destruct (decide (counter o - 1 = 0)%Z) as [Hz|Hnz].
    + rewrite (interval_callback_done b x h w bot o Hb Hc Hh Ho Hz).
      intros b'. rewrite (proj1 (Bot_processNextOrder_frame b _)).
      change (queue (completed b x h w)) with (queue w). intros Hb'.
      destruct (decide (b' = b)) as [->|Hne].
      * intros Hi.
        by apply pending_nil_queues, Bot_processNextOrder_idle_pending.
      * rewrite isIdle_Bot_processNextOrder_other by done.
        assert (isIdle (completed b x h w) b' = isIdle w b') as ->.
        { unfold isIdle, completed.
          cbn [bots assign_bot set_bots quiet_publish set_trace
               set_queueComplete assign_order set_orders clearInterval
               set_timers].
          by rewrite list_lookup_alter_ne. }
        intros Hi. destruct (HB b' Hb' Hi) as [Hv Hn].
        by apply Bot_processNextOrder_queues_empty.
    + rewrite (interval_callback_running b x w o Ho Hnz). exact HB.
Qed.

Lemma reachable_Busy w : reachable w → Busy w.
Proof.
  intros [ops ->]. induction ops as [|op ops IH] using rev_ind.
  - intros b Hb. by apply elem_of_nil in Hb.
  - unfold run in *. rewrite foldl_app. cbn [foldl].
    apply step_Busy; [by exists ops|exact IH].
Qed.

(** X15. A new order never waits while a managed bot is idle.  In every
    reachable state, if some bot of Controller.queue is IDLE then
    queueVipOrder and queueNormalOrder are empty: only orders recovered
    into queueCache can wait beside an idle bot.  And right after
    createNormalOrder or createVipOrder returns, an idle managed bot means
    that nothing at all is pending, queueCache included. *)
Theorem new_order_never_waits_beside_idle_bot (w : World) (b : bref) :
  reachable w → b ∈ Controller.getBots w →
  (isIdle w b = true → queueVipOrder w = [] ∧ queueNormalOrder w = [])
  ∧ (isIdle (OrderManager.createNormalOrder w).2 b = true →
     pending (OrderManager.createNormalOrder w).2 = [])
  ∧ (isIdle (OrderManager.createVipOrder w).2 b = true →
     pending (OrderManager.createVipOrder w).2 = []).
Proof.
  intros Hreach Hb.
  pose proof (reachable_Inv w Hreach) as HI.
  destruct (reachable_messageQueue w Hreach) as [ks Hm].
  split; [by apply (reachable_Busy w Hreach)|].
  rewrite createNormalOrder_eq, createVipOrder_eq. cbn [snd].
  split.
  - apply (publish_added_busy (pushed NORMAL w) ks); try done.
    apply (inv_queue_nodup _ _ HI).
  - apply (publish_added_busy (pushed VIP w) ks); try done.
    apply (inv_queue_nodup _ _ HI).
Qed.

Lemma new_order_never_waits_beside_idle_bot_witness :
  let w := run [CreateVipOrder; Increase None; Increase None] init in
  (reachable w ∧ 1 ∈ Controller.getBots w ∧ isIdle w 1 = true)
  ∧ queueVipOrder w = [] ∧ queueNormalOrder w = [].
Proof.
  intros w.
  assert (Hr : reachable w) by (by eexists).
  assert (Hb : 1 ∈ Controller.getBots w) by (vm_compute; set_solver).
  assert (Hi : isIdle w 1 = true) by (vm_compute; reflexivity).
  split; [by repeat split|].
  exact (proj1 (new_order_never_waits_beside_idle_bot w 1 Hr Hb) Hi).
Defined.
